(** * Verification of the schema validation compiler (packages/schema)

    The schema package turns a descriptor (built with [string], [object],
    [array], [union], [lazy], ...) into a validator: [emit] produces the
    text of a JavaScript function body, [build] hands that text to
    [new Function], and [compile] memoises the result per descriptor.

    This development embeds that pipeline:

    - [Schema] is the descriptor model; every descriptor carries the
      identity ([sid]) under which [_cache] and [_building] know it;
    - [emit] is the emitter.  It returns the emitted code as a syntax tree
      ([stmt]) of the JavaScript fragment the templates of the source are
      written in; [render] prints that tree, and the printed text is the
      string the source builds;
    - [exec] and [call] give the emitted code its meaning over a store of
      JavaScript objects ([heap]), so that in-place normalisation, aliasing
      and [structuredClone] are what they are in the running program;
    - [build] and [compile] thread the module state ([_cache],
      [_building]) explicitly. *)

From Stdlib Require Import Ascii String ZArith Lia.
From stdpp Require Import base strings list gmap pretty.

#[local] Set Warnings "-register-all,-clear-no-such-hyp".

Open Scope string_scope.
Open Scope list_scope.
Open Scope nat_scope.

(** ** Text helpers *)

Module Text.

Definition chr (n : nat) : ascii := Ascii.ascii_of_nat n.
Definition str1 (a : ascii) : string := String a EmptyString.

Definition backslash : ascii := chr 92.
Definition squote : ascii := chr 39.
Definition dquote : ascii := chr 34.
Definition LF : ascii := chr 10.
Definition CR : ascii := chr 13.

(** [s.replaceAll(c, rep)] for a one-character pattern. *)
Fixpoint replaceAll1 (c : ascii) (rep : string) (s : string) : string :=
  match s with
  | EmptyString => EmptyString
  | String a rest =>
      if Ascii.eqb a c then rep +:+ replaceAll1 c rep rest
      else String a (replaceAll1 c rep rest)
  end.

(** [s.replaceAll(pat, rep)] for a pattern of three bytes: U+2028 and
    U+2029 are E2 80 A8 and E2 80 A9 in the UTF-8 text of this model. *)
Fixpoint replaceAll3 (a b c : ascii) (rep : string) (s : string) : string :=
  match s with
  | EmptyString => EmptyString
  | String x rest =>
      match rest with
      | String y (String z rest') =>
          if Ascii.eqb x a && Ascii.eqb y b && Ascii.eqb z c
          then rep +:+ replaceAll3 a b c rep rest'
          else String x (replaceAll3 a b c rep rest)
      | _ => String x (replaceAll3 a b c rep rest)
      end
  end.

(** [esc]: the six [replaceAll] calls of the source, in its order. *)
Definition esc (s : string) : string :=
  let s := replaceAll1 backslash (String backslash (str1 backslash)) s in
  let s := replaceAll1 squote (String backslash (str1 squote)) s in
  let s := replaceAll1 LF (String backslash "n") s in
  let s := replaceAll1 CR (String backslash "r") s in
  let s := replaceAll3 (chr 226) (chr 128) (chr 168) (String backslash "u2028") s in
  replaceAll3 (chr 226) (chr 128) (chr 169) (String backslash "u2029") s.

Definition hexval (a : ascii) : option nat :=
  let n := Ascii.nat_of_ascii a in
  if Nat.leb 48 n && Nat.leb n 57 then Some (n - 48)
  else if Nat.leb 97 n && Nat.leb n 102 then Some (n - 87)
  else if Nat.leb 65 n && Nat.leb n 70 then Some (n - 55)
  else None.

(** UTF-8 bytes of a code point below 0x10000. *)
Definition utf8 (n : nat) : string :=
  if Nat.ltb n 128 then str1 (chr n)
  else if Nat.ltb n 2048 then
    String (chr (192 + n / 64)) (str1 (chr (128 + n mod 64)))
  else
    String (chr (224 + n / 4096))
      (String (chr (128 + (n / 64) mod 64)) (str1 (chr (128 + n mod 64)))).

(** The characters that cannot stand unescaped inside a single-quoted
    string literal: the quote ends the literal, a line break is a
    [SyntaxError]. *)
Definition ends_literal (a : ascii) : bool :=
  Ascii.eqb a squote || Ascii.eqb a LF || Ascii.eqb a CR.

(** The characters after a backslash whose escape this model does not
    read: hexadecimal and octal escapes, and the line continuations (a
    backslash before a line break, or before the first byte of U+2028
    and U+2029). *)
Definition unread_escape (b : ascii) : bool :=
  let n := Ascii.nat_of_ascii b in
  Ascii.eqb b "x"%char || (Nat.leb 48 n && Nat.leb n 57)
  || Ascii.eqb b LF || Ascii.eqb b CR || Ascii.eqb b (chr 226).

(** The value of a single-quoted JavaScript string literal, given the
    text between its quotes, as the parser of [new Function] reads it:
    [\\n], [\\r], [\\t], [\\b], [\\f], [\\v] and [\\uXXXX] are decoded, a
    backslash before any other character gives that character.  There
    is no value ([None]) when the text is not the body of one literal: a
    quote or a line break that is not escaped, a backslash at the end, a
    [\\u] without four hexadecimal digits; nor for the escapes of
    [unread_escape]. *)
Fixpoint unescape (s : string) : option string :=
  match s with
  | EmptyString => Some EmptyString
  | String a rest =>
      if Ascii.eqb a backslash then
        match rest with
        | EmptyString => None
        | String b rest1 =>
            if Ascii.eqb b "n"%char then String LF <$> unescape rest1
            else if Ascii.eqb b "r"%char then String CR <$> unescape rest1
            else if Ascii.eqb b "t"%char then String (chr 9) <$> unescape rest1
            else if Ascii.eqb b "b"%char then String (chr 8) <$> unescape rest1
            else if Ascii.eqb b "f"%char then String (chr 12) <$> unescape rest1
            else if Ascii.eqb b "v"%char then String (chr 11) <$> unescape rest1
            else if Ascii.eqb b "u"%char then
              match rest1 with
              | String h1 (String h2 (String h3 (String h4 rest2))) =>
                  match hexval h1, hexval h2, hexval h3, hexval h4 with
                  | Some d1, Some d2, Some d3, Some d4 =>
                      String.append (utf8 (((d1 * 16 + d2) * 16 + d3) * 16 + d4))
                        <$> unescape rest2
                  | _, _, _, _ => None
                  end
              | _ => None
              end
            else if unread_escape b then None
            else String b <$> unescape rest1
        end
      else if ends_literal a then None
      else String a <$> unescape rest
  end.

Definition hexdigit (n : nat) : ascii :=
  if Nat.ltb n 10 then chr (48 + n) else chr (87 + n).

(** [JSON.stringify] of a string. *)
Fixpoint json_chars (s : string) : string :=
  match s with
  | EmptyString => EmptyString
  | String a rest =>
      let n := Ascii.nat_of_ascii a in
      (if Ascii.eqb a dquote then String backslash (str1 dquote)
       else if Ascii.eqb a backslash then String backslash (str1 backslash)
       else if Nat.eqb n 8 then String backslash "b"
       else if Nat.eqb n 9 then String backslash "t"
       else if Nat.eqb n 10 then String backslash "n"
       else if Nat.eqb n 12 then String backslash "f"
       else if Nat.eqb n 13 then String backslash "r"
       else if Nat.ltb n 32 then
         String backslash ("u00" +:+ String (hexdigit (n / 16)) (str1 (hexdigit (n mod 16))))
       else str1 a) +:+ json_chars rest
  end.

Definition json_string (s : string) : string :=
  String dquote (json_chars s) +:+ str1 dquote.

(** [parts.join(sep)]. *)
Definition join (sep : string) (parts : list string) : string :=
  String.concat sep parts.

(** Decimal text of a number that is a natural or an integer. *)
Definition dec (n : nat) : string := pretty n.
Definition decZ (z : Z) : string := pretty z.

(** The array index a property name denotes, if it is the canonical
    decimal text of one. *)
Definition digit_of (a : ascii) : option nat :=
  let n := Ascii.nat_of_ascii a in
  if Nat.leb 48 n && Nat.leb n 57 then Some (n - 48) else None.

Fixpoint parse_digits (acc : nat) (s : string) : option nat :=
  match s with
  | EmptyString => Some acc
  | String a rest =>
      match digit_of a with
      | Some d => parse_digits (acc * 10 + d) rest
      | None => None
      end
  end.

Definition index_of_key (k : string) : option nat :=
  match k with
  | EmptyString => None
  | String a rest =>
      if Ascii.eqb a "0"%char then
        (match rest with EmptyString => Some 0 | _ => None end)
      else parse_digits 0 k
  end.

End Text.

(** ** JavaScript values and the object store *)

Module JS.

(** A number.  A finite number is the rational [n/d]; what the emitted
    code does with a number ([typeof], [===], [Number.isFinite],
    [Number.isInteger]) does not tell [-0] from [0], and neither does the
    model. *)
Inductive num :=
| Fin (n : Z) (d : positive)
| NaN
| Inf (neg : bool).

Definition int (z : Z) : num := Fin z 1.

Inductive val :=
| VUndef
| VNull
| VBool (b : bool)
| VNum (n : num)
| VStr (s : string)
| VBigInt (z : Z)
| VRef (l : nat).

(** An object of the store: a plain object (its own enumerable
    properties, in enumeration order) or an array. *)
Inductive obj :=
| OObj (props : list (string * val))
| OArr (elems : list val).

Definition heap := list obj.

(** A property key: an array index or a name. *)
Inductive key :=
| KIdx (i : nat)
| KStr (s : string).

Definition key_str (k : key) : string :=
  match k with KIdx i => Text.dec i | KStr s => s end.

Definition key_idx (k : key) : option nat :=
  match k with KIdx i => Some i | KStr s => Text.index_of_key s end.

(** What is thrown: an [Error] with its message, the engine's [TypeError]
    (reading a property of [null] or [undefined], calling what is not a
    function), or any value thrown by a user function. *)
Inductive thrown :=
| TError (msg : string)
| TTypeError
| TVal (v : val).

Inductive abort := OutOfFuel | Unmodelled.

(** Result of a computation over the store. *)
Inductive res (A : Type) :=
| Ok (a : A)
| Raise (t : thrown)
| Stop (a : abort).
Arguments Ok {A} a.
Arguments Raise {A} t.
Arguments Stop {A} a.

Definition typeof (v : val) : string :=
  match v with
  | VUndef => "undefined"
  | VNull => "object"
  | VBool _ => "boolean"
  | VNum _ => "number"
  | VStr _ => "string"
  | VBigInt _ => "bigint"
  | VRef _ => "object"
  end.

Definition isFinite (v : val) : bool :=
  match v with VNum (Fin _ _) => true | _ => false end.

Definition isInteger (v : val) : bool :=
  match v with
  | VNum (Fin n d) => Z.eqb (Z.modulo n (Z.pos d)) 0
  | _ => false
  end.

Definition isArray (h : heap) (v : val) : bool :=
  match v with
  | VRef l => match h !! l with Some (OArr _) => true | _ => false end
  | _ => false
  end.

Definition num_eq (a b : num) : bool :=
  match a, b with
  | Fin n d, Fin n' d' => Z.eqb (n * Z.pos d') (n' * Z.pos d)
  | Inf s, Inf s' => Bool.eqb s s'
  | _, _ => false
  end.

(** [!x]'s operand: the falsy values. *)
Definition truthy (v : val) : bool :=
  match v with
  | VUndef | VNull => false
  | VBool b => b
  | VNum (Fin n _) => negb (Z.eqb n 0)
  | VNum NaN => false
  | VNum (Inf _) => true
  | VStr s => negb (String.eqb s "")
  | VBigInt z => negb (Z.eqb z 0)
  | VRef _ => true
  end.

Definition nullish (v : val) : bool :=
  match v with VUndef | VNull => true | _ => false end.

Fixpoint assoc {A} (k : string) (ps : list (string * A)) : option A :=
  match ps with
  | [] => None
  | (k', v) :: r => if String.eqb k k' then Some v else assoc k r
  end.

(** The properties of a plain object are its own data properties, kept
    in the order [for ... in] enumerates them: those named by an array
    index first, in ascending order, then the others in the order they
    were created. *)
Definition array_index (k : string) : option nat :=
  match Text.index_of_key k with
  | Some i => if N.ltb (N.of_nat i) 4294967295 then Some i else None
  | None => None
  end.

Fixpoint assoc_put {A} (k : string) (v : A) (ps : list (string * A))
  : list (string * A) :=
  match ps with
  | [] => [(k, v)]
  | (k', v') :: r =>
      if String.eqb k k' then (k, v) :: r else (k', v') :: assoc_put k v r
  end.

Fixpoint assoc_index {A} (i : nat) (k : string) (v : A) (ps : list (string * A))
  : list (string * A) :=
  match ps with
  | [] => [(k, v)]
  | (k', v') :: r =>
      match array_index k' with
      | Some j =>
          if Nat.ltb i j then (k, v) :: ps else (k', v') :: assoc_index i k v r
      | None => (k, v) :: ps
      end
  end.

(** [o[k] = v] on a plain object: an existing property keeps its place; a
    new one named by an array index goes to its place among those, any
    other new one goes last. *)
Definition assoc_set {A} (k : string) (v : A) (ps : list (string * A))
  : list (string * A) :=
  match assoc k ps, array_index k with
  | None, Some i => assoc_index i k v ps
  | _, _ => assoc_put k v ps
  end.

(** [base[k]] where the objects of the heap are data: plain objects and
    arrays with own data properties and nothing on their prototypes but
    what [Object.prototype] and [Array.prototype] have, which is not
    modelled (a name found there only reads as [undefined] here).
    Reading a property of [undefined] or [null] is a [TypeError]; reading
    one of a primitive goes through its wrapper's prototype, which the
    model leaves out. *)
Definition get_prop (h : heap) (base : val) (k : key) : res val :=
  match base with
  | VUndef | VNull => Raise TTypeError
  | VRef l =>
      match h !! l with
      | Some (OObj ps) => Ok (default VUndef (assoc (key_str k) ps))
      | Some (OArr es) =>
          match key_idx k with
          | Some i => Ok (default VUndef (es !! i))
          | None =>
              if String.eqb (key_str k) "length"
              then Ok (VNum (int (Z.of_nat (length es))))
              else Ok VUndef
          end
      | None => Stop Unmodelled
      end
  | _ => Stop Unmodelled
  end.

(** [a[i] = v] on an array: JavaScript extends the array when [i] is at
    or past its length. *)
Definition arr_set (i : nat) (v : val) (es : list val) : list val :=
  if Nat.ltb i (length es) then <[i:=v]> es
  else es ++ replicate (i - length es) VUndef ++ [v].

(** [base[k] = v].  The emitted function is sloppy-mode code: a write
    to a property of a primitive is dropped. *)
Definition set_prop (h : heap) (base : val) (k : key) (v : val) : res heap :=
  match base with
  | VUndef | VNull => Raise TTypeError
  | VRef l =>
      match h !! l with
      | Some (OObj ps) => Ok (<[l:=OObj (assoc_set (key_str k) v ps)]> h)
      | Some (OArr es) =>
          match key_idx k with
          | Some i => Ok (<[l:=OArr (arr_set i v es)]> h)
          | None => Stop Unmodelled
          end
      | None => Stop Unmodelled
      end
  | _ => Ok h
  end.

(** [k in base], of the own properties of the object: the prototype
    chain is not modelled. *)
Definition has_prop (h : heap) (base : val) (k : string) : res bool :=
  match base with
  | VRef l =>
      match h !! l with
      | Some (OObj ps) => Ok (bool_decide (is_Some (assoc k ps)))
      | Some (OArr es) =>
          match Text.index_of_key k with
          | Some i => Ok (Nat.ltb i (length es))
          | None => Ok (String.eqb k "length")
          end
      | None => Stop Unmodelled
      end
  | _ => Raise TTypeError
  end.

(** *** [structuredClone]

    A deep copy into fresh objects.  [memo] maps the objects already
    copied to their copies, so sharing and cycles of the original are
    those of the copy.  Every object is copied once, so the number of
    objects of the store bounds the recursion. *)
Fixpoint clone (fuel : nat) (memo : list (nat * nat)) (h : heap) (v : val)
  : option (val * list (nat * nat) * heap) :=
  match v with
  | VRef l =>
      match list_find (fun p => bool_decide (p.1 = l)) memo with
      | Some (_, (_, l')) => Some (VRef l', memo, h)
      | None =>
          match fuel with
          | O => None
          | S fuel' =>
              let l' := length h in
              match h !! l with
              | Some (OArr es) =>
                  let go :=
                    fix go (es : list val) memo h :=
                      match es with
                      | [] => Some ([], memo, h)
                      | x :: r =>
                          match clone fuel' memo h x with
                          | Some (x', memo1, h1) =>
                              match go r memo1 h1 with
                              | Some (r', memo2, h2) => Some (x' :: r', memo2, h2)
                              | None => None
                              end
                          | None => None
                          end
                      end in
                  match go es ((l, l') :: memo) (h ++ [OArr []]) with
                  | Some (es', memo1, h1) => Some (VRef l', memo1, <[l':=OArr es']> h1)
                  | None => None
                  end
              | Some (OObj ps) =>
                  let go :=
                    fix go (ps : list (string * val)) memo h :=
                      match ps with
                      | [] => Some ([], memo, h)
                      | (k, x) :: r =>
                          match clone fuel' memo h x with
                          | Some (x', memo1, h1) =>
                              match go r memo1 h1 with
                              | Some (r', memo2, h2) => Some ((k, x') :: r', memo2, h2)
                              | None => None
                              end
                          | None => None
                          end
                      end in
                  match go ps ((l, l') :: memo) (h ++ [OObj []]) with
                  | Some (ps', memo1, h1) => Some (VRef l', memo1, <[l':=OObj ps']> h1)
                  | None => None
                  end
              | None => None
              end
          end
      end
  | _ => Some (v, memo, h)
  end.

Definition structuredClone (h : heap) (v : val) : option (val * heap) :=
  match clone (S (length h)) [] h v with
  | Some (v', _, h') => Some (v', h')
  | None => None
  end.

(** A function supplied by the user ([transform], [refine],
    [preprocess]): it reads the store, may allocate or write, and
    returns or throws. *)
Inductive ures :=
| UReturn (v : val)
| UThrow (t : thrown).

Definition ufun := heap -> val -> heap * ures.

End JS.

(** ** The emitted code

    [emit] builds JavaScript text from a fixed set of templates.  The
    model keeps the text as the syntax tree of those templates; [render]
    prints the tree, character for character the string of the source. *)

Module Code.
Import JS.

(** A literal of the emitted code: a string, an integer, [true],
    [false] or [null]. *)
Inductive lit :=
| LStr (s : string)
| LNum (z : Z)
| LBool (b : bool)
| LNull.

(** The text of a literal of the code.  The numbers among them are safe
    integers (what [stringify] below makes of a descriptor's value),
    which are written with all their digits. *)
Definition json (l : lit) : string :=
  match l with
  | LStr s => Text.json_string s
  | LNum z => Text.decZ z
  | LBool true => "true"
  | LBool false => "false"
  | LNull => "null"
  end.

(** A safe integer: below 2^53 in absolute value. *)
Definition safe (z : Z) : bool := Z.ltb (Z.abs z) 9007199254740992.

(** The values a [literal] or [oneOf] descriptor holds: a string, a
    number, a boolean or [null].  Of the numbers the model has the safe
    integers (which JavaScript prints with all their digits), [NaN] and
    the two infinities; it has no fraction and no larger number, whose
    text is the engine's shortest round-trip decimal. *)
Inductive constant :=
| JStr (s : string)
| JInt (z : Z) (ok : Is_true (safe z))
| JNaN
| JInf (neg : bool)
| JBool (b : bool)
| JNull.

(** The literal [JSON.stringify(value)] writes into the code: [NaN] and
    the infinities are written [null]. *)
Definition stringify (k : constant) : lit :=
  match k with
  | JStr s => LStr s
  | JInt z _ => LNum z
  | JBool b => LBool b
  | JNaN | JInf _ | JNull => LNull
  end.

(** The text of a value inside a template string. *)
Definition text_of (k : constant) : string :=
  match k with
  | JStr s => s
  | JInt z _ => Text.decZ z
  | JNaN => "NaN"
  | JInf false => "Infinity"
  | JInf true => "-Infinity"
  | JBool true => "true"
  | JBool false => "false"
  | JNull => "null"
  end.

(** An element of [values.join(", ")]: [null] joins as the empty text. *)
Definition join_text (k : constant) : string :=
  match k with JNull => "" | _ => text_of k end.

(** Key equality of a [Map] (SameValueZero): [NaN] is the same key as
    [NaN]. *)
Definition same_value_zero (a b : constant) : bool :=
  match a, b with
  | JStr s, JStr s' => String.eqb s s'
  | JInt z _, JInt z' _ => Z.eqb z z'
  | JNaN, JNaN => true
  | JInf x, JInf y => Bool.eqb x y
  | JBool x, JBool y => Bool.eqb x y
  | JNull, JNull => true
  | _, _ => false
  end.

(** [v === literal]. *)
Definition strict_eq (v : val) (l : lit) : bool :=
  match v, l with
  | VStr s, LStr s' => String.eqb s s'
  | VNum n, LNum z => num_eq n (int z)
  | VBool x, LBool y => Bool.eqb x y
  | VNull, LNull => true
  | _, _ => false
  end.

(** One step of a value slot: [[v]] with a loop variable, [["key"]]
    with a property name, [[i]] with a tuple position. *)
Inductive acc :=
| AVar (v : string)
| AKey (k : string)
| AIdx (i : nat).

(** A value slot: [input] followed by accessors. *)
Definition slot := list acc.

(** A string expression: a literal (the text between its quotes), a
    loop variable, a concatenation. *)
Inductive sexpr :=
| XStr (raw : string)
| XVar (v : string)
| XAdd (a b : sexpr).

Inductive cond :=
| CTypeofNe (e : slot) (t : string)      (* typeof e!=='t' *)
| CNotFinite (e : slot)                   (* !Number.isFinite(e) *)
| CNotInteger (e : slot)                  (* !Number.isInteger(e) *)
| CNotArray (e : slot)                    (* !Array.isArray(e) *)
| CIsArray (e : slot)                     (* Array.isArray(e) *)
| CIsNull (e : slot)                      (* e===null *)
| CNotNullish (e : slot)                  (* e!=null *)
| CNeLit (e : slot) (l : lit)             (* e!==lit *)
| CLenNe (e : slot) (n : nat)             (* e.length!==n *)
| CIn (k : string) (e : slot)             (* "k" in e *)
| COr (a b : cond).                       (* a||b *)

(** What a [switch] dispatches on, and a [case] label. *)
Inductive disc :=
| DTypeof (e : slot)
| DSlot (e : slot).

Inductive clabel :=
| LTag (t : string)                       (* case 'string': *)
| LLit (l : lit).                         (* case "a": *)

Inductive stmt :=
| SSeq (ss : list stmt)                   (* s1;s2;... *)
| SThrow (m : sexpr)                      (* throw new Error(m) *)
| SIfS (c : cond) (s : stmt)              (* if(c)s *)
| SIf (c : cond) (s : stmt)               (* if(c){s} *)
| SIfElse (c : cond) (s1 s2 : stmt)       (* if(c){s1}else{s2} *)
| SSetUndef (e : slot)                    (* e=undefined *)
| SCallSet (e : slot) (idx : nat)         (* e=v[idx](e) *)
| SIfNotCall (idx : nat) (e : slot) (s : stmt)   (* if(!v[idx](e))s *)
| SFor (v : string) (e : slot) (body : stmt)
                                          (* for(let v=0;v<e.length;v++){body} *)
| SForIn (v : string) (e : slot) (body : stmt)
                                          (* for(const v in e){body} *)
| SSwitchOneOf (e : slot) (values : list lit) (dflt : stmt)
                                          (* switch(e){case a:case b:break;default:dflt} *)
| SSwitch (d : disc) (cases : list (clabel * stmt)) (dflt : stmt)
                                          (* switch(d){case l:s;...;default:dflt} *)
| SBreak (label : option string)          (* break / break label *)
| SVarSnap (snap : string) (idx : nat) (e : slot)
                                          (* var err,snap=v[idx](e) *)
| SSetClone (e : slot) (idx : nat) (snap : string)
                                          (* e=v[idx](snap) *)
| SDoWhile0 (label : string) (body : stmt)
                                          (* label:do{body}while(0) *)
| STry (body : stmt)                      (* try{body}catch(_e){err=_e} *)
| SThrowErr.                              (* throw err??new Error('union failed') *)

(** *** Printing *)

Definition render_acc (a : acc) : string :=
  match a with
  | AVar v => "[" +:+ v +:+ "]"
  | AKey k => "[" +:+ Text.json_string k +:+ "]"
  | AIdx i => "[" +:+ Text.dec i +:+ "]"
  end.

Definition render_slot (e : slot) : string :=
  "input" +:+ String.concat "" (map render_acc e).

Definition quote (raw : string) : string :=
  String Text.squote raw +:+ Text.str1 Text.squote.

Fixpoint render_sexpr (x : sexpr) : string :=
  match x with
  | XStr raw => quote raw
  | XVar v => v
  | XAdd a b => render_sexpr a +:+ "+" +:+ render_sexpr b
  end.

Fixpoint render_cond (c : cond) : string :=
  match c with
  | CTypeofNe e t => "typeof " +:+ render_slot e +:+ "!==" +:+ quote t
  | CNotFinite e => "!Number.isFinite(" +:+ render_slot e +:+ ")"
  | CNotInteger e => "!Number.isInteger(" +:+ render_slot e +:+ ")"
  | CNotArray e => "!Array.isArray(" +:+ render_slot e +:+ ")"
  | CIsArray e => "Array.isArray(" +:+ render_slot e +:+ ")"
  | CIsNull e => render_slot e +:+ "===null"
  | CNotNullish e => render_slot e +:+ "!=null"
  | CNeLit e l => render_slot e +:+ "!==" +:+ json l
  | CLenNe e n => render_slot e +:+ ".length!==" +:+ Text.dec n
  | CIn k e => Text.json_string k +:+ " in " +:+ render_slot e
  | COr a b => render_cond a +:+ "||" +:+ render_cond b
  end.

Definition render_disc (d : disc) : string :=
  match d with
  | DTypeof e => "typeof " +:+ render_slot e
  | DSlot e => render_slot e
  end.

Definition render_label (l : clabel) : string :=
  match l with
  | LTag t => quote t
  | LLit l => json l
  end.

Definition callv (idx : nat) (arg : string) : string :=
  "v[" +:+ Text.dec idx +:+ "](" +:+ arg +:+ ")".

Fixpoint render (s : stmt) : string :=
  match s with
  | SSeq ss => Text.join ";" (map render ss)
  | SThrow m => "throw new Error(" +:+ render_sexpr m +:+ ")"
  | SIfS c s => "if(" +:+ render_cond c +:+ ")" +:+ render s
  | SIf c s => "if(" +:+ render_cond c +:+ "){" +:+ render s +:+ "}"
  | SIfElse c s1 s2 =>
      "if(" +:+ render_cond c +:+ "){" +:+ render s1 +:+ "}else{" +:+ render s2 +:+ "}"
  | SSetUndef e => render_slot e +:+ "=undefined"
  | SCallSet e idx => render_slot e +:+ "=" +:+ callv idx (render_slot e)
  | SIfNotCall idx e s => "if(!" +:+ callv idx (render_slot e) +:+ ")" +:+ render s
  | SFor v e body =>
      "for(let " +:+ v +:+ "=0;" +:+ v +:+ "<" +:+ render_slot e +:+ ".length;"
        +:+ v +:+ "++){" +:+ render body +:+ "}"
  | SForIn v e body =>
      "for(const " +:+ v +:+ " in " +:+ render_slot e +:+ "){" +:+ render body +:+ "}"
  | SSwitchOneOf e values dflt =>
      "switch(" +:+ render_slot e +:+ "){"
        +:+ Text.join "" (map (fun v => "case " +:+ json v +:+ ":") values)
        +:+ "break;default:" +:+ render dflt +:+ "}"
  | SSwitch d cases dflt =>
      "switch(" +:+ render_disc d +:+ "){"
        +:+ Text.join ";"
              (map (fun c => "case " +:+ render_label c.1 +:+ ":" +:+ render c.2) cases)
        +:+ ";default:" +:+ render dflt +:+ "}"
  | SBreak None => "break"
  | SBreak (Some l) => "break " +:+ l
  | SVarSnap snap idx e => "var err," +:+ snap +:+ "=" +:+ callv idx (render_slot e)
  | SSetClone e idx snap => render_slot e +:+ "=" +:+ callv idx snap
  | SDoWhile0 label body => label +:+ ":do{" +:+ render body +:+ "}while(0)"
  | STry body => "try{" +:+ render body +:+ "}catch(_e){err=_e}"
  | SThrowErr => "throw err??new Error('union failed')"
  end.

(** *** What [new Function] accepts

    A [switch] body starts with a clause; the templates put a statement
    there when the list of cases is empty ([oneOf()], [union()]), and
    the text does not parse. *)
Fixpoint syntax_ok (s : stmt) : bool :=
  match s with
  | SSeq ss => forallb syntax_ok ss
  | SIfS _ s | SIf _ s | SIfNotCall _ _ s => syntax_ok s
  | SIfElse _ s1 s2 => syntax_ok s1 && syntax_ok s2
  | SFor _ _ body | SForIn _ _ body | SDoWhile0 _ body | STry body => syntax_ok body
  | SSwitchOneOf _ values dflt =>
      negb (bool_decide (values = [])) && syntax_ok dflt
  | SSwitch _ cases dflt =>
      match cases with [] => false | _ => true end
      && forallb (fun c => syntax_ok c.2) cases && syntax_ok dflt
  | _ => true
  end.

(** *** Function values

    What [build] returns: the function made by [new Function] from a
    body and its context array [v], or a trampoline for a descriptor that
    is still being built.  [fid] is the identity of the function object.
    An entry of the context array is a sub-validator, a user function, or
    [structuredClone]. *)
Inductive fnval :=
| Closure (fid : nat) (body : stmt) (ctx : list ctxval)
| Trampoline (fid : nat) (d : nat)
with ctxval :=
| CFn (f : fnval)
| CUser (f : ufun)
| CClone.

Definition fid_of (f : fnval) : nat :=
  match f with Closure i _ _ => i | Trampoline i _ => i end.

End Code.

(** ** Descriptors *)

Module Desc.
Import JS Code.

Inductive prim := PString | PBoolean | PNumber | PInteger | PBigint.

(** A schema descriptor.  [id] stands for the identity of the descriptor
    object: [_cache] (a [WeakMap]) and [_building] (a [WeakSet]) are
    keyed by it, and two descriptors built by two calls of a combinator
    have two identities whatever their fields.  The shape of an [object]
    lists its fields in the order of [Object.keys].  A [lazy] descriptor
    names its thunk; the thunks are given apart ([thunks] below), which
    is how a descriptor refers to itself. *)
Inductive Schema :=
| DPrim (id : nat) (tag : prim)
| DLiteral (id : nat) (value : constant)
| DOneOf (id : nat) (values : list constant)
| DMaybe (id : nat) (inner : Schema)
| DArray (id : nat) (item : Schema)
| DObject (id : nat) (shape : list (string * Schema))
| DTuple (id : nat) (items : list Schema)
| DRecord (id : nat) (value : Schema)
| DUnion (id : nat) (variants : list Schema)
| DTransform (id : nat) (inner : Schema) (fn : ufun)
| DRefine (id : nat) (inner : Schema) (fn : ufun) (message : option string)
| DPreprocess (id : nat) (inner : Schema) (fn : ufun)
| DLazy (id : nat) (thunk : nat).

Definition sid (d : Schema) : nat :=
  match d with
  | DPrim id _ | DLiteral id _ | DOneOf id _ | DMaybe id _ | DArray id _
  | DObject id _ | DTuple id _ | DRecord id _ | DUnion id _
  | DTransform id _ _ | DRefine id _ _ _ | DPreprocess id _ _ | DLazy id _ => id
  end.

Definition prim_tag (t : prim) : string :=
  match t with
  | PString => "string"
  | PBoolean => "boolean"
  | PNumber => "number"
  | PInteger => "integer"
  | PBigint => "bigint"
  end.

Definition _tag (d : Schema) : string :=
  match d with
  | DPrim _ t => prim_tag t
  | DLiteral _ _ => "literal"
  | DOneOf _ _ => "oneOf"
  | DMaybe _ _ => "maybe"
  | DArray _ _ => "array"
  | DObject _ _ => "object"
  | DTuple _ _ => "tuple"
  | DRecord _ _ => "record"
  | DUnion _ _ => "union"
  | DTransform _ _ _ => "transform"
  | DRefine _ _ _ _ => "refine"
  | DPreprocess _ _ _ => "preprocess"
  | DLazy _ _ => "lazy"
  end.

Definition TYPEOF_TAGS (tag : string) : option string :=
  if String.eqb tag "string" then Some "string"
  else if String.eqb tag "boolean" then Some "boolean"
  else if String.eqb tag "number" then Some "number"
  else if String.eqb tag "integer" then Some "number"
  else if String.eqb tag "bigint" then Some "bigint"
  else None.

(** The primitive descriptors are module constants: one object each. *)
Definition string_ : Schema := DPrim 0 PString.
Definition boolean : Schema := DPrim 1 PBoolean.
Definition number : Schema := DPrim 2 PNumber.
Definition integer : Schema := DPrim 3 PInteger.
Definition bigint : Schema := DPrim 4 PBigint.

(** [d.shape] of an [object] descriptor. *)
Definition shape_of (d : Schema) : list (string * Schema) :=
  match d with DObject _ shape => shape | _ => [] end.

End Desc.

(** ** The emitter *)

Module Emit.
Import JS Code Desc.

Inductive PathVal :=
| PS (s : string)
| PD (d : sexpr).

Definition nonempty (s : string) : bool := negb (String.eqb s "").

Definition throwCode (p : PathVal) (msg : string) : stmt :=
  let m := Text.esc msg in
  match p with
  | PS s =>
      let prefix := if nonempty s then s +:+ ": " else "" in
      SThrow (XStr (prefix +:+ m))
  | PD d => SThrow (XAdd d (XStr (": " +:+ m)))
  end.

Definition appendKey (p : PathVal) (key : string) : PathVal :=
  let k := Text.esc key in
  match p with
  | PS s => PS (if nonempty s then s +:+ "." +:+ k else k)
  | PD d => PD (XAdd d (XStr ("." +:+ k)))
  end.

Definition appendIndex (p : PathVal) (indexVar : string) : PathVal :=
  match p with
  | PS s =>
      PD (if nonempty s
          then XAdd (XAdd (XStr (Text.esc s +:+ "[")) (XVar indexVar)) (XStr "]")
          else XAdd (XAdd (XStr "[") (XVar indexVar)) (XStr "]"))
  | PD d => PD (XAdd (XAdd (XAdd d (XStr "[")) (XVar indexVar)) (XStr "]"))
  end.

Definition appendTupleIndex (p : PathVal) (idx : nat) : PathVal :=
  match p with
  | PS s => PS (s +:+ "[" +:+ Text.dec idx +:+ "]")
  | PD d => PD (XAdd d (XStr ("[" +:+ Text.dec idx +:+ "]")))
  end.

(** The module state: the validator cache, the set of descriptors being
    built, and the next fresh function identity. *)
Record world := World {
  _cache : gmap nat fnval;
  _building : gset nat;
  next_fid : nat
}.

Definition init_world : world := World ∅ ∅ 0.

(** What the code of compilation throws: the [SyntaxError] of
    [new Function]. *)
Inductive cerr := SyntaxError.

(** Result of a compile-time computation.  A throw keeps the module
    state it leaves behind.  [CFuel]: [emit] and [build] called each
    other deeper than the budget [fuel].  The budget stands for the
    depth the stack of the engine admits; past it the engine throws a
    [RangeError] while the [finally] blocks of the [build] calls under
    way run on an exhausted stack, and the model says nothing of the
    state that leaves: no property is stated of a [CFuel] result. *)
Inductive cres (A : Type) :=
| COk (a : A)
| CThrow (t : cerr) (w : world)
| CFuel.
Arguments COk {A} a.
Arguments CThrow {A} t w.
Arguments CFuel {A}.

(** The object test shared by [object], [record] and the discriminated
    union. *)
Definition not_object (e : slot) : cond :=
  COr (COr (CTypeofNe e "object") (CIsNull e)) (CIsArray e).

(** The [typeofMap] loop of the [union] case: [None] when a variant has
    no typeof tag or repeats one ([canDiscriminate = false]). *)
Fixpoint typeof_map (variants : list Schema) (m : list (string * Schema))
  : option (list (string * Schema)) :=
  match variants with
  | [] => Some m
  | variant :: rest =>
      match TYPEOF_TAGS (_tag variant) with
      | None => None
      | Some tag =>
          if bool_decide (is_Some (assoc tag m)) then None
          else typeof_map rest (m ++ [(tag, variant)])
      end
  end.

Definition typeof_case (e : slot) (p : PathVal) (tv : string * Schema)
  : clabel * stmt :=
  let body :=
    if String.eqb (_tag tv.2) "number"
    then SIfS (CNotFinite e) (throwCode p "expected finite number")
    else if String.eqb (_tag tv.2) "integer"
    then SIfS (CNotInteger e) (throwCode p "expected integer")
    else SSeq [] in
  (LTag tv.1, SSeq [body; SBreak None]).

(** The [discMap] loop for one candidate key: [None] when a variant
    lacks the field, the field is not a [literal], or a value repeats. *)
Fixpoint disc_map (key : string) (variants : list Schema)
    (m : list (constant * Schema)) : option (list (constant * Schema)) :=
  match variants with
  | [] => Some m
  | variant :: rest =>
      match assoc key (shape_of variant) with
      | Some (DLiteral _ val) =>
          if existsb (fun lv => same_value_zero lv.1 val) m then None
          else disc_map key rest (m ++ [(val, variant)])
      | _ => None
      end
  end.

(** The first key of the first shape that discriminates all variants. *)
Fixpoint find_disc (keys : list string) (variants : list Schema)
  : option (string * list (constant * Schema)) :=
  match keys with
  | [] => None
  | key :: rest =>
      match disc_map key variants [] with
      | Some m =>
          if Nat.eqb (length m) (length variants) then Some (key, m)
          else find_disc rest variants
      | None => find_disc rest variants
      end
  end.

Definition is_object (d : Schema) : bool := String.eqb (_tag d) "object".
Definition is_maybe (d : Schema) : bool := String.eqb (_tag d) "maybe".

(** The discriminated-object test of the [union] case: every variant is
    an [object] and a key of the first shape discriminates them. *)
Definition find_disc_of (variants : list Schema)
  : option (string * list (constant * Schema)) :=
  if forallb is_object variants
  then
    match variants with
    | first :: _ => find_disc (map fst (shape_of first)) variants
    | [] => None
    end
  else None.

Definition cbind {A B} (r : cres A) (k : A -> cres B) : cres B :=
  match r with
  | COk a => k a
  | CThrow t w => CThrow t w
  | CFuel => CFuel
  end.

Notation "'let*' p := r 'in' k" := (cbind r (fun p => k))
  (at level 10, p pattern, r at level 100, k at level 200, only parsing).

Definition emit_res := cres (stmt * list ctxval * nat * world).
Definition emitter :=
  Schema -> slot -> list ctxval -> nat -> PathVal -> world -> emit_res.
Definition builder := Schema -> world -> cres (fnval * world).

(** The loop over the keys of a shape ([object] and the branches of the
    discriminated union): each field is emitted against [e["key"]],
    guarded by ["key" in e] when its descriptor is a [maybe]; [skip] is
    the discriminant key the discriminated union leaves out. *)
Fixpoint emit_fields (emit' : emitter) (e : slot) (p : PathVal)
    (skip : option string) (shape : list (string * Schema))
    (ctx : list ctxval) (c : nat) (w : world)
  : cres (list stmt * list ctxval * nat * world) :=
  match shape with
  | [] => COk ([], ctx, c, w)
  | (key, fd) :: rest =>
      if bool_decide (skip = Some key) then emit_fields emit' e p skip rest ctx c w
      else
        let acc := e ++ [AKey key] in
        let kp := appendKey p key in
        let* (s, ctx1, c1, w1) := emit' fd acc ctx c kp w in
        let part := if is_maybe fd then SIf (CIn key e) s else s in
        let* (parts, ctx2, c2, w2) := emit_fields emit' e p skip rest ctx1 c1 w1 in
        COk (part :: parts, ctx2, c2, w2)
  end.

(** The loop over the positions of a [tuple], from position [i]. *)
Fixpoint emit_items (emit' : emitter) (e : slot) (p : PathVal) (i : nat)
    (items : list Schema) (ctx : list ctxval) (c : nat) (w : world)
  : cres (list stmt * list ctxval * nat * world) :=
  match items with
  | [] => COk ([], ctx, c, w)
  | item :: rest =>
      let* (s, ctx1, c1, w1) :=
        emit' item (e ++ [AIdx i]) ctx c (appendTupleIndex p i) w in
      let* (parts, ctx2, c2, w2) := emit_items emit' e p (S i) rest ctx1 c1 w1 in
      COk (s :: parts, ctx2, c2, w2)
  end.

(** The loop over [discMap]: one [case] per variant, with the fields of
    the variant other than the discriminant. *)
Fixpoint emit_cases (emit' : emitter) (e : slot) (p : PathVal) (key : string)
    (m : list (constant * Schema)) (ctx : list ctxval) (c : nat) (w : world)
  : cres (list (clabel * stmt) * list ctxval * nat * world) :=
  match m with
  | [] => COk ([], ctx, c, w)
  | (val, variant) :: rest =>
      let* (parts, ctx1, c1, w1) :=
        emit_fields emit' e p (Some key) (shape_of variant) ctx c w in
      let* (cases, ctx2, c2, w2) := emit_cases emit' e p key rest ctx1 c1 w1 in
      COk ((LLit (stringify val), SSeq [SSeq parts; SBreak None]) :: cases,
           ctx2, c2, w2)
  end.

(** The loop of the fallback union that builds each variant and pushes
    it on the context array; it returns the indices ([fns]). *)
Fixpoint build_variants (build' : builder) (variants : list Schema)
    (ctx : list ctxval) (w : world) : cres (list nat * list ctxval * world) :=
  match variants with
  | [] => COk ([], ctx, w)
  | variant :: rest =>
      let idx := length ctx in
      let* (f, w1) := build' variant w in
      let* (fns, ctx2, w2) := build_variants build' rest (ctx ++ [CFn f]) w1 in
      COk (idx :: fns, ctx2, w2)
  end.

(** One attempt of the fallback union. *)
Definition try_variant (e : slot) (cloneIdx : nat) (snap label : string)
    (i : nat) : stmt :=
  SSeq [SSetClone e cloneIdx snap;
        STry (SSeq [SCallSet e i; SBreak (Some label)])].

(** The code of the fallback union. *)
Definition fallback_code (e : slot) (cloneIdx : nat) (snap label : string)
    (fns : list nat) : stmt :=
  SSeq [SVarSnap snap cloneIdx e;
        SDoWhile0 label
          (SSeq [SSeq (map (try_variant e cloneIdx snap label) fns); SThrowErr])].

Section Compiler.

(** The thunks of the [lazy] descriptors: [thunks i] is what thunk [i]
    returns, the same descriptor at every call. *)
Variable thunks : nat -> Schema.

(** [emit] and [build].  Both are recursive through each other and
    through [lazy].  [fuel] is the depth of recursion the stack of the
    engine admits: a call that would go deeper ends in [CFuel], the
    engine's [RangeError]. *)
Fixpoint emit (fuel : nat) (d : Schema) (e : slot) (ctx : list ctxval)
    (c : nat) (p : PathVal) (w : world) {struct fuel} : emit_res :=
  match fuel with
  | O => CFuel
  | S fuel' =>
      match d with
      | DPrim _ PString =>
          COk (SIfS (CTypeofNe e "string") (throwCode p "expected string"), ctx, c, w)
      | DPrim _ PBoolean =>
          COk (SIfS (CTypeofNe e "boolean") (throwCode p "expected boolean"), ctx, c, w)
      | DPrim _ PNumber =>
          COk (SIfS (COr (CTypeofNe e "number") (CNotFinite e))
                 (throwCode p "expected finite number"), ctx, c, w)
      | DPrim _ PInteger =>
          COk (SIfS (COr (CTypeofNe e "number") (CNotInteger e))
                 (throwCode p "expected integer"), ctx, c, w)
      | DPrim _ PBigint =>
          COk (SIfS (CTypeofNe e "bigint") (throwCode p "expected bigint"), ctx, c, w)
      | DLiteral _ value =>
          let enc := stringify value in
          let msg := match value with JNull => "null" | _ => text_of value end in
          COk (SIfS (CNeLit e enc) (throwCode p ("expected " +:+ msg)), ctx, c, w)
      | DOneOf _ values =>
          let msg := Text.join ", " (map join_text values) in
          COk (SSwitchOneOf e (map stringify values)
                 (throwCode p ("expected one of: " +:+ msg)), ctx, c, w)
      | DMaybe _ inner =>
          let* (s, ctx1, c1, w1) := emit fuel' inner e ctx c p w in
          COk (if nonempty (render s)
               then SIfElse (CNotNullish e) s (SSetUndef e)
               else SIf (CIsNull e) (SSetUndef e), ctx1, c1, w1)
      | DArray _ item =>
          let v := "i" +:+ Text.dec c in
          let* (inner, ctx1, c1, w1) :=
            emit fuel' item (e ++ [AVar v]) ctx (S c) (appendIndex p v) w in
          COk (SSeq [SIfS (CNotArray e) (throwCode p "expected array");
                     SFor v e inner], ctx1, c1, w1)
      | DObject _ shape =>
          let* (parts, ctx1, c1, w1) :=
            emit_fields (emit fuel') e p None shape ctx c w in
          COk (SSeq (SIfS (not_object e) (throwCode p "expected object") :: parts),
               ctx1, c1, w1)
      | DTuple _ items =>
          let len := length items in
          let* (parts, ctx1, c1, w1) :=
            emit_items (emit fuel') e p 0 items ctx c w in
          COk (SSeq (SIfS (COr (CNotArray e) (CLenNe e len))
                       (throwCode p ("expected tuple of length " +:+ Text.dec len))
                     :: parts), ctx1, c1, w1)
      | DRecord _ value =>
          let v := "k" +:+ Text.dec c in
          let* (inner, ctx1, c1, w1) :=
            emit fuel' value (e ++ [AVar v]) ctx (S c) (appendIndex p v) w in
          COk (SSeq [SIfS (not_object e) (throwCode p "expected object");
                     SForIn v e inner], ctx1, c1, w1)
      | DUnion _ variants =>
          match typeof_map variants [] with
          | Some typeofMap =>
              COk (SSwitch (DTypeof e) (map (typeof_case e p) typeofMap)
                     (throwCode p "union failed"), ctx, c, w)
          | None =>
              match find_disc_of variants with
              | Some (key, discMap) =>
                  let* (cases, ctx1, c1, w1) :=
                    emit_cases (emit fuel') e p key discMap ctx c w in
                  COk (SSeq [SIfS (not_object e) (throwCode p "expected object");
                             SSwitch (DSlot (e ++ [AKey key])) cases
                               (throwCode p "union failed")], ctx1, c1, w1)
              | None =>
                  let* (fns, ctx1, w1) := build_variants (build fuel') variants ctx w in
                  let label := "_u" +:+ Text.dec c in
                  let snap := "_s" +:+ Text.dec (S c) in
                  let cloneIdx := length ctx1 in
                  COk (fallback_code e cloneIdx snap label fns,
                       ctx1 ++ [CClone], S (S c), w1)
              end
          end
      | DTransform _ inner fn =>
          let* (s, ctx1, c1, w1) := emit fuel' inner e ctx c p w in
          let idx := length ctx1 in
          COk (SSeq [s; SCallSet e idx], ctx1 ++ [CUser fn], c1, w1)
      | DLazy _ thunk =>
          let resolved := thunks thunk in
          let idx := length ctx in
          let* (f, w1) := build fuel' resolved w in
          COk (SCallSet e idx, ctx ++ [CFn f], c, w1)
      | DRefine _ inner fn message =>
          let* (s, ctx1, c1, w1) := emit fuel' inner e ctx c p w in
          let idx := length ctx1 in
          let msg := default "refinement failed" message in
          COk (SSeq [s; SIfNotCall idx e (throwCode p msg)],
               ctx1 ++ [CUser fn], c1, w1)
      | DPreprocess _ inner fn =>
          let idx := length ctx in
          let* (s, ctx1, c1, w1) := emit fuel' inner e (ctx ++ [CUser fn]) c p w in
          COk (SSeq [SCallSet e idx; s], ctx1, c1, w1)
      end
  end

with build (fuel : nat) (d : Schema) (w : world) {struct fuel}
  : cres (fnval * world) :=
  match fuel with
  | O => CFuel
  | S fuel' =>
      if bool_decide (sid d ∈ _building w) then
        COk (Trampoline (next_fid w) (sid d),
             World (_cache w) (_building w) (S (next_fid w)))
      else
        let w0 := World (_cache w) ({[sid d]} ∪ _building w) (next_fid w) in
        match emit fuel' d [] [] 0 (PS "") w0 with
        | COk (body, ctx, _, w1) =>
            let done := _building w1 ∖ {[sid d]} in
            if syntax_ok body then
              COk (Closure (next_fid w1) body ctx,
                   World (_cache w1) done (S (next_fid w1)))
            else CThrow SyntaxError (World (_cache w1) done (next_fid w1))
        | CThrow t w1 =>
            CThrow t (World (_cache w1) (_building w1 ∖ {[sid d]}) (next_fid w1))
        | CFuel => CFuel
        end
  end.

(** [compile]: the cached validator, or a newly built one put in the
    cache. *)
Definition compile (fuel : nat) (desc : Schema) (w : world)
  : cres (fnval * world) :=
  match _cache w !! sid desc with
  | Some fn => COk (fn, w)
  | None =>
      match build fuel desc w with
      | COk (fn, w1) =>
          COk (fn, World (<[sid desc := fn]> (_cache w1)) (_building w1) (next_fid w1))
      | r => r
      end
  end.

End Compiler.

End Emit.

(** ** Running the emitted code *)

Module Run.
Import JS Code.

(** The variables of one activation of an emitted function: [input],
    the function-scoped [err], the loop variables in scope, and the
    snapshots [_sN]. *)
Record frame := Frame {
  input : val;
  err : option thrown;
  lvars : list (string * key);
  snaps : list (string * val)
}.

(** The store: the objects, and for each trampoline (by its identity)
    the function its variable [compiled] holds once the lookup
    succeeded. *)
Record store := Store {
  hp : heap;
  memo : gmap nat fnval
}.

Inductive outcome :=
| Normal (fr : frame) (st : store)
| Break (label : option string) (fr : frame) (st : store)
| Throw (t : thrown) (fr : frame) (st : store)
| Abort (a : abort).

(** Result of a call. *)
Inductive callres :=
| Ret (v : val) (st : store)
| Thrown (t : thrown) (st : store)
| Aborted (a : abort).

Definition set_input (fr : frame) (v : val) : frame :=
  Frame v (err fr) (lvars fr) (snaps fr).
Definition set_err (fr : frame) (t : thrown) : frame :=
  Frame (input fr) (Some t) (lvars fr) (snaps fr).
Definition set_lvars (fr : frame) (vs : list (string * key)) : frame :=
  Frame (input fr) (err fr) vs (snaps fr).
Definition bind_snap (fr : frame) (x : string) (v : val) : frame :=
  Frame (input fr) (err fr) (lvars fr) ((x, v) :: snaps fr).
Definition set_hp (st : store) (h : heap) : store := Store h (memo st).

Definition acc_key (fr : frame) (a : acc) : option key :=
  match a with
  | AVar v => assoc v (lvars fr)
  | AKey k => Some (KStr k)
  | AIdx i => Some (KIdx i)
  end.

Fixpoint eval_from (fr : frame) (h : heap) (v : val) (e : slot) : res val :=
  match e with
  | [] => Ok v
  | a :: rest =>
      match acc_key fr a with
      | None => Stop Unmodelled
      | Some k =>
          match get_prop h v k with
          | Ok v' => eval_from fr h v' rest
          | r => r
          end
      end
  end.

(** The value of a slot. *)
Definition eval_slot (fr : frame) (h : heap) (e : slot) : res val :=
  eval_from fr h (input fr) e.

(** Where an assignment to a slot writes: the variable [input], or a
    property of the object its prefix evaluates to. *)
Inductive target :=
| TInput
| TProp (base : val) (k : key).

Definition resolve (fr : frame) (h : heap) (e : slot) : res target :=
  match last e with
  | None => Ok TInput
  | Some a =>
      match eval_slot fr h (removelast e) with
      | Ok base =>
          match acc_key fr a with
          | Some k => Ok (TProp base k)
          | None => Stop Unmodelled
          end
      | Raise t => Raise t
      | Stop a => Stop a
      end
  end.

Definition put (fr : frame) (st : store) (tg : target) (v : val)
  : res (frame * store) :=
  match tg with
  | TInput => Ok (set_input fr v, st)
  | TProp base k =>
      match set_prop (hp st) base k v with
      | Ok h' => Ok (fr, set_hp st h')
      | Raise t => Raise t
      | Stop a => Stop a
      end
  end.

Definition lift (fr : frame) (st : store) (r : res (frame * store)) : outcome :=
  match r with
  | Ok (fr', st') => Normal fr' st'
  | Raise t => Throw t fr st
  | Stop a => Abort a
  end.

Fixpoint eval_sexpr (fr : frame) (x : sexpr) : option string :=
  match x with
  | XStr raw => Text.unescape raw
  | XVar v => key_str <$> assoc v (lvars fr)
  | XAdd a b =>
      match eval_sexpr fr a, eval_sexpr fr b with
      | Some s, Some t => Some (s +:+ t)
      | _, _ => None
      end
  end.

Definition on_slot (fr : frame) (h : heap) (e : slot) (f : val -> bool) : res bool :=
  match eval_slot fr h e with
  | Ok v => Ok (f v)
  | Raise t => Raise t
  | Stop a => Stop a
  end.

Fixpoint eval_cond (fr : frame) (h : heap) (c : cond) : res bool :=
  match c with
  | CTypeofNe e t => on_slot fr h e (fun v => negb (String.eqb (typeof v) t))
  | CNotFinite e => on_slot fr h e (fun v => negb (isFinite v))
  | CNotInteger e => on_slot fr h e (fun v => negb (isInteger v))
  | CNotArray e => on_slot fr h e (fun v => negb (isArray h v))
  | CIsArray e => on_slot fr h e (isArray h)
  | CIsNull e => on_slot fr h e (fun v => match v with VNull => true | _ => false end)
  | CNotNullish e => on_slot fr h e (fun v => negb (nullish v))
  | CNeLit e l => on_slot fr h e (fun v => negb (strict_eq v l))
  | CLenNe e n =>
      match eval_slot fr h e with
      | Ok v =>
          match get_prop h v (KStr "length") with
          | Ok len => Ok (negb (strict_eq len (LNum (Z.of_nat n))))
          | Raise t => Raise t
          | Stop a => Stop a
          end
      | Raise t => Raise t
      | Stop a => Stop a
      end
  | CIn k e =>
      match eval_slot fr h e with
      | Ok v => has_prop h v k
      | Raise t => Raise t
      | Stop a => Stop a
      end
  | COr a b =>
      match eval_cond fr h a with
      | Ok true => Ok true
      | Ok false => eval_cond fr h b
      | r => r
      end
  end.

(** [e.length] as the bound of the [for] loop: [None] when it is
    [undefined], which ends the loop. *)
Definition length_of (h : heap) (v : val) : res (option nat) :=
  match v with
  | VUndef | VNull => Raise TTypeError
  | VRef l =>
      match h !! l with
      | Some (OArr es) => Ok (Some (length es))
      | Some (OObj ps) =>
          match assoc "length" ps with
          | None => Ok None
          | Some _ => Stop Unmodelled
          end
      | None => Stop Unmodelled
      end
  | _ => Stop Unmodelled
  end.

(** The keys a [for ... in] enumerates, taken when the loop starts. *)
Definition keys_of (h : heap) (v : val) : res (list string) :=
  match v with
  | VRef l =>
      match h !! l with
      | Some (OObj ps) => Ok (map fst ps)
      | Some (OArr es) => Ok (map Text.dec (seq 0 (length es)))
      | None => Stop Unmodelled
      end
  | VStr _ => Stop Unmodelled
  | _ => Ok []
  end.

Definition label_matches (v : val) (l : clabel) : bool :=
  match l with
  | LTag t => strict_eq v (LStr t)
  | LLit l => strict_eq v l
  end.

(** The clauses a [switch] runs: from the first matching one on. *)
Fixpoint from_match (v : val) (cases : list (clabel * stmt)) : list stmt :=
  match cases with
  | [] => []
  | (l, s) :: rest =>
      if label_matches v l then s :: map snd rest else from_match v rest
  end.

Definition err_nullish (e : option thrown) : bool :=
  match e with
  | None => true
  | Some (TVal v) => nullish v
  | Some _ => false
  end.

Definition init_frame (arg : val) : frame := Frame arg None [] [].

Definition executor := stmt -> frame -> store -> outcome.
Definition caller := option ctxval -> val -> store -> callres.

(** [s1;s2;...]: the statements in order, up to the first that does not
    complete normally. *)
Fixpoint run_seq (exec' : executor) (ss : list stmt) (fr : frame) (st : store)
  : outcome :=
  match ss with
  | [] => Normal fr st
  | s :: rest =>
      match exec' s fr st with
      | Normal fr' st' => run_seq exec' rest fr' st'
      | o => o
      end
  end.

(** The iterations of [for(const v in e){body}] over the keys [ks];
    [outer] are the loop variables in scope around the loop. *)
Fixpoint forin_each (exec' : executor) (v : string) (body : stmt)
    (outer : list (string * key)) (ks : list string) (fr : frame) (st : store)
  : outcome :=
  match ks with
  | [] => Normal fr st
  | k :: rest =>
      match exec' body (set_lvars fr ((v, KStr k) :: outer)) st with
      | Normal fr' st' =>
          forin_each exec' v body outer rest (set_lvars fr' outer) st'
      | Break None fr' st' => Normal (set_lvars fr' outer) st'
      | o => o
      end
  end.

(** [if(c)s1], [if(c){s1}], [if(c){s1}else{s2}]. *)
Definition branch (exec' : executor) (fr : frame) (st : store) (c : cond)
    (s1 s2 : option stmt) : outcome :=
  match eval_cond fr (hp st) c with
  | Ok b =>
      match (if b then s1 else s2) with
      | Some s => exec' s fr st
      | None => Normal fr st
      end
  | Raise t => Throw t fr st
  | Stop a => Abort a
  end.

(** [e = v[idx](arg)]: the reference [e] is evaluated, then the
    argument, then the call is made, then the result is written. *)
Definition call_set (call' : caller) (ctx : list ctxval) (fr : frame)
    (st : store) (e : slot) (idx : nat) (arg : res val) : outcome :=
  match resolve fr (hp st) e, arg with
  | Ok tg, Ok a =>
      match call' (ctx !! idx) a st with
      | Ret r st' => lift fr st' (put fr st' tg r)
      | Thrown t st' => Throw t fr st'
      | Aborted a => Abort a
      end
  | Raise t, _ | Ok _, Raise t => Throw t fr st
  | Stop a, _ | Ok _, Stop a => Abort a
  end.

(** The value a [switch] dispatches on. *)
Definition eval_disc (fr : frame) (h : heap) (d : disc) : res val :=
  match d with
  | DTypeof e =>
      match eval_slot fr h e with
      | Ok x => Ok (VStr (typeof x))
      | r => r
      end
  | DSlot e => eval_slot fr h e
  end.

(** An unlabelled [break] ends the enclosing [switch]. *)
Definition end_switch (o : outcome) : outcome :=
  match o with
  | Break None fr st => Normal fr st
  | o => o
  end.

Section Exec.

(** [_cache], as the trampolines read it. *)
Variable cache : gmap nat fnval.

Fixpoint exec (fuel : nat) (ctx : list ctxval) (s : stmt) (fr : frame)
    (st : store) {struct fuel} : outcome :=
  match fuel with
  | O => Abort OutOfFuel
  | S fuel' =>
      match s with
      | SSeq ss => run_seq (exec fuel' ctx) ss fr st
      | SThrow m =>
          match eval_sexpr fr m with
          | Some msg => Throw (TError msg) fr st
          | None => Abort Unmodelled
          end
      | SIfS c s1 => branch (exec fuel' ctx) fr st c (Some s1) None
      | SIf c s1 => branch (exec fuel' ctx) fr st c (Some s1) None
      | SIfElse c s1 s2 => branch (exec fuel' ctx) fr st c (Some s1) (Some s2)
      | SSetUndef e =>
          match resolve fr (hp st) e with
          | Ok tg => lift fr st (put fr st tg VUndef)
          | Raise t => Throw t fr st
          | Stop a => Abort a
          end
      | SCallSet e idx =>
          call_set (call fuel') ctx fr st e idx (eval_slot fr (hp st) e)
      | SIfNotCall idx e s1 =>
          match eval_slot fr (hp st) e with
          | Ok a =>
              match call fuel' (ctx !! idx) a st with
              | Ret r st' =>
                  if truthy r then Normal fr st' else exec fuel' ctx s1 fr st'
              | Thrown t st' => Throw t fr st'
              | Aborted a => Abort a
              end
          | Raise t => Throw t fr st
          | Stop a => Abort a
          end
      | SFor v e body => loop_for fuel' ctx v e body 0 fr st
      | SForIn v e body =>
          match eval_slot fr (hp st) e with
          | Ok o =>
              match keys_of (hp st) o with
              | Ok ks => forin_each (exec fuel' ctx) v body (lvars fr) ks fr st
              | Raise t => Throw t fr st
              | Stop a => Abort a
              end
          | Raise t => Throw t fr st
          | Stop a => Abort a
          end
      | SSwitchOneOf e values dflt =>
          match eval_slot fr (hp st) e with
          | Ok x =>
              if existsb (strict_eq x) values then Normal fr st
              else end_switch (exec fuel' ctx dflt fr st)
          | Raise t => Throw t fr st
          | Stop a => Abort a
          end
      | SSwitch d cases dflt =>
          match eval_disc fr (hp st) d with
          | Ok x =>
              end_switch (run_seq (exec fuel' ctx) (from_match x cases ++ [dflt]) fr st)
          | Raise t => Throw t fr st
          | Stop a => Abort a
          end
      | SBreak label => Break label fr st
      | SVarSnap snap idx e =>
          match eval_slot fr (hp st) e with
          | Ok a =>
              match call fuel' (ctx !! idx) a st with
              | Ret r st' => Normal (bind_snap fr snap r) st'
              | Thrown t st' => Throw t fr st'
              | Aborted a => Abort a
              end
          | Raise t => Throw t fr st
          | Stop a => Abort a
          end
      | SSetClone e idx snap =>
          call_set (call fuel') ctx fr st e idx
            (match assoc snap (snaps fr) with
             | Some a => Ok a
             | None => Stop Unmodelled
             end)
      | SDoWhile0 label body =>
          match exec fuel' ctx body fr st with
          | Break None fr' st' => Normal fr' st'
          | Break (Some l) fr' st' =>
              if String.eqb l label then Normal fr' st' else Break (Some l) fr' st'
          | o => o
          end
      | STry body =>
          match exec fuel' ctx body fr st with
          | Throw t fr' st' => Normal (set_err fr' t) st'
          | o => o
          end
      | SThrowErr =>
          if err_nullish (err fr) then Throw (TError "union failed") fr st
          else match err fr with
               | Some t => Throw t fr st
               | None => Throw (TError "union failed") fr st
               end
      end
  end

(** [for(let v=0;v<e.length;v++){body}], from [v = i] on. *)
with loop_for (fuel : nat) (ctx : list ctxval) (v : string) (e : slot)
    (body : stmt) (i : nat) (fr : frame) (st : store) {struct fuel} : outcome :=
  match fuel with
  | O => Abort OutOfFuel
  | S fuel' =>
      match eval_slot fr (hp st) e with
      | Ok a =>
          match length_of (hp st) a with
          | Ok (Some len) =>
              if Nat.ltb i len then
                match exec fuel' ctx body (set_lvars fr ((v, KIdx i) :: lvars fr)) st with
                | Normal fr' st' =>
                    loop_for fuel' ctx v e body (S i) (set_lvars fr' (lvars fr)) st'
                | Break None fr' st' => Normal (set_lvars fr' (lvars fr)) st'
                | o => o
                end
              else Normal fr st
          | Ok None => Normal fr st
          | Raise t => Throw t fr st
          | Stop a => Abort a
          end
      | Raise t => Throw t fr st
      | Stop a => Abort a
      end
  end

(** [v[idx](arg)]. *)
with call (fuel : nat) (f : option ctxval) (arg : val) (st : store)
    {struct fuel} : callres :=
  match fuel with
  | O => Aborted OutOfFuel
  | S fuel' =>
      match f with
      | None => Thrown TTypeError st
      | Some (CUser g) =>
          match g (hp st) arg with
          | (h', UReturn r) => Ret r (set_hp st h')
          | (h', UThrow t) => Thrown t (set_hp st h')
          end
      | Some CClone =>
          match structuredClone (hp st) arg with
          | Some (r, h') => Ret r (set_hp st h')
          | None => Aborted Unmodelled
          end
      | Some (CFn (Closure _ body ctx)) =>
          (* function(input){body;return input} *)
          match exec fuel' ctx body (init_frame arg) st with
          | Normal fr' st' => Ret (input fr') st'
          | Throw t _ st' => Thrown t st'
          | Break _ _ _ => Aborted Unmodelled
          | Abort a => Aborted a
          end
      | Some (CFn (Trampoline fid d)) =>
          (* compiled ??= _cache.get(d) *)
          let compiled :=
            match memo st !! fid with
            | Some g => Some g
            | None => cache !! d
            end in
          match compiled with
          | None => Thrown (TError "recursive schema not yet compiled") st
          | Some g =>
              call fuel' (Some (CFn g)) arg (Store (hp st) (<[fid := g]> (memo st)))
          end
      end
  end.

(** Applying a validator. *)
Definition apply (fuel : nat) (f : fnval) (arg : val) (st : store) : callres :=
  call fuel (Some (CFn f)) arg st.

End Exec.

End Run.

(** ** The public entry points *)

Module Api.
Import JS Code Desc Emit Run.

(** [parse(desc, input) = compile(desc)(input)]: the call runs against
    the cache [compile] leaves. *)
Definition parse (thunks : nat -> Schema) (fuel : nat) (desc : Schema)
    (input : val) (w : world) (st : store) : cres (callres * world) :=
  match compile thunks fuel desc w with
  | COk (f, w') => COk (apply (_cache w') fuel f input st, w')
  | CThrow t w' => CThrow t w'
  | CFuel => CFuel
  end.

(** The verdict of a validation, without the stores. *)
Inductive verdict :=
| Accepted (v : val)
| Rejected (t : thrown)
| NoVerdict.

Definition verdict_of (r : cres (callres * world)) : verdict :=
  match r with
  | COk (Ret v _, _) => Accepted v
  | COk (Thrown t _, _) => Rejected t
  | _ => NoVerdict
  end.

(** The store a validation leaves. *)
Definition heap_after (r : cres (callres * world)) : option heap :=
  match r with
  | COk (Ret _ st, _) | COk (Thrown _ st, _) => Some (hp st)
  | _ => None
  end.

Definition empty_store (h : heap) : store := Store h ∅.

End Api.

(** ** The scenarios of the specification *)

Module Scenario.
Import JS Code Desc Emit Run Api.

(** Descriptors without [lazy]: no thunk is ever called. *)
Definition no_thunks : nat -> Schema := fun _ => string_.

(** [object({items: array(object({id: integer}))})] and
    [{items:[{id:1},{id:"bad"}]}]. *)
Definition items_schema : Schema :=
  DObject 10 [("items", DArray 11 (DObject 12 [("id", integer)]))].

Definition items_heap : heap :=
  [OObj [("items", VRef 1)];
   OArr [VRef 2; VRef 3];
   OObj [("id", VNum (int 1))];
   OObj [("id", VStr "bad")]].

(** A valid input of [items_schema]: [{items:[{id:1},{id:2}]}]. *)
Definition items_heap_ok : heap :=
  [OObj [("items", VRef 1)];
   OArr [VRef 2; VRef 3];
   OObj [("id", VNum (int 1))];
   OObj [("id", VNum (int 2))]].

(** [union(integer, string)]. *)
Definition int_or_string : Schema := DUnion 20 [integer; string_].

(** The fallback union of the test suite:
    [union(object({y: maybe(number), x: string}), object({x: number, z: string}))]
    and the input [{x: 42, z: "hello", y: null}]. *)
Definition v1 : Schema := DObject 30 [("y", DMaybe 31 number); ("x", string_)].
Definition v2 : Schema := DObject 32 [("x", number); ("z", string_)].
Definition fallback_schema : Schema := DUnion 33 [v1; v2].

Definition fallback_heap : heap :=
  [OObj [("x", VNum (int 42)); ("z", VStr "hello"); ("y", VNull)]].

(** The recursive shapes:
    [tree = object({value: number, children: array(lazy(() => tree))})],
    [list = object({head: integer, tail: maybe(lazy(() => list))})]. *)
Definition tree : Schema :=
  DObject 40 [("value", number); ("children", DArray 41 (DLazy 42 0))].
Definition list_ : Schema :=
  DObject 43 [("head", integer); ("tail", DMaybe 44 (DLazy 45 1))].

(** A schema that holds a tree in a field: [tree] is reached through
    [lazy] only. *)
Definition holder : Schema := DObject 50 [("t", DLazy 51 0)].

(** A self-referential schema with a second cycle inside:
    [node = object({next: maybe(lazy(() => node)), items: lazy(() => list)})]. *)
Definition node : Schema :=
  DObject 60 [("next", DMaybe 61 (DLazy 62 2)); ("items", DLazy 63 1)].

Definition thunks (i : nat) : Schema :=
  match i with
  | 0 => tree
  | 1 => list_
  | 2 => node
  | _ => string_
  end.

(** The tree of depth [n] as a chain: node [k] is object [2k], its
    [children] array is object [2k+1] and holds node [k+1]; the last
    node has no children. *)
Fixpoint tree_chain (k n : nat) : heap :=
  match n with
  | O => [OObj [("value", VNum (int (Z.of_nat k))); ("children", VRef (2 * k + 1))];
          OArr []]
  | S n' =>
      OObj [("value", VNum (int (Z.of_nat k))); ("children", VRef (2 * k + 1))]
        :: OArr [VRef (2 * k + 2)] :: tree_chain (S k) n'
  end.

(** The list of [n + 1] cells: cell [k] is object [k]; the last cell has
    [tail: null]. *)
Fixpoint list_chain (k n : nat) : heap :=
  match n with
  | O => [OObj [("head", VNum (int (Z.of_nat k))); ("tail", VNull)]]
  | S n' =>
      OObj [("head", VNum (int (Z.of_nat k))); ("tail", VRef (S k))]
        :: list_chain (S k) n'
  end.

(** The same list once validated: the last [tail] is [undefined]. *)
Fixpoint list_chain_done (k n : nat) : heap :=
  match n with
  | O => [OObj [("head", VNum (int (Z.of_nat k))); ("tail", VUndef)]]
  | S n' =>
      OObj [("head", VNum (int (Z.of_nat k))); ("tail", VRef (S k))]
        :: list_chain_done (S k) n'
  end.

(** Two arrays of strings, built by two calls of [array]. *)
Definition strings_a : Schema := DArray 90 string_.
Definition strings_b : Schema := DArray 91 string_.

(** [transform(string, s => s.length)]. *)
Definition str_length : ufun :=
  fun h v =>
    (h, UReturn (match v with
                 | VStr s => VNum (int (Z.of_nat (String.length s)))
                 | _ => VUndef
                 end)).
Definition length_schema : Schema := DTransform 70 string_ str_length.

(** [tuple(object({a: literal(null)}), object({a: maybe(number)}))] and
    the input [[o, o]] with [o = {a: null}]: one object in both
    positions. *)
Definition null_then_maybe : Schema :=
  DTuple 80 [DObject 81 [("a", DLiteral 82 JNull)];
             DObject 83 [("a", DMaybe 84 number)]].
Definition shared_heap : heap := [OArr [VRef 1; VRef 1]; OObj [("a", VNull)]].

(** [union(object({t: lazy(() => tree)}), object({t: object({value: number})}))]:
    a fallback union whose first variant reaches [tree] through [lazy], and
    the input [{t: {value: 1, children: [{value: 2, children: []}]}}]. *)
Definition holder_or_plain : Schema :=
  DUnion 52 [DObject 53 [("t", DLazy 54 0)];
             DObject 55 [("t", DObject 56 [("value", number)])]].
Definition nested_tree_heap : heap :=
  [OObj [("t", VRef 1)];
   OObj [("value", VNum (int 1)); ("children", VRef 2)];
   OArr [VRef 3];
   OObj [("value", VNum (int 2)); ("children", VRef 4)];
   OArr []].

(** [union(object({kind: literal("a")}), object({kind: literal("b")}))]
    and the input [{kind: "c"}]. *)
Definition kind_a : Schema := DObject 101 [("kind", DLiteral 102 (JStr "a"))].
Definition kind_b : Schema := DObject 103 [("kind", DLiteral 104 (JStr "b"))].
Definition by_kind : Schema := DUnion 100 [kind_a; kind_b].
Definition kind_c_heap : heap := [OObj [("kind", VStr "c")]].

(** The values of [oneOf("a", 2, NaN)]. *)
Definition a_or_nan : list constant := [JStr "a"; JInt 2 I; JNaN].

End Scenario.

(** ** Notions used in the statements *)

Module Notions.
Import JS Code Desc Emit Run Api.

(** [_cache] and [_building] of [w'] are those of [w]. *)
Definition same_tables (w w' : world) : Prop :=
  _cache w' = _cache w /\ _building w' = _building w.

Definition keeps_tables {A} (w : world) (r : cres A) (wof : A -> world) : Prop :=
  match r with
  | COk a => same_tables w (wof a)
  | CThrow _ w' => same_tables w w'
  | CFuel => True
  end.

Definition emitter_keeps (emit' : emitter) : Prop :=
  forall d e ctx c p w, keeps_tables w (emit' d e ctx c p w) (fun a => a.2).

Definition builder_keeps (build' : builder) : Prop :=
  forall d w, keeps_tables w (build' d w) (fun a => a.2).

(** A run of [compile] calls, one per descriptor of [ds]; a call that
    throws leaves the state [build] left. *)
Fixpoint compile_all (thunks : nat -> Schema) (fuel : nat) (ds : list Schema)
    (w : world) : option world :=
  match ds with
  | [] => Some w
  | d :: rest =>
      match compile thunks fuel d w with
      | COk (_, w') => compile_all thunks fuel rest w'
      | CThrow _ w' => compile_all thunks fuel rest w'
      | CFuel => None
      end
  end.

(** *** The fallback union, in the words of the specification

    Snapshot the candidate; for each variant in declaration order, run
    it on a fresh deep copy of the snapshot; the first variant that does
    not fail gives the result; if all fail, throw the error of the last
    attempt, or ["union failed"] when none was captured. *)
Inductive tried :=
| Won (r : val) (st : store)
| Lost (last : option thrown) (st : store)
| Gone (a : abort).

Fixpoint ordered_try (call' : caller) (fs : list fnval) (snapshot : val)
    (last : option thrown) (st : store) : tried :=
  match fs with
  | [] => Lost last st
  | f :: rest =>
      match structuredClone (hp st) snapshot with
      | None => Gone Unmodelled
      | Some (candidate, h1) =>
          match call' (Some (CFn f)) candidate (set_hp st h1) with
          | Ret r st' => Won r st'
          | Thrown t st' => ordered_try call' rest snapshot (Some t) st'
          | Aborted a => Gone a
          end
      end
  end.

Definition last_error (last : option thrown) : thrown :=
  match last with
  | Some t => if err_nullish last then TError "union failed" else t
  | None => TError "union failed"
  end.

Definition union_validator_spec (call' : caller) (fs : list fnval) (arg : val)
    (st : store) : callres :=
  match structuredClone (hp st) arg with
  | None => Aborted Unmodelled
  | Some (snapshot, h0) =>
      match ordered_try call' fs snapshot None (set_hp st h0) with
      | Won r st' => Ret r st'
      | Lost last st' => Thrown (last_error last) st'
      | Gone a => Aborted a
      end
  end.

(** [fs] are the validators [build] makes of the variants, in order. *)
Definition built_from (thunks : nat -> Schema) (variants : list Schema)
    (fs : list fnval) : Prop :=
  Forall2 (fun v g => exists k wa wb, build thunks k v wa = COk (g, wb))
    variants fs.

(** *** Code that writes, descriptors that do not

    [assigns s]: [s] contains an assignment to a value slot ([e=undefined],
    [e=v[i](e)], [e=v[i](snap)]), the snapshot of the fallback union, or
    its [catch], which assigns [err]. *)
Fixpoint assigns (s : stmt) : bool :=
  match s with
  | SSeq ss => existsb assigns ss
  | SIfS _ s | SIf _ s | SIfNotCall _ _ s => assigns s
  | SIfElse _ a b => assigns a || assigns b
  | SFor _ _ b | SForIn _ _ b | SDoWhile0 _ b => assigns b
  | SSwitchOneOf _ _ d => assigns d
  | SSwitch _ cases d => existsb (fun c => assigns c.2) cases || assigns d
  | SSetUndef _ | SCallSet _ _ | SSetClone _ _ _ | SVarSnap _ _ _ | STry _ => true
  | SThrow _ | SBreak _ | SThrowErr => false
  end.

(** A user function that leaves the store as it is. *)
Definition readonly (g : ufun) : Prop := forall h v, (g h v).1 = h.

(** The descriptors built from [string], [boolean], [number], [integer],
    [bigint], [literal], [oneOf], [array], [object], [tuple], [record],
    [refine] (with a predicate that does not write) and the unions that
    are emitted as a dispatch (typeof-discriminated or discriminated on
    a literal field): no [maybe], [transform], [preprocess], [lazy] or
    fallback union. *)
Inductive plain : Schema -> Prop :=
| plain_prim id t : plain (DPrim id t)
| plain_literal id value : plain (DLiteral id value)
| plain_oneOf id values : plain (DOneOf id values)
| plain_array id item : plain item -> plain (DArray id item)
| plain_object id shape :
    Forall (fun kv => plain kv.2) shape -> plain (DObject id shape)
| plain_tuple id items : Forall plain items -> plain (DTuple id items)
| plain_record id value : plain value -> plain (DRecord id value)
| plain_refine id inner fn message :
    plain inner -> readonly fn -> plain (DRefine id inner fn message)
| plain_union id variants :
    Forall plain variants ->
    (is_Some (typeof_map variants []) \/ is_Some (find_disc_of variants)) ->
    plain (DUnion id variants).

(** The five constructs left out of [plain]. *)
Definition rewriting (d : Schema) : Prop :=
  match d with
  | DMaybe _ _ | DTransform _ _ _ | DPreprocess _ _ _ | DLazy _ _ => True
  | DUnion _ variants =>
      typeof_map variants [] = None /\ find_disc_of variants = None
  | _ => False
  end.

(** A context array of predicates that do not write. *)
Definition ctx_readonly (ctx : list ctxval) : Prop :=
  Forall (fun c => exists g, c = CUser g /\ readonly g) ctx.

(** [input], [err] and the snapshots of [fr'] are those of [fr]. *)
Definition same_vars (fr fr' : frame) : Prop :=
  input fr' = input fr /\ err fr' = err fr /\ snaps fr' = snaps fr.

(** An outcome that left the store and the variables alone. *)
Definition pure_outcome (fr : frame) (st : store) (o : outcome) : Prop :=
  match o with
  | Normal fr' st' | Break _ fr' st' | Throw _ fr' st' => st' = st /\ same_vars fr fr'
  | Abort _ => True
  end.

(** An emitter that, for [d], emits no assignment and pushes only
    read-only predicates. *)
Definition emits_plain (emit' : emitter) (d : Schema) : Prop :=
  forall e ctx c p w s ctx' c' w',
    ctx_readonly ctx ->
    emit' d e ctx c p w = COk (s, ctx', c', w') ->
    assigns s = false /\ ctx_readonly ctx'.

(** [s] starts with the two characters [b], [c]. *)
Definition starts2 (b c : ascii) (s : string) : bool :=
  match s with
  | String y (String z _) => Ascii.eqb y b && Ascii.eqb z c
  | _ => false
  end.

(** The first four passes of [esc] (the one-character patterns), and
    the first five. *)
Definition esc4 (s : string) : string :=
  Text.replaceAll1 Text.CR (String Text.backslash "r")
    (Text.replaceAll1 Text.LF (String Text.backslash "n")
       (Text.replaceAll1 Text.squote (String Text.backslash (Text.str1 Text.squote))
          (Text.replaceAll1 Text.backslash
             (String Text.backslash (Text.str1 Text.backslash)) s))).

Definition esc5 (s : string) : string :=
  Text.replaceAll3 (Text.chr 226) (Text.chr 128) (Text.chr 168)
    (String Text.backslash "u2028") (esc4 s).

(** The characters the one-character passes replace. *)
Definition special (a : ascii) : bool :=
  Ascii.eqb a Text.backslash || Ascii.eqb a Text.squote
  || Ascii.eqb a Text.LF || Ascii.eqb a Text.CR.

(** [s] holds one of them. *)
Fixpoint has_special (s : string) : bool :=
  match s with
  | EmptyString => false
  | String x rest => special x || has_special rest
  end.

Fixpoint has_char (a : ascii) (s : string) : bool :=
  match s with
  | EmptyString => false
  | String x rest => Ascii.eqb x a || has_char a rest
  end.

(** [s] without its first two characters. *)
Definition drop2 (s : string) : string :=
  match s with
  | String _ (String _ rest) => rest
  | _ => EmptyString
  end.

(** Values that fail the object test of [object], [record] and the
    discriminated union: primitives, [null], [undefined] and arrays. *)
Definition not_an_object (h : heap) (v : val) : bool :=
  match v with
  | VRef l => match h !! l with Some (OArr _) => true | _ => false end
  | _ => true
  end.

(** Values that fail the tuple test for [n] positions: everything but
    an array of [n] elements. *)
Definition not_a_tuple (h : heap) (n : nat) (v : val) : bool :=
  match v with
  | VRef l =>
      match h !! l with
      | Some (OArr es) => negb (Nat.eqb (length es) n)
      | _ => true
      end
  | _ => true
  end.

(** What a primitive descriptor accepts. *)
Definition prim_accepts (t : prim) (v : val) : bool :=
  match t with
  | PString => String.eqb (typeof v) "string"
  | PBoolean => String.eqb (typeof v) "boolean"
  | PNumber => isFinite v
  | PInteger => isInteger v
  | PBigint => String.eqb (typeof v) "bigint"
  end.

Definition prim_message (t : prim) : string :=
  match t with
  | PString => "expected string"
  | PBoolean => "expected boolean"
  | PNumber => "expected finite number"
  | PInteger => "expected integer"
  | PBigint => "expected bigint"
  end.

(** The typeof kind of a variant, when it has one. *)
Definition kind_of (d : Schema) : option string := TYPEOF_TAGS (_tag d).

(** What a call of a user function gives its caller: the value it
    returns or what it throws, with the store it leaves. *)
Definition user_call (fn : ufun) (st : store) (arg : val) : callres :=
  match fn (hp st) arg with
  | (h', UReturn r) => Ret r (set_hp st h')
  | (h', UThrow t) => Thrown t (set_hp st h')
  end.

(** The position of the first element a check rejects, counted from
    [i]. *)
Fixpoint first_rejected (ok : val -> bool) (es : list val) (i : nat) : option nat :=
  match es with
  | [] => None
  | v :: rest => if ok v then first_rejected ok rest (S i) else Some i
  end.

(** What [typeof] gives for the values a primitive accepts. *)
Definition kind (t : prim) : string :=
  match t with
  | PString => "string"
  | PBoolean => "boolean"
  | PNumber | PInteger => "number"
  | PBigint => "bigint"
  end.

(** The first primitive variant of kind [k]. *)
Fixpoint variant_of_kind (k : string) (variants : list Schema) : option prim :=
  match variants with
  | [] => None
  | DPrim _ t :: rest =>
      if String.eqb k (kind t) then Some t else variant_of_kind k rest
  | _ :: rest => variant_of_kind k rest
  end.

(** The first field of a shape of primitives whose primitive rejects
    the value the object [ps] has under its key. *)
Fixpoint first_bad_field (ps : list (string * val)) (shape : list (string * Schema))
  : option (string * prim) :=
  match shape with
  | [] => None
  | (key, DPrim _ t) :: rest =>
      if prim_accepts t (default VUndef (assoc key ps)) then first_bad_field ps rest
      else Some (key, t)
  | _ :: rest => first_bad_field ps rest
  end.

(** The first position of a tuple of primitives whose primitive rejects
    the element at that position, counted from [i]. *)
Fixpoint first_bad_item (es : list val) (items : list Schema) (i : nat)
  : option (nat * prim) :=
  match items with
  | [] => None
  | DPrim _ t :: rest =>
      if prim_accepts t (default VUndef (es !! i)) then first_bad_item es rest (S i)
      else Some (i, t)
  | _ :: rest => first_bad_item es rest (S i)
  end.

(** The nesting depth of a descriptor. *)
Fixpoint depth (d : Schema) : nat :=
  match d with
  | DPrim _ _ | DLiteral _ _ | DOneOf _ _ | DLazy _ _ => 0
  | DMaybe _ i | DArray _ i | DRecord _ i
  | DTransform _ i _ | DRefine _ i _ _ | DPreprocess _ i _ => S (depth i)
  | DObject _ shape => S (list_max (map (fun kd => depth kd.2) shape))
  | DTuple _ items | DUnion _ items => S (list_max (map depth items))
  end.

(** Descriptors without [lazy] in which no [oneOf] and no [union] is
    empty. *)
Fixpoint well_formed (d : Schema) : bool :=
  match d with
  | DPrim _ _ | DLiteral _ _ => true
  | DOneOf _ values => negb (bool_decide (values = []))
  | DLazy _ _ => false
  | DMaybe _ i | DArray _ i | DRecord _ i
  | DTransform _ i _ | DRefine _ i _ _ | DPreprocess _ i _ => well_formed i
  | DObject _ shape => forallb (fun kd => well_formed kd.2) shape
  | DTuple _ items => forallb well_formed items
  | DUnion _ variants =>
      negb (bool_decide (variants = [])) && forallb well_formed variants
  end.

(** An emitter that returns code [new Function] accepts, and a builder
    that returns a function, for the descriptor [d]. *)
Definition emit_ok (emit' : emitter) (d : Schema) : Prop :=
  forall e ctx c p w,
    exists s ctx1 c1 w1, emit' d e ctx c p w = COk (s, ctx1, c1, w1) /\ syntax_ok s = true.

Definition build_ok (build' : builder) (d : Schema) : Prop :=
  forall w, exists f w1, build' d w = COk (f, w1).

(** *** A cycle head that is not compiled *)

(** The message of a trampoline that finds no compiled validator. *)
Definition not_yet : string := "recursive schema not yet compiled".

(** [s] contains a [try]: the attempt of a fallback union. *)
Fixpoint catches (s : stmt) : bool :=
  match s with
  | SSeq ss => existsb catches ss
  | SIfS _ s | SIf _ s | SIfNotCall _ _ s => catches s
  | SIfElse _ a b => catches a || catches b
  | SFor _ _ b | SForIn _ _ b | SDoWhile0 _ b => catches b
  | SSwitchOneOf _ _ d => catches d
  | SSwitch _ cases d => existsb (fun c => catches c.2) cases || catches d
  | STry _ => true
  | SThrow _ | SSetUndef _ | SCallSet _ _ | SBreak _ | SVarSnap _ _ _
  | SSetClone _ _ _ | SThrowErr => false
  end.

(** A function in which every trampoline, at any depth of its context
    arrays, is a trampoline for [d], and no code has a [try]: a
    validator with no fallback union whose only cycle head is [d]. *)
Fixpoint tame (d : nat) (f : fnval) : bool :=
  match f with
  | Trampoline _ d' => Nat.eqb d' d
  | Closure _ body ctx =>
      negb (catches body)
      && forallb (fun c => match c with CFn g => tame d g | _ => true end) ctx
  end.

Definition tame_entry (d : nat) (c : option ctxval) : bool :=
  match c with Some (CFn g) => tame d g | _ => true end.

(** No trampoline holds a compiled function yet. *)
Definition clean (o : outcome) : Prop :=
  match o with
  | Normal _ st | Break _ _ st | Throw _ _ st => memo st = ∅
  | Abort _ => True
  end.

Definition clean_call (r : callres) : Prop :=
  match r with
  | Ret _ st | Thrown _ st => memo st = ∅
  | Aborted _ => True
  end.

(** Two runs of the same code under two caches: they are the same run,
    or the first ended on the error of a trampoline that found nothing. *)
Definition same_or_stopped (o o' : outcome) : Prop :=
  (o = o' /\ clean o) \/ exists fr st, o = Throw (TError not_yet) fr st.

Definition same_or_stopped_call (r r' : callres) : Prop :=
  (r = r' /\ clean_call r) \/ exists st, r = Thrown (TError not_yet) st.

(** The typeof kind of a primitive variant, written out. *)
Definition variant_kind (d : Schema) : string :=
  match d with DPrim _ t => kind t | _ => "" end.

(** [s] is a [switch] on [typeof e]. *)
Definition typeof_dispatched (e : slot) (s : stmt) : Prop :=
  exists cases dflt, s = SSwitch (DTypeof e) cases dflt.

Definition is_prim (d : Schema) : Prop :=
  match d with DPrim _ _ => True | _ => False end.

Definition entry (d : Schema) : string * Schema :=
  (default "" (kind_of d), d).

End Notions.

(** * Properties *)

Import JS Code Desc Emit Run Api Notions.

Create HintDb tables.

(** ** Path-qualified messages *)

(** C4: the validator of [object({items: array(object({id: integer}))})]
    rejects [{items:[{id:1},{id:"bad"}]}] with the message
    ["items[1].id: expected integer"], and writes nothing. *)
Theorem items_path_message :
  let r := parse Scenario.no_thunks 30 Scenario.items_schema (VRef 0)
             init_world (empty_store Scenario.items_heap) in
  verdict_of r = Rejected (TError "items[1].id: expected integer")
  /\ heap_after r = Some Scenario.items_heap.
Proof. vm_compute. split; reflexivity. Qed.

(** ** Unions *)

(** C5: [union(integer, string)] is emitted as one [typeof] dispatch
    whose [number] branch runs the integer test; it accepts [42] and
    ["hello"] and rejects [1.5] with ["expected integer"]. *)
Theorem int_or_string_dispatch :
  let go x := verdict_of (parse Scenario.no_thunks 30 Scenario.int_or_string x
                            init_world (empty_store [])) in
  go (VNum (int 42)) = Accepted (VNum (int 42))
  /\ go (VStr "hello") = Accepted (VStr "hello")
  /\ go (VNum (Fin 3 2)) = Rejected (TError "expected integer")
  /\ (exists fid ctx w,
        compile Scenario.no_thunks 30 Scenario.int_or_string init_world
        = COk (Closure fid
                 (SSwitch (DTypeof [])
                    [(LTag "number",
                      SSeq [SIfS (CNotInteger []) (SThrow (XStr "expected integer"));
                            SBreak None]);
                     (LTag "string", SSeq [SSeq []; SBreak None])]
                    (SThrow (XStr "union failed"))) ctx, w)).
Proof.
  vm_compute. repeat split; try reflexivity.
  do 3 eexists. reflexivity.
Qed.

(** ** Unfolding equations *)

Lemma build_unfold thunks fuel d w :
  build thunks (S fuel) d w
  = if bool_decide (sid d ∈ _building w) then
      COk (Trampoline (next_fid w) (sid d),
           World (_cache w) (_building w) (S (next_fid w)))
    else
      match emit thunks fuel d [] [] 0 (PS "")
              (World (_cache w) ({[sid d]} ∪ _building w) (next_fid w)) with
      | COk (body, ctx, _, w1) =>
          if syntax_ok body then
            COk (Closure (next_fid w1) body ctx,
                 World (_cache w1) (_building w1 ∖ {[sid d]}) (S (next_fid w1)))
          else CThrow SyntaxError
                 (World (_cache w1) (_building w1 ∖ {[sid d]}) (next_fid w1))
      | CThrow t w1 =>
          CThrow t (World (_cache w1) (_building w1 ∖ {[sid d]}) (next_fid w1))
      | CFuel => CFuel
      end.
Proof. reflexivity. Qed.

Lemma emit_union_unfold thunks fuel id variants e ctx c p w :
  emit thunks (S fuel) (DUnion id variants) e ctx c p w
  = match typeof_map variants [] with
    | Some typeofMap =>
        COk (SSwitch (DTypeof e) (map (typeof_case e p) typeofMap)
               (throwCode p "union failed"), ctx, c, w)
    | None =>
        match find_disc_of variants with
        | Some (key, discMap) =>
            cbind (emit_cases (emit thunks fuel) e p key discMap ctx c w)
              (fun '(cases, ctx1, c1, w1) =>
                 COk (SSeq [SIfS (not_object e) (throwCode p "expected object");
                            SSwitch (DSlot (e ++ [AKey key])) cases
                              (throwCode p "union failed")], ctx1, c1, w1))
        | None =>
            cbind (build_variants (build thunks fuel) variants ctx w)
              (fun '(fns, ctx1, w1) =>
                 COk (fallback_code e (length ctx1) ("_s" +:+ Text.dec (S c))
                        ("_u" +:+ Text.dec c) fns,
                      ctx1 ++ [CClone], S (S c), w1))
        end
    end.
Proof. reflexivity. Qed.

(** ** The module state across [emit] and [build] *)

Lemma same_tables_refl w : same_tables w w.
Proof. by split. Qed.

Lemma same_tables_trans w1 w2 w3 :
  same_tables w1 w2 -> same_tables w2 w3 -> same_tables w1 w3.
Proof. intros [? ?] [? ?]; split; congruence. Qed.

#[local] Hint Resolve same_tables_refl same_tables_trans : tables.

Lemma emit_fields_keeps emit' e p skip shape ctx c w :
  emitter_keeps emit' ->
  keeps_tables w (emit_fields emit' e p skip shape ctx c w) (fun a => a.2).
Proof.
  intros He. revert ctx c w.
  induction shape as [|[key fd] rest IH]; intros ctx c w; simpl.
  - apply same_tables_refl.
  - case_bool_decide; [apply IH|].
    pose proof (He fd (e ++ [AKey key]) ctx c (appendKey p key) w) as H1.
    destruct (emit' fd _ ctx c _ w) as [[[[s ctx1] c1] w1]|t w'|]; simpl in *; auto.
    specialize (IH ctx1 c1 w1).
    destruct (emit_fields emit' e p skip rest ctx1 c1 w1)
      as [[[[parts ctx2] c2] w2]|t w'|]; simpl in *; eauto with tables.
Qed.

Lemma emit_items_keeps emit' e p i items ctx c w :
  emitter_keeps emit' ->
  keeps_tables w (emit_items emit' e p i items ctx c w) (fun a => a.2).
Proof.
  intros He. revert i ctx c w.
  induction items as [|item rest IH]; intros i ctx c w; simpl.
  - apply same_tables_refl.
  - pose proof (He item (e ++ [AIdx i]) ctx c (appendTupleIndex p i) w) as H1.
    destruct (emit' item _ ctx c _ w) as [[[[s ctx1] c1] w1]|t w'|]; simpl in *; auto.
    specialize (IH (S i) ctx1 c1 w1).
    destruct (emit_items emit' e p (S i) rest ctx1 c1 w1)
      as [[[[parts ctx2] c2] w2]|t w'|]; simpl in *; eauto with tables.
Qed.

Lemma emit_cases_keeps emit' e p key m ctx c w :
  emitter_keeps emit' ->
  keeps_tables w (emit_cases emit' e p key m ctx c w) (fun a => a.2).
Proof.
  intros He. revert ctx c w.
  induction m as [|[val variant] rest IH]; intros ctx c w; simpl.
  - apply same_tables_refl.
  - pose proof (emit_fields_keeps emit' e p (Some key) (shape_of variant) ctx c w He) as H1.
    destruct (emit_fields emit' e p (Some key) (shape_of variant) ctx c w)
      as [[[[parts ctx1] c1] w1]|t w'|]; simpl in *; auto.
    specialize (IH ctx1 c1 w1).
    destruct (emit_cases emit' e p key rest ctx1 c1 w1)
      as [[[[cases ctx2] c2] w2]|t w'|]; simpl in *; eauto with tables.
Qed.

Lemma build_variants_keeps build' variants ctx w :
  builder_keeps build' ->
  keeps_tables w (build_variants build' variants ctx w) (fun a => a.2).
Proof.
  intros Hb. revert ctx w.
  induction variants as [|variant rest IH]; intros ctx w; simpl.
  - apply same_tables_refl.
  - pose proof (Hb variant w) as H1.
    destruct (build' variant w) as [[f w1]|t w'|]; simpl in *; auto.
    specialize (IH (ctx ++ [CFn f]) w1).
    destruct (build_variants build' rest (ctx ++ [CFn f]) w1)
      as [[[fns ctx2] w2]|t w'|]; simpl in *; eauto with tables.
Qed.

(** [emit] and [build] leave [_cache] untouched and [_building] as they
    found it, whether they return or throw. *)
Lemma emit_build_keep thunks fuel :
  emitter_keeps (emit thunks fuel) /\ builder_keeps (build thunks fuel).
Proof.
  induction fuel as [|fuel [IHe IHb]]; [by split|].
  assert (Hsub : forall d e ctx c p w,
             keeps_tables w (emit thunks fuel d e ctx c p w) (fun a => a.2))
    by exact IHe.
  split.
  - intros d e ctx c p w. simpl.
    destruct d as [id [| | | |]|id value|id values|id inner|id item|id shape|id items
                  |id value|id variants|id inner fn|id inner fn message|id inner fn
                  |id thunk];
      simpl; try apply same_tables_refl.
    + pose proof (Hsub inner e ctx c p w) as H.
      destruct (emit thunks fuel inner e ctx c p w) as [[[[s ctx1] c1] w1]|t w'|]; simpl in *; auto.
    + pose proof (Hsub item (e ++ [AVar ("i" +:+ Text.dec c)]) ctx (S c)
                    (appendIndex p ("i" +:+ Text.dec c)) w) as H.
      destruct (emit thunks fuel item _ ctx (S c) _ w) as [[[[s ctx1] c1] w1]|t w'|];
        simpl in *; auto.
    + pose proof (emit_fields_keeps _ e p None shape ctx c w IHe) as H.
      destruct (emit_fields _ e p None shape ctx c w) as [[[[s ctx1] c1] w1]|t w'|];
        simpl in *; auto.
    + pose proof (emit_items_keeps _ e p 0 items ctx c w IHe) as H.
      destruct (emit_items _ e p 0 items ctx c w) as [[[[s ctx1] c1] w1]|t w'|];
        simpl in *; auto.
    + pose proof (Hsub value (e ++ [AVar ("k" +:+ Text.dec c)]) ctx (S c)
                    (appendIndex p ("k" +:+ Text.dec c)) w) as H.
      destruct (emit thunks fuel value _ ctx (S c) _ w) as [[[[s ctx1] c1] w1]|t w'|];
        simpl in *; auto.
    + destruct (typeof_map variants []); simpl; [apply same_tables_refl|].
      destruct (find_disc_of variants) as [[key discMap]|]; simpl.
      * pose proof (emit_cases_keeps _ e p key discMap ctx c w IHe) as H.
        destruct (emit_cases _ e p key discMap ctx c w) as [[[[s ctx1] c1] w1]|t w'|];
          simpl in *; auto.
      * pose proof (build_variants_keeps _ variants ctx w IHb) as H.
        destruct (build_variants _ variants ctx w) as [[[fns ctx1] w1]|t w'|];
          simpl in *; auto.
    + pose proof (Hsub inner e ctx c p w) as H.
      destruct (emit thunks fuel inner e ctx c p w) as [[[[s ctx1] c1] w1]|t w'|]; simpl in *; auto.
    + pose proof (Hsub inner e ctx c p w) as H.
      destruct (emit thunks fuel inner e ctx c p w) as [[[[s ctx1] c1] w1]|t w'|]; simpl in *; auto.
    + pose proof (Hsub inner e (ctx ++ [CUser fn]) c p w) as H.
      destruct (emit thunks fuel inner e _ c p w) as [[[[s ctx1] c1] w1]|t w'|]; simpl in *; auto.
    + pose proof (IHb (thunks thunk) w) as H.
      destruct (build thunks fuel (thunks thunk) w) as [[f w1]|t w'|]; simpl in *; auto.
  - intros d w. simpl.
    case_bool_decide as Hin; simpl; [by split|].
    pose proof (Hsub d [] [] 0 (PS "")
                  (World (_cache w) ({[sid d]} ∪ _building w) (next_fid w))) as H.
    destruct (emit thunks fuel d [] [] 0 (PS "") _) as [[[[body ctx1] c1] w1]|t w'|];
      simpl in *; auto.
    + destruct H as [Hc Hb]; simpl in *.
      destruct (syntax_ok body); simpl; (split; simpl; [done|rewrite Hb; clear -Hin; set_solver]).
    + destruct H as [Hc Hb]; simpl in *. split; simpl; [done|rewrite Hb; clear -Hin; set_solver].
Qed.

Lemma build_keeps thunks fuel d w f w' :
  build thunks fuel d w = COk (f, w') -> same_tables w w'.
Proof.
  intros H. pose proof (proj2 (emit_build_keep thunks fuel) d w) as K.
  by rewrite H in K.
Qed.

Lemma build_throw_keeps thunks fuel d w t w' :
  build thunks fuel d w = CThrow t w' -> same_tables w w'.
Proof.
  intros H. pose proof (proj2 (emit_build_keep thunks fuel) d w) as K.
  by rewrite H in K.
Qed.

(** ** The validator cache *)

(** What [compile] leaves in the cache: the entry of its descriptor is
    the function it returns, and every other entry is as before. *)
Lemma compile_cache thunks fuel d w f w' :
  compile thunks fuel d w = COk (f, w') ->
  _cache w' !! sid d = Some f
  /\ forall k, k <> sid d -> _cache w' !! k = _cache w !! k.
Proof.
  unfold compile. destruct (_cache w !! sid d) as [g|] eqn:Hg.
  - intros ?; simplify_eq. by split.
  - destruct (build thunks fuel d w) as [[g w1]|t w1|] eqn:Hb; [|done..].
    intros ?; simplify_eq; simpl.
    apply build_keeps in Hb as [Hc _].
    split; [by rewrite lookup_insert_eq|].
    intros k Hk. by rewrite lookup_insert_ne, Hc.
Qed.

Lemma compile_throw_cache thunks fuel d w t w' :
  compile thunks fuel d w = CThrow t w' -> _cache w' = _cache w.
Proof.
  unfold compile. destruct (_cache w !! sid d) as [g|] eqn:Hg; [done|].
  destruct (build thunks fuel d w) as [[g w1]|t1 w1|] eqn:Hb; [done| |done].
  intros ?; simplify_eq. by apply build_throw_keeps in Hb as [Hc _].
Qed.

Lemma compile_hit thunks fuel d w f :
  _cache w !! sid d = Some f -> compile thunks fuel d w = COk (f, w).
Proof. unfold compile. by intros ->. Qed.

(** An entry of the cache is never replaced. *)
Lemma compile_keeps_entry thunks fuel d w g w' k f :
  compile thunks fuel d w = COk (g, w') ->
  _cache w !! k = Some f -> _cache w' !! k = Some f.
Proof.
  intros Hc Hk. destruct (decide (k = sid d)) as [->|Hne].
  - rewrite (compile_hit thunks fuel d w f Hk) in Hc. by simplify_eq.
  - apply compile_cache in Hc as [_ Hc]. by rewrite Hc.
Qed.

Lemma compile_all_keeps_entry thunks fuel ds w w' k f :
  compile_all thunks fuel ds w = Some w' ->
  _cache w !! k = Some f -> _cache w' !! k = Some f.
Proof.
  revert w. induction ds as [|d rest IH]; intros w; simpl.
  - by intros ?; simplify_eq.
  - destruct (compile thunks fuel d w) as [[g w1]|t w1|] eqn:Hc; [| |done].
    + intros Hall Hk. apply (IH w1 Hall). eapply compile_keeps_entry; eauto.
    + intros Hall Hk. apply (IH w1 Hall). by rewrite (compile_throw_cache _ _ _ _ _ _ Hc).
Qed.

(** C7: once [compile(d)] has returned a validator, every later
    [compile(d)] returns that same function object and leaves the module
    state alone, whatever descriptors were compiled in between and
    whatever the fuel. *)
Theorem compile_cached thunks fuel d w f w1 :
  compile thunks fuel d w = COk (f, w1) ->
  forall fuel1 ds w2 fuel2,
    compile_all thunks fuel1 ds w1 = Some w2 ->
    compile thunks fuel2 d w2 = COk (f, w2).
Proof.
  intros Hc fuel1 ds w2 fuel2 Hall.
  apply compile_hit. eapply compile_all_keeps_entry; eauto.
  by apply compile_cache in Hc as [Hc _].
Qed.

Lemma compile_cached_witness :
  exists f w1 w2,
    compile Scenario.thunks 20 Scenario.tree init_world = COk (f, w1)
    /\ compile_all Scenario.thunks 20 [Scenario.list_; Scenario.holder] w1 = Some w2
    /\ compile Scenario.thunks 0 Scenario.tree w2 = COk (f, w2).
Proof.
  destruct (compile Scenario.thunks 20 Scenario.tree init_world)
    as [[f w1]|t w1|] eqn:Hc; [|by vm_compute in Hc..].
  destruct (compile_all Scenario.thunks 20 [Scenario.list_; Scenario.holder] w1)
    as [w2|] eqn:Hall.
  - exists f, w1, w2. split; [done|]. split; [done|].
    exact (compile_cached Scenario.thunks 20 Scenario.tree init_world f w1 Hc
             20 [Scenario.list_; Scenario.holder] w2 0 Hall).
  - exfalso. revert Hall. vm_compute in Hc. simplify_eq. by vm_compute.
Defined.

(** ** Recursive schemas *)

(** ** The fallback union *)

Lemma string_eqb_refl (s : string) : String.eqb s s = true.
Proof. by apply String.eqb_eq. Qed.

Lemma lookup_map {A B} (f : A -> B) (l : list A) (i : nat) :
  map f l !! i = f <$> l !! i.
Proof. revert i. induction l as [|x l IH]; intros [|i]; simpl; auto. Qed.

(** One attempt: the candidate is a fresh copy of the snapshot; a
    variant that returns leaves through [break label], one that throws
    leaves its error in [err]. *)
Lemma try_variant_exec cache ctx cloneIdx snap label n snapshot f j fr st :
  ctx !! cloneIdx = Some CClone ->
  ctx !! j = Some (CFn f) ->
  assoc snap (snaps fr) = Some snapshot ->
  exec cache (4 + n) ctx (try_variant [] cloneIdx snap label j) fr st
  = match structuredClone (hp st) snapshot with
    | None => Abort Unmodelled
    | Some (cand, h1) =>
        match call cache n (Some (CFn f)) cand (set_hp st h1) with
        | Ret r st' => Break (Some label) (set_input (set_input fr cand) r) st'
        | Thrown t st' => Normal (set_err (set_input fr cand) t) st'
        | Aborted a => Abort a
        end
    end.
Proof.
  intros Hclone Hf Hsnap. unfold try_variant. simpl.
  unfold call_set. simpl. rewrite Hsnap, Hclone.
  destruct (structuredClone (hp st) snapshot) as [[cand h1]|]; [|done].
  simpl. unfold eval_slot. simpl. rewrite Hf.
  by destruct (call cache n (Some (CFn f)) cand (set_hp st h1)) as [r st'|t st'|a].
Qed.

(** The attempts of the emitted code, against [ordered_try]. *)
Lemma run_tries cache ctx cloneIdx snap label n snapshot :
  ctx !! cloneIdx = Some CClone ->
  forall fs j fr st,
    (forall i g, fs !! i = Some g -> ctx !! (j + i) = Some (CFn g)) ->
    assoc snap (snaps fr) = Some snapshot ->
    match ordered_try (call cache n) fs snapshot (err fr) st with
    | Won r st' =>
        exists fr',
          run_seq (exec cache (4 + n) ctx)
            (map (try_variant [] cloneIdx snap label) (seq j (length fs))) fr st
          = Break (Some label) fr' st' /\ input fr' = r
    | Lost last st' =>
        exists fr',
          run_seq (exec cache (4 + n) ctx)
            (map (try_variant [] cloneIdx snap label) (seq j (length fs))) fr st
          = Normal fr' st' /\ err fr' = last /\ snaps fr' = snaps fr
    | Gone a =>
        run_seq (exec cache (4 + n) ctx)
          (map (try_variant [] cloneIdx snap label) (seq j (length fs))) fr st
        = Abort a
    end.
Proof.
  intros Hclone fs. induction fs as [|f rest IH]; intros j fr st Hctx Hsnap.
  - simpl. by exists fr.
  - assert (Hf : ctx !! j = Some (CFn f)).
    { specialize (Hctx 0 f eq_refl). by rewrite Nat.add_0_r in Hctx. }
    cbn [length seq map ordered_try run_seq].
    rewrite (try_variant_exec cache ctx cloneIdx snap label n snapshot f j fr st
               Hclone Hf Hsnap).
    destruct (structuredClone (hp st) snapshot) as [[cand h1]|]; [|done].
    destruct (call cache n (Some (CFn f)) cand (set_hp st h1)) as [r st'|t st'|a];
      [by eexists| |done].
    specialize (IH (S j) (set_err (set_input fr cand) t) st').
    cbn [set_err set_input err input snaps] in IH. apply IH; [|done].
    intros i g Hg. rewrite Nat.add_succ_l, <- Nat.add_succ_r. by apply Hctx.
Qed.

(** The function emitted for a fallback union behaves as the
    specification's ordered try. *)
Lemma fallback_code_spec cache fid fs snap label n arg st :
  apply cache (9 + n)
    (Closure fid (fallback_code [] (length fs) snap label (seq 0 (length fs)))
       (map CFn fs ++ [CClone])) arg st
  = union_validator_spec (call cache n) fs arg st.
Proof.
  set (ctx := map CFn fs ++ [CClone]).
  assert (Hclone : ctx !! length fs = Some CClone).
  { unfold ctx. rewrite lookup_app_r by (by rewrite length_map).
    by rewrite length_map, Nat.sub_diag. }
  assert (Hctx : forall i g, fs !! i = Some g -> ctx !! (0 + i) = Some (CFn g)).
  { intros i g Hg. unfold ctx. rewrite Nat.add_0_l.
    rewrite lookup_app_l by (rewrite length_map; by eapply lookup_lt_Some).
    by rewrite lookup_map, Hg. }
  unfold apply, union_validator_spec, fallback_code.
  change (9 + n) with (S (S (S (S (S (4 + n)))))).
  cbn [call exec run_seq eval_slot eval_from init_frame input]. rewrite Hclone.
  destruct (structuredClone (hp st) arg) as [[snapshot h0]|]; [|done].
  unfold init_frame.
  pose proof (run_tries cache ctx (length fs) snap label n snapshot Hclone fs 0
                (bind_snap (Frame arg None [] []) snap snapshot) (set_hp st h0) Hctx) as H.
  cbn [bind_snap snaps err input lvars assoc] in H.
  rewrite string_eqb_refl in H. specialize (H eq_refl).
  destruct (ordered_try (call cache n) fs snapshot None (set_hp st h0))
    as [r st'|last st'|a].
  - destruct H as (fr' & -> & Hr). by rewrite string_eqb_refl, Hr.
  - destruct H as (fr' & -> & Hr & _). rewrite Hr. unfold last_error.
    destruct last as [t|]; [|done]. by destruct (err_nullish (Some t)).
  - by rewrite H.
Qed.

(** What the loop over the variants pushes on the context array. *)
Lemma build_variants_shape thunks k variants ctx w fns ctx' w' :
  build_variants (build thunks k) variants ctx w = COk (fns, ctx', w') ->
  exists fs,
    ctx' = ctx ++ map CFn fs
    /\ fns = seq (length ctx) (length fs)
    /\ built_from thunks variants fs.
Proof.
  revert ctx w fns ctx' w'.
  induction variants as [|v rest IH]; intros ctx w fns ctx' w'; simpl.
  - intros ?; simplify_eq. exists []. simpl. rewrite app_nil_r.
    repeat split. constructor.
  - destruct (build thunks k v w) as [[g w1]|t w1|] eqn:Hb; simpl; [|done..].
    destruct (build_variants (build thunks k) rest (ctx ++ [CFn g]) w1)
      as [[[fns1 ctx1] w2]|t w2|] eqn:Hr; simpl; [|done..].
    intros ?; simplify_eq.
    destruct (IH _ _ _ _ _ Hr) as (fs & -> & -> & Hfs).
    exists (g :: fs). simpl. rewrite <- app_assoc. simpl.
    rewrite length_app. simpl. rewrite Nat.add_1_r.
    repeat split. constructor; [by exists k, w, w1|done].
Qed.



(** ** Code without assignments *)

Lemma same_vars_refl fr : same_vars fr fr.
Proof. by repeat split. Qed.

Lemma same_vars_trans fr1 fr2 fr3 :
  same_vars fr1 fr2 -> same_vars fr2 fr3 -> same_vars fr1 fr3.
Proof. intros (? & ? & ?) (? & ? & ?). repeat split; congruence. Qed.

Lemma same_vars_set_lvars fr vs : same_vars fr (set_lvars fr vs).
Proof. by repeat split. Qed.

Lemma pure_outcome_from fr fr1 st o :
  same_vars fr fr1 -> pure_outcome fr1 st o -> pure_outcome fr st o.
Proof.
  intros H. destruct o; simpl; auto; intros [-> H']; split; auto;
    eapply same_vars_trans; eauto.
Qed.

Lemma pure_outcome_lvars fr st o vs :
  pure_outcome (set_lvars fr vs) st o -> pure_outcome fr st o.
Proof. apply pure_outcome_from, same_vars_set_lvars. Qed.

Lemma existsb_false_Forall {A} (f : A -> bool) (l : list A) :
  existsb f l = false -> Forall (fun x => f x = false) l.
Proof.
  induction l as [|x l IH]; simpl; [constructor|].
  intros [? ?]%orb_false_iff. constructor; auto.
Qed.

Lemma run_seq_pure exec' ss :
  Forall (fun s => forall fr st, pure_outcome fr st (exec' s fr st)) ss ->
  forall fr st, pure_outcome fr st (run_seq exec' ss fr st).
Proof.
  induction 1 as [|s ss Hs _ IH]; intros fr st; simpl.
  - split; [done|apply same_vars_refl].
  - specialize (Hs fr st). destruct (exec' s fr st) as [fr1 st1| | |]; try done.
    destruct Hs as [-> Hv]. eapply pure_outcome_from; eauto.
Qed.

Lemma forin_each_pure exec' v body outer ks :
  (forall fr st, pure_outcome fr st (exec' body fr st)) ->
  forall fr st, pure_outcome fr st (forin_each exec' v body outer ks fr st).
Proof.
  intros Hb. induction ks as [|k ks IH]; intros fr st; simpl.
  - split; [done|apply same_vars_refl].
  - specialize (Hb (set_lvars fr ((v, KStr k) :: outer)) st).
    apply pure_outcome_lvars in Hb.
    destruct (exec' body _ st) as [fr1 st1|[l|] fr1 st1|t fr1 st1|a]; try done.
    destruct Hb as [-> Hv]. eapply pure_outcome_from; [|apply IH].
    eapply same_vars_trans; [exact Hv|apply same_vars_set_lvars].
Qed.

Lemma branch_pure exec' fr st c s1 s2 :
  (forall s, (s1 = Some s \/ s2 = Some s) -> pure_outcome fr st (exec' s fr st)) ->
  pure_outcome fr st (branch exec' fr st c s1 s2).
Proof.
  intros H. unfold branch. destruct (eval_cond fr (hp st) c) as [b|t|a]; simpl.
  - destruct b.
    + destruct s1; [apply H; auto|]. split; [done|apply same_vars_refl].
    + destruct s2; [apply H; auto|]. split; [done|apply same_vars_refl].
  - split; [done|apply same_vars_refl].
  - done.
Qed.

Lemma end_switch_pure fr st o :
  pure_outcome fr st o -> pure_outcome fr st (end_switch o).
Proof. by destruct o as [|[|]| |]. Qed.

Lemma set_hp_same st : set_hp st (hp st) = st.
Proof. by destruct st. Qed.

(** A call into a context array of read-only predicates leaves the
    store alone. *)
Lemma call_readonly cache k ctx idx a st :
  ctx_readonly ctx ->
  match call cache k (ctx !! idx) a st with
  | Ret _ st' | Thrown _ st' => st' = st
  | Aborted _ => True
  end.
Proof.
  intros Hctx. destruct k; simpl; [done|].
  destruct (ctx !! idx) as [c|] eqn:Hc; [|done].
  eapply Forall_lookup_1 in Hctx as (g & -> & Hg); [|exact Hc].
  specialize (Hg (hp st) a). destruct (g (hp st) a) as [h' [r|t]]; simpl in *;
    subst; apply set_hp_same.
Qed.

Lemma from_match_incl x cases s :
  In s (from_match x cases) -> In s (map snd cases).
Proof.
  induction cases as [|[l s1] rest IH]; simpl; [done|].
  destruct (label_matches x l); simpl; tauto.
Qed.

(** Code without assignments, run with read-only predicates, leaves the
    store, [input], [err] and the snapshots alone, however it ends. *)
Lemma exec_pure cache ctx :
  ctx_readonly ctx ->
  forall fuel,
    (forall s, assigns s = false ->
       forall fr st, pure_outcome fr st (exec cache fuel ctx s fr st))
    /\ (forall v e body i, assigns body = false ->
          forall fr st, pure_outcome fr st (loop_for cache fuel ctx v e body i fr st)).
Proof.
  intros Hctx. induction fuel as [|fuel [IHe IHl]]; [by split|].
  assert (Hrefl : forall fr (st : store), st = st /\ same_vars fr fr)
    by (intros; split; [done|apply same_vars_refl]).
  split.
  - intros s Hs fr st. destruct s; simpl in Hs; try discriminate; simpl exec.
    + apply run_seq_pure. apply existsb_false_Forall in Hs.
      eapply Forall_impl; [exact Hs|]. intros s Hs'. by apply IHe.
    + destruct (eval_sexpr fr m); simpl; auto.
    + apply branch_pure. intros s' [[= <-]|[=]]. by apply IHe.
    + apply branch_pure. intros s' [[= <-]|[=]]. by apply IHe.
    + apply orb_false_iff in Hs as [Hs1 Hs2].
      apply branch_pure. intros s' [[= <-]|[= <-]]; by apply IHe.
    + destruct (eval_slot fr (hp st) e) as [a|t|a]; simpl; auto.
      pose proof (call_readonly cache fuel ctx idx a st Hctx) as Hc.
      destruct (call cache fuel (ctx !! idx) a st) as [r st'|t st'|a']; simpl; subst; auto.
      destruct (truthy r); simpl; auto.
    + by apply IHl.
    + destruct (eval_slot fr (hp st) e) as [o|t|a]; simpl; auto.
      destruct (keys_of (hp st) o) as [ks|t|a]; simpl; auto.
      apply forin_each_pure. intros. by apply IHe.
    + destruct (eval_slot fr (hp st) e) as [x|t|a]; simpl; auto.
      destruct (existsb (strict_eq x) values); simpl; auto.
      apply end_switch_pure. by apply IHe.
    + apply orb_false_iff in Hs as [Hs1 Hs2].
      destruct (eval_disc fr (hp st) d) as [x|t|a]; simpl; auto.
      apply end_switch_pure, run_seq_pure.
      apply Forall_forall. intros s' Hin%list_elem_of_In%in_app_or fr' st'.
      apply IHe. destruct Hin as [Hin|[<-|[]]]; [|done].
      apply from_match_incl, in_map_iff in Hin as ([l s''] & <- & Hin).
      apply existsb_false_Forall in Hs1. rewrite List.Forall_forall in Hs1.
      exact (Hs1 _ Hin).
    + simpl. auto.
    + specialize (IHe s Hs fr st).
      destruct (exec cache fuel ctx s fr st) as [|[l|]| |]; simpl in *; auto.
      destruct (String.eqb l label); simpl; auto.
    + destruct (err_nullish (err fr)); simpl; auto. destruct (err fr); simpl; auto.
  - intros v e body i Hb fr st. simpl.
    destruct (eval_slot fr (hp st) e) as [a|t|a]; simpl; auto.
    destruct (length_of (hp st) a) as [[len|]|t|a']; simpl; auto.
    destruct (Nat.ltb i len); simpl; auto.
    pose proof (IHe body Hb (set_lvars fr ((v, KIdx i) :: lvars fr)) st) as Hx.
    apply pure_outcome_lvars in Hx.
    destruct (exec cache fuel ctx body _ st) as [fr1 st1|[l|] fr1 st1|t fr1 st1|a'];
      try done.
    destruct Hx as [-> Hv]. eapply pure_outcome_from; [|by apply IHl].
    eapply same_vars_trans; [exact Hv|apply same_vars_set_lvars].
Qed.

(** ** What is emitted for the plain descriptors *)

Lemma throwCode_assigns p msg : assigns (throwCode p msg) = false.
Proof. by destruct p. Qed.

Lemma typeof_cases_assigns e p m :
  existsb (fun c => assigns c.2) (map (typeof_case e p) m) = false.
Proof.
  induction m as [|tv m IH]; simpl; [done|]. rewrite IH.
  unfold typeof_case. simpl.
  repeat destruct (String.eqb _ _); simpl; by rewrite ?throwCode_assigns.
Qed.

Lemma emit_fields_plain emit' e p skip shape :
  Forall (fun kv => emits_plain emit' kv.2) shape ->
  forall ctx c w parts ctx' c' w',
    ctx_readonly ctx ->
    emit_fields emit' e p skip shape ctx c w = COk (parts, ctx', c', w') ->
    existsb assigns parts = false /\ ctx_readonly ctx'.
Proof.
  induction 1 as [|[key fd] rest Hfd _ IH]; intros ctx c w parts ctx' c' w' Hctx; simpl.
  - intros ?; simplify_eq. by split.
  - case_bool_decide; [by apply IH|].
    destruct (emit' fd _ ctx c _ w) as [[[[s ctx1] c1] w1]|t w1|] eqn:He; simpl; [|done..].
    destruct (emit_fields emit' e p skip rest ctx1 c1 w1)
      as [[[[ps ctx2] c2] w2]|t w2|] eqn:Hr; simpl; [|done..].
    intros ?; simplify_eq.
    destruct (Hfd _ _ _ _ _ _ _ _ _ Hctx He) as [Hs Hctx1].
    destruct (IH _ _ _ _ _ _ _ Hctx1 Hr) as [Hps Hctx2].
    split; [|done]. simpl. rewrite Hps. by destruct (is_maybe fd); simpl; rewrite Hs.
Qed.

Lemma emit_items_plain emit' e p items :
  Forall (emits_plain emit') items ->
  forall i ctx c w parts ctx' c' w',
    ctx_readonly ctx ->
    emit_items emit' e p i items ctx c w = COk (parts, ctx', c', w') ->
    existsb assigns parts = false /\ ctx_readonly ctx'.
Proof.
  induction 1 as [|item rest Hit _ IH]; intros i ctx c w parts ctx' c' w' Hctx; simpl.
  - intros ?; simplify_eq. by split.
  - destruct (emit' item _ ctx c _ w) as [[[[s ctx1] c1] w1]|t w1|] eqn:He; simpl; [|done..].
    destruct (emit_items emit' e p (S i) rest ctx1 c1 w1)
      as [[[[ps ctx2] c2] w2]|t w2|] eqn:Hr; simpl; [|done..].
    intros ?; simplify_eq.
    destruct (Hit _ _ _ _ _ _ _ _ _ Hctx He) as [Hs Hctx1].
    destruct (IH _ _ _ _ _ _ _ _ Hctx1 Hr) as [Hps Hctx2].
    split; [|done]. simpl. by rewrite Hps, Hs.
Qed.

Lemma emit_cases_plain emit' e p key m :
  Forall (fun lv => Forall (fun kv => emits_plain emit' kv.2) (shape_of lv.2)) m ->
  forall ctx c w cases ctx' c' w',
    ctx_readonly ctx ->
    emit_cases emit' e p key m ctx c w = COk (cases, ctx', c', w') ->
    existsb (fun c => assigns c.2) cases = false /\ ctx_readonly ctx'.
Proof.
  induction 1 as [|[val variant] rest Hv _ IH]; intros ctx c w cases ctx' c' w' Hctx; simpl.
  - intros ?; simplify_eq. by split.
  - destruct (emit_fields emit' e p (Some key) (shape_of variant) ctx c w)
      as [[[[parts ctx1] c1] w1]|t w1|] eqn:He; simpl; [|done..].
    destruct (emit_cases emit' e p key rest ctx1 c1 w1)
      as [[[[cs ctx2] c2] w2]|t w2|] eqn:Hr; simpl; [|done..].
    intros ?; simplify_eq.
    destruct (emit_fields_plain _ _ _ _ _ Hv _ _ _ _ _ _ _ Hctx He) as [Hs Hctx1].
    destruct (IH _ _ _ _ _ _ _ Hctx1 Hr) as [Hps Hctx2].
    split; [|done]. simpl. by rewrite Hps, Hs.
Qed.

Lemma disc_map_incl key variants m m' :
  disc_map key variants m = Some m' ->
  forall lv, In lv m' -> In lv m \/ In lv.2 variants.
Proof.
  revert m. induction variants as [|v rest IH]; intros m; simpl.
  - intros ?; simplify_eq. auto.
  - destruct (assoc key (shape_of v)) as [[]|]; try done.
    destruct (existsb _ m); [done|].
    intros H lv Hin. destruct (IH _ H lv Hin) as [[?|[<-|[]]]%in_app_or|?]; auto.
Qed.

Lemma find_disc_incl keys variants key m :
  find_disc keys variants = Some (key, m) ->
  forall lv, In lv m -> In lv.2 variants.
Proof.
  induction keys as [|k rest IH]; simpl; [done|].
  destruct (disc_map k variants []) as [m1|] eqn:Hm; [|exact IH].
  destruct (Nat.eqb _ _); [|exact IH].
  intros ? lv Hin; simplify_eq.
  by destruct (disc_map_incl _ _ _ _ Hm lv Hin) as [[]|?].
Qed.

Lemma find_disc_of_incl variants key m :
  find_disc_of variants = Some (key, m) ->
  forall lv, In lv m -> In lv.2 variants.
Proof.
  unfold find_disc_of. destruct (forallb is_object variants); [|done].
  destruct variants as [|first rest]; [done|]. apply find_disc_incl.
Qed.

Lemma plain_shape d : plain d -> Forall (fun kv => plain kv.2) (shape_of d).
Proof. destruct 1; simpl; auto. Qed.

Lemma ctx_readonly_snoc ctx g :
  ctx_readonly ctx -> readonly g -> ctx_readonly (ctx ++ [CUser g]).
Proof.
  intros H Hg. apply Forall_app. split; [done|]. constructor; [|constructor]. eauto.
Qed.

(** For a plain descriptor [emit] produces code without assignments and
    a context array of read-only predicates. *)
Lemma emit_plain thunks fuel d : plain d -> emits_plain (emit thunks fuel) d.
Proof.
  revert d. induction fuel as [|fuel IH]; intros d Hd e ctx c p w s ctx' c' w' Hctx;
    [done|].
  simpl. destruct Hd as [id t|id value|id values|id item Hi|id shape Hsh|id items Hit
                        |id value Hv|id inner fn message Hin Hfn|id variants Hvs Hdisp].
  - destruct t; intros ?; simplify_eq; simpl; by rewrite throwCode_assigns.
  - intros ?; simplify_eq; simpl; by rewrite throwCode_assigns.
  - intros ?; simplify_eq; simpl; by rewrite throwCode_assigns.
  - destruct (emit thunks fuel item _ ctx (S c) _ w) as [[[[s1 ctx1] c1] w1]|t w1|] eqn:He;
      simpl; [|done..].
    intros ?; simplify_eq. destruct (IH _ Hi _ _ _ _ _ _ _ _ _ Hctx He) as [Hs Hc].
    split; [|done]. simpl. by rewrite !throwCode_assigns, Hs.
  - destruct (emit_fields _ e p None shape ctx c w) as [[[[ps ctx1] c1] w1]|t w1|] eqn:He;
      simpl; [|done..].
    intros ?; simplify_eq.
    assert (Hf : Forall (fun kv => emits_plain (emit thunks fuel) kv.2) shape)
      by (eapply Forall_impl; [exact Hsh|]; intros kv Hkv; by apply IH).
    destruct (emit_fields_plain _ _ _ _ _ Hf _ _ _ _ _ _ _ Hctx He) as [Hs Hc].
    split; [|done]. simpl. by rewrite !throwCode_assigns, Hs.
  - destruct (emit_items _ e p 0 items ctx c w) as [[[[ps ctx1] c1] w1]|t w1|] eqn:He;
      simpl; [|done..].
    intros ?; simplify_eq.
    assert (Hf : Forall (emits_plain (emit thunks fuel)) items)
      by (eapply Forall_impl; [exact Hit|]; intros kv Hkv; by apply IH).
    destruct (emit_items_plain _ _ _ _ Hf _ _ _ _ _ _ _ _ Hctx He) as [Hs Hc].
    split; [|done]. simpl. by rewrite !throwCode_assigns, Hs.
  - destruct (emit thunks fuel value _ ctx (S c) _ w) as [[[[s1 ctx1] c1] w1]|t w1|] eqn:He;
      simpl; [|done..].
    intros ?; simplify_eq. destruct (IH _ Hv _ _ _ _ _ _ _ _ _ Hctx He) as [Hs Hc].
    split; [|done]. simpl. by rewrite !throwCode_assigns, Hs.
  - destruct (emit thunks fuel inner e ctx c p w) as [[[[s1 ctx1] c1] w1]|t w1|] eqn:He;
      simpl; [|done..].
    intros ?; simplify_eq. destruct (IH _ Hin _ _ _ _ _ _ _ _ _ Hctx He) as [Hs Hc].
    split; [|by apply ctx_readonly_snoc]. simpl. by rewrite !throwCode_assigns, Hs.
  - destruct (typeof_map variants []) as [tm|] eqn:Htm.
    { intros ?; simplify_eq. split; [|done]. simpl.
      by rewrite typeof_cases_assigns, throwCode_assigns. }
    destruct (find_disc_of variants) as [[key discMap]|] eqn:Hfd.
    2:{ destruct Hdisp as [[? [=]]|[? [=]]]. }
    destruct (emit_cases _ e p key discMap ctx c w) as [[[[cs ctx1] c1] w1]|t w1|] eqn:He;
      simpl; [|done..].
    intros ?; simplify_eq.
    assert (Hf : Forall (fun lv => Forall (fun kv => emits_plain (emit thunks fuel) kv.2)
                                     (shape_of lv.2)) discMap).
    { apply List.Forall_forall. intros lv Hlv.
      pose proof (find_disc_of_incl _ _ _ Hfd lv Hlv) as Hin'.
      pose proof (proj1 (List.Forall_forall _ _) Hvs _ Hin') as Hp.
      eapply Forall_impl; [exact (plain_shape _ Hp)|]. intros kv Hkv. by apply IH. }
    destruct (emit_cases_plain _ _ _ _ _ Hf _ _ _ _ _ _ _ Hctx He) as [Hs Hc].
    split; [|done]. simpl. by rewrite !throwCode_assigns, Hs.
Qed.

(** Each of the five constructs left out of [plain] emits an
    assignment. *)
Lemma emit_rewriting thunks fuel d e ctx c p w s ctx' c' w' :
  rewriting d ->
  emit thunks fuel d e ctx c p w = COk (s, ctx', c', w') ->
  assigns s = true.
Proof.
  destruct fuel as [|fuel]; [done|]. destruct d; simpl; try done; intros Hd.
  - destruct (emit thunks fuel d e ctx c p w) as [[[[s1 ctx1] c1] w1]|t w1|]; simpl; [|done..].
    intros ?; simplify_eq. destruct (nonempty (render s1)); simpl; [|done].
    apply orb_true_r.
  - destruct Hd as [-> ->].
    destruct (build_variants _ variants ctx w) as [[[fns ctx1] w1]|t w1|]; simpl; [|done..].
    by intros ?; simplify_eq.
  - destruct (emit thunks fuel d e ctx c p w) as [[[[s1 ctx1] c1] w1]|t w1|]; simpl; [|done..].
    intros ?; simplify_eq. simpl. apply orb_true_r.
  - destruct (emit thunks fuel d e _ c p w) as [[[[s1 ctx1] c1] w1]|t w1|]; simpl; [|done..].
    by intros ?; simplify_eq.
  - destruct (build thunks fuel (thunks thunk) w) as [[f w1]|t w1|]; simpl; [|done..].
    by intros ?; simplify_eq.
Qed.

(** What [compile] makes of a plain descriptor that is neither cached
    nor being built. *)
Lemma compile_plain thunks fuel d w f w' :
  plain d ->
  _cache w !! sid d = None ->
  sid d ∉ _building w ->
  compile thunks fuel d w = COk (f, w') ->
  exists fid body ctx,
    f = Closure fid body ctx /\ assigns body = false /\ ctx_readonly ctx.
Proof.
  intros Hd Hc Hb. unfold compile. rewrite Hc.
  destruct fuel as [|fuel]; [done|].
  rewrite build_unfold, bool_decide_eq_false_2 by done.
  destruct (emit thunks fuel d [] [] 0 (PS "") _) as [[[[body ctx] c1] w1]|t w1|] eqn:He;
    [|done..].
  destruct (syntax_ok body); [|done]. intros ?; simplify_eq.
  destruct (emit_plain thunks fuel d Hd _ _ _ _ _ _ _ _ _ (List.Forall_nil _) He) as [Hs Hctx].
  by eexists _, _, _.
Qed.

(** A function without assignments returns its argument and leaves the
    store alone. *)
Lemma closure_pure cache n fid body ctx arg st :
  assigns body = false ->
  ctx_readonly ctx ->
  match apply cache n (Closure fid body ctx) arg st with
  | Ret r st' => r = arg /\ st' = st
  | Thrown _ st' => st' = st
  | Aborted _ => True
  end.
Proof.
  intros Hs Hctx. destruct n as [|n]; [done|]. unfold apply. simpl.
  pose proof (proj1 (exec_pure cache ctx Hctx n) body Hs (init_frame arg) st) as H.
  destruct (exec cache n ctx body (init_frame arg) st) as [fr' st'| |t fr' st'|]; try done.
  - by destruct H as [-> (-> & _)].
  - by destruct H as [-> _].
Qed.

(** ** Validators that do not write *)

(** C10: the validator compiled from a plain descriptor (the tags
    [string], [boolean], [number], [integer], [bigint], [literal],
    [oneOf], [array], [object], [tuple], [record], [refine] with a
    predicate that does not write, and the unions emitted as a dispatch)
    contains no assignment; when it accepts it returns the very value it
    was given, and whether it accepts or rejects it leaves the store as
    it was.  Each of [maybe], [transform], [preprocess], [lazy] and the
    fallback union does emit an assignment. *)
Theorem plain_validator_writes_nothing thunks fuel d w f w' :
  plain d ->
  _cache w !! sid d = None ->
  sid d ∉ _building w ->
  compile thunks fuel d w = COk (f, w') ->
  (exists fid body ctx, f = Closure fid body ctx /\ assigns body = false)
  /\ (forall cache n arg st,
        match apply cache n f arg st with
        | Ret r st' => r = arg /\ st' = st
        | Thrown _ st' => st' = st
        | Aborted _ => True
        end)
  /\ (forall d' k e ctx c p w0 s ctx' c' w1,
        rewriting d' ->
        emit thunks k d' e ctx c p w0 = COk (s, ctx', c', w1) ->
        assigns s = true).
Proof.
  intros Hd Hc Hb Hcomp.
  destruct (compile_plain _ _ _ _ _ _ Hd Hc Hb Hcomp) as (fid & body & ctx & -> & Hs & Hctx).
  split; [by eexists _, _, _|]. split.
  - intros cache n arg st. by apply closure_pure.
  - intros d' k e ctx0 c p w0 s ctx' c' w1. apply emit_rewriting.
Qed.

Lemma items_schema_plain : plain Scenario.items_schema.
Proof. repeat (constructor; simpl). Qed.

Lemma plain_validator_writes_nothing_witness :
  exists f w',
    compile Scenario.no_thunks 20 Scenario.items_schema init_world = COk (f, w')
    /\ (exists fid body ctx, f = Closure fid body ctx /\ assigns body = false)
    /\ (forall cache n arg st,
          match apply cache n f arg st with
          | Ret r st' => r = arg /\ st' = st
          | Thrown _ st' => st' = st
          | Aborted _ => True
          end)
    /\ (forall d' k e ctx c p w0 s ctx' c' w1,
          rewriting d' ->
          emit Scenario.no_thunks k d' e ctx c p w0 = COk (s, ctx', c', w1) ->
          assigns s = true).
Proof.
  destruct (compile Scenario.no_thunks 20 Scenario.items_schema init_world)
    as [[f w']|t w'|] eqn:Hc; [|by vm_compute in Hc..].
  exists f, w'. split; [done|].
  exact (plain_validator_writes_nothing Scenario.no_thunks 20 Scenario.items_schema
           init_world f w' items_schema_plain ltac:(reflexivity)
           ltac:(vm_compute; set_solver) Hc).
Defined.

(** ** Re-validating the output *)

(** C2, as stated, fails: [transform(string, s => s.length)] accepts
    ["hello"] and returns [5], which the same validator rejects. *)
Lemma transform_output_rejected :
  let go x := verdict_of (parse Scenario.no_thunks 20 Scenario.length_schema x
                            init_world (empty_store [])) in
  go (VStr "hello") = Accepted (VNum (int 5))
  /\ go (VNum (int 5)) = Rejected (TError "expected string").
Proof. vm_compute. by split. Qed.

(** Without any [transform]: [tuple(object({a: literal(null)}),
    object({a: maybe(number)}))] accepts [[o, o]] with [o = {a: null}],
    normalising [o.a] to [undefined] through the second position; the
    output is then rejected at the first. *)
Lemma maybe_on_shared_object_rejected :
  let go h := parse Scenario.thunks 20 Scenario.null_then_maybe (VRef 0)
                init_world (empty_store h) in
  verdict_of (go Scenario.shared_heap) = Accepted (VRef 0)
  /\ heap_after (go Scenario.shared_heap)
     = Some [OArr [VRef 1; VRef 1]; OObj [("a", VUndef)]]
  /\ verdict_of (go [OArr [VRef 1; VRef 1]; OObj [("a", VUndef)]])
     = Rejected (TError "[0].a: expected null").
Proof. vm_compute. by repeat split. Qed.

(** C2, amended: the validator compiled from a plain descriptor returns
    an accepted value as it is and writes nothing, so applying it again
    to its output, in the store it left, accepts with the identical
    result. *)
Theorem plain_validator_idempotent thunks fuel d w f w' cache n arg st r st' :
  plain d ->
  _cache w !! sid d = None ->
  sid d ∉ _building w ->
  compile thunks fuel d w = COk (f, w') ->
  apply cache n f arg st = Ret r st' ->
  r = arg /\ st' = st /\ apply cache n f r st' = Ret r st'.
Proof.
  intros Hd Hc Hb Hcomp Hrun.
  destruct (compile_plain _ _ _ _ _ _ Hd Hc Hb Hcomp) as (fid & body & ctx & -> & Hs & Hctx).
  pose proof (closure_pure cache n fid body ctx arg st Hs Hctx) as H.
  rewrite Hrun in H. destruct H as [-> ->]. by repeat split.
Qed.


(** * Further properties of the compiler *)

(** ** [build] and the marker set *)

(** The marker [build] puts in [_building] is gone when it returns and
    when it throws (the [finally] block), and [build] never writes
    [_cache]: a failed compilation leaves nothing behind. *)
Theorem build_restores_building thunks fuel d w :
  match build thunks fuel d w with
  | COk (_, w') => _building w' = _building w /\ _cache w' = _cache w
  | CThrow _ w' => _building w' = _building w /\ _cache w' = _cache w
  | CFuel => True
  end.
Proof.
  pose proof (proj2 (emit_build_keep thunks fuel) d w) as H.
  destruct (build thunks fuel d w) as [[f w']|t w'|]; simpl in H; [| |done];
    by destruct H.
Qed.

(** ** Function identities *)

Lemma emit_fields_fid emit' e p skip shape ctx c w :
  (forall d e ctx c p w,
     match emit' d e ctx c p w with
     | COk (_, _, _, w') => next_fid w <= next_fid w'
     | CThrow _ w' => next_fid w <= next_fid w'
     | CFuel => True
     end) ->
  match emit_fields emit' e p skip shape ctx c w with
  | COk (_, _, _, w') => next_fid w <= next_fid w'
  | CThrow _ w' => next_fid w <= next_fid w'
  | CFuel => True
  end.
Proof.
  intros He. revert ctx c w.
  induction shape as [|[key fd] rest IH]; intros ctx c w; simpl; [done|].
  case_bool_decide; [apply IH|].
  pose proof (He fd (e ++ [AKey key]) ctx c (appendKey p key) w) as H1.
  destruct (emit' fd _ ctx c _ w) as [[[[s ctx1] c1] w1]|t w'|]; simpl in *; auto.
  specialize (IH ctx1 c1 w1).
  destruct (emit_fields emit' e p skip rest ctx1 c1 w1)
    as [[[[parts ctx2] c2] w2]|t w'|]; simpl in *; auto; lia.
Qed.

Lemma emit_items_fid emit' e p i items ctx c w :
  (forall d e ctx c p w,
     match emit' d e ctx c p w with
     | COk (_, _, _, w') => next_fid w <= next_fid w'
     | CThrow _ w' => next_fid w <= next_fid w'
     | CFuel => True
     end) ->
  match emit_items emit' e p i items ctx c w with
  | COk (_, _, _, w') => next_fid w <= next_fid w'
  | CThrow _ w' => next_fid w <= next_fid w'
  | CFuel => True
  end.
Proof.
  intros He. revert i ctx c w.
  induction items as [|item rest IH]; intros i ctx c w; simpl; [done|].
  pose proof (He item (e ++ [AIdx i]) ctx c (appendTupleIndex p i) w) as H1.
  destruct (emit' item _ ctx c _ w) as [[[[s ctx1] c1] w1]|t w'|]; simpl in *; auto.
  specialize (IH (S i) ctx1 c1 w1).
  destruct (emit_items emit' e p (S i) rest ctx1 c1 w1)
    as [[[[parts ctx2] c2] w2]|t w'|]; simpl in *; auto; lia.
Qed.

Lemma emit_cases_fid emit' e p key m ctx c w :
  (forall d e ctx c p w,
     match emit' d e ctx c p w with
     | COk (_, _, _, w') => next_fid w <= next_fid w'
     | CThrow _ w' => next_fid w <= next_fid w'
     | CFuel => True
     end) ->
  match emit_cases emit' e p key m ctx c w with
  | COk (_, _, _, w') => next_fid w <= next_fid w'
  | CThrow _ w' => next_fid w <= next_fid w'
  | CFuel => True
  end.
Proof.
  intros He. revert ctx c w.
  induction m as [|[val variant] rest IH]; intros ctx c w; simpl; [done|].
  pose proof (emit_fields_fid emit' e p (Some key) (shape_of variant) ctx c w He) as H1.
  destruct (emit_fields emit' e p (Some key) (shape_of variant) ctx c w)
    as [[[[parts ctx1] c1] w1]|t w'|]; simpl in *; auto.
  specialize (IH ctx1 c1 w1).
  destruct (emit_cases emit' e p key rest ctx1 c1 w1)
    as [[[[cases ctx2] c2] w2]|t w'|]; simpl in *; auto; lia.
Qed.

Lemma build_variants_fid build' variants ctx w :
  (forall d w,
     match build' d w with
     | COk (_, w') => next_fid w <= next_fid w'
     | CThrow _ w' => next_fid w <= next_fid w'
     | CFuel => True
     end) ->
  match build_variants build' variants ctx w with
  | COk (_, _, w') => next_fid w <= next_fid w'
  | CThrow _ w' => next_fid w <= next_fid w'
  | CFuel => True
  end.
Proof.
  intros Hb. revert ctx w.
  induction variants as [|variant rest IH]; intros ctx w; simpl; [done|].
  pose proof (Hb variant w) as H1.
  destruct (build' variant w) as [[f w1]|t w'|]; simpl in *; auto.
  specialize (IH (ctx ++ [CFn f]) w1).
  destruct (build_variants build' rest (ctx ++ [CFn f]) w1)
    as [[[fns ctx2] w2]|t w'|]; simpl in *; auto; lia.
Qed.

(** Function identities are handed out in increasing order: [emit]
    never lowers the counter, and the function [build] returns has an
    identity at or above the counter it found and below the one it
    leaves. *)
Lemma emit_build_fid thunks fuel :
  (forall d e ctx c p w,
     match emit thunks fuel d e ctx c p w with
     | COk (_, _, _, w') => next_fid w <= next_fid w'
     | CThrow _ w' => next_fid w <= next_fid w'
     | CFuel => True
     end)
  /\ (forall d w,
        match build thunks fuel d w with
        | COk (f, w') => next_fid w <= fid_of f < next_fid w'
        | CThrow _ w' => next_fid w <= next_fid w'
        | CFuel => True
        end).
Proof.
  induction fuel as [|fuel [IHe IHb]]; [by split|].
  assert (IHb' : forall d w,
             match build thunks fuel d w with
             | COk (_, w') => next_fid w <= next_fid w'
             | CThrow _ w' => next_fid w <= next_fid w'
             | CFuel => True
             end).
  { intros d w. specialize (IHb d w).
    destruct (build thunks fuel d w) as [[f w']|t w'|]; auto; lia. }
  split.
  - intros d e ctx c p w. simpl.
    destruct d as [id [| | | |]|id value|id values|id inner|id item|id shape|id items
                  |id value|id variants|id inner fn|id inner fn message|id inner fn
                  |id thunk];
      simpl; try done.
    + pose proof (IHe inner e ctx c p w) as H.
      destruct (emit thunks fuel inner e ctx c p w) as [[[[s ctx1] c1] w1]|t w'|]; simpl in *; auto.
    + pose proof (IHe item (e ++ [AVar ("i" +:+ Text.dec c)]) ctx (S c)
                    (appendIndex p ("i" +:+ Text.dec c)) w) as H.
      destruct (emit thunks fuel item _ ctx (S c) _ w) as [[[[s ctx1] c1] w1]|t w'|];
        simpl in *; auto.
    + pose proof (emit_fields_fid _ e p None shape ctx c w IHe) as H.
      destruct (emit_fields _ e p None shape ctx c w) as [[[[s ctx1] c1] w1]|t w'|];
        simpl in *; auto.
    + pose proof (emit_items_fid _ e p 0 items ctx c w IHe) as H.
      destruct (emit_items _ e p 0 items ctx c w) as [[[[s ctx1] c1] w1]|t w'|];
        simpl in *; auto.
    + pose proof (IHe value (e ++ [AVar ("k" +:+ Text.dec c)]) ctx (S c)
                    (appendIndex p ("k" +:+ Text.dec c)) w) as H.
      destruct (emit thunks fuel value _ ctx (S c) _ w) as [[[[s ctx1] c1] w1]|t w'|];
        simpl in *; auto.
    + destruct (typeof_map variants []); simpl; [done|].
      destruct (find_disc_of variants) as [[key discMap]|]; simpl.
      * pose proof (emit_cases_fid _ e p key discMap ctx c w IHe) as H.
        destruct (emit_cases _ e p key discMap ctx c w) as [[[[s ctx1] c1] w1]|t w'|];
          simpl in *; auto.
      * pose proof (build_variants_fid _ variants ctx w IHb') as H.
        destruct (build_variants _ variants ctx w) as [[[fns ctx1] w1]|t w'|];
          simpl in *; auto.
    + pose proof (IHe inner e ctx c p w) as H.
      destruct (emit thunks fuel inner e ctx c p w) as [[[[s ctx1] c1] w1]|t w'|]; simpl in *; auto.
    + pose proof (IHe inner e ctx c p w) as H.
      destruct (emit thunks fuel inner e ctx c p w) as [[[[s ctx1] c1] w1]|t w'|]; simpl in *; auto.
    + pose proof (IHe inner e (ctx ++ [CUser fn]) c p w) as H.
      destruct (emit thunks fuel inner e _ c p w) as [[[[s ctx1] c1] w1]|t w'|]; simpl in *; auto.
    + pose proof (IHb' (thunks thunk) w) as H.
      destruct (build thunks fuel (thunks thunk) w) as [[f w1]|t w'|]; simpl in *; auto.
  - intros d w. rewrite build_unfold.
    case_bool_decide as Hin; simpl; [lia|].
    pose proof (IHe d [] [] 0 (PS "")
                  (World (_cache w) ({[sid d]} ∪ _building w) (next_fid w))) as H.
    destruct (emit thunks fuel d [] [] 0 (PS "") _) as [[[[body ctx1] c1] w1]|t w'|];
      simpl in *; auto.
    destruct (syntax_ok body); simpl; lia.
Qed.

(** Cache independence: two descriptors compiled one after the other,
    neither of them cached before, get two different function objects,
    also when the descriptors are structurally the same. *)
Theorem distinct_descriptors_distinct_functions thunks k1 k2 d1 d2 w f1 w1 f2 w2 :
  _cache w !! sid d1 = None ->
  compile thunks k1 d1 w = COk (f1, w1) ->
  _cache w1 !! sid d2 = None ->
  compile thunks k2 d2 w1 = COk (f2, w2) ->
  fid_of f1 <> fid_of f2 /\ f1 <> f2.
Proof.
  unfold compile. intros -> H1 -> H2.
  pose proof (proj2 (emit_build_fid thunks k1) d1 w) as B1.
  pose proof (proj2 (emit_build_fid thunks k2) d2 w1) as B2.
  destruct (build thunks k1 d1 w) as [[g1 u1]|t u1|]; [|done..].
  destruct (build thunks k2 d2 w1) as [[g2 u2]|t u2|]; [|done..].
  simplify_eq. simpl in *.
  assert (fid_of f1 <> fid_of f2) by lia. split; [done|]. by intros ->.
Qed.

Lemma distinct_descriptors_distinct_functions_witness :
  exists f1 w1 f2 w2,
    compile Scenario.no_thunks 5 Scenario.strings_a init_world = COk (f1, w1)
    /\ compile Scenario.no_thunks 5 Scenario.strings_b w1 = COk (f2, w2)
    /\ fid_of f1 <> fid_of f2 /\ f1 <> f2.
Proof.
  destruct (compile Scenario.no_thunks 5 Scenario.strings_a init_world)
    as [[f1 w1]|t w1|] eqn:H1; [|by vm_compute in H1..].
  destruct (compile Scenario.no_thunks 5 Scenario.strings_b w1)
    as [[f2 w2]|t w2|] eqn:H2.
  - exists f1, w1, f2, w2. split; [done|]. split; [done|].
    refine (distinct_descriptors_distinct_functions Scenario.no_thunks 5 5
              Scenario.strings_a Scenario.strings_b init_world f1 w1 f2 w2
              ltac:(reflexivity) H1 _ H2).
    rewrite (proj2 (compile_cache _ _ _ _ _ _ H1)) by (vm_compute; discriminate).
    reflexivity.
  - exfalso. pose proof H1 as H1'. vm_compute in H1'. simplify_eq.
  - exfalso. pose proof H1 as H1'. vm_compute in H1'. simplify_eq.
Defined.

(** ** The trampoline *)

(** Once [compile(d)] has returned [f], a trampoline for [d] whose
    variable [compiled] is still empty looks [f] up in the cache, keeps
    it, and calls it: the recursive occurrence of a schema is an
    indirect call of the finished validator.  A trampoline that already
    holds a function calls that function, whatever the cache says. *)
Theorem trampoline_delegates thunks fuel d w f w' fid n arg st :
  compile thunks fuel d w = COk (f, w') ->
  (memo st !! fid = None ->
   call (_cache w') (S n) (Some (CFn (Trampoline fid (sid d)))) arg st
   = call (_cache w') n (Some (CFn f)) arg (Store (hp st) (<[fid := f]> (memo st))))
  /\ (forall g cache,
        memo st !! fid = Some g ->
        call cache (S n) (Some (CFn (Trampoline fid (sid d)))) arg st
        = call cache n (Some (CFn g)) arg (Store (hp st) (<[fid := g]> (memo st)))).
Proof.
  intros Hc. apply compile_cache in Hc as [Hc _]. split.
  - intros Hm. simpl. by rewrite Hm, Hc.
  - intros g cache Hm. simpl. by rewrite Hm.
Qed.

Lemma trampoline_delegates_witness :
  exists f w',
    compile Scenario.thunks 20 Scenario.tree init_world = COk (f, w')
    /\ call (_cache w') 1 (Some (CFn (Trampoline 7 (sid Scenario.tree)))) VNull
         (empty_store [])
       = call (_cache w') 0 (Some (CFn f)) VNull (Store [] (<[7 := f]> ∅)).
Proof.
  destruct (compile Scenario.thunks 20 Scenario.tree init_world)
    as [[f w']|t w'|] eqn:Hc; [|by vm_compute in Hc..].
  exists f, w'. split; [done|].
  exact (proj1 (trampoline_delegates Scenario.thunks 20 Scenario.tree init_world
                  f w' 7 0 VNull (empty_store []) Hc) ltac:(reflexivity)).
Defined.

(** ** Alternatives without members *)

(** [oneOf()] and [union()] with no argument emit a [switch] whose body
    starts with a statement instead of a clause; [new Function] refuses
    the text, so [compile] throws a [SyntaxError] instead of returning a
    validator that rejects everything.  The marker set and the cache are
    as before the call. *)
Theorem empty_alternatives_do_not_compile thunks fuel id w :
  _cache w !! id = None ->
  id ∉ _building w ->
  (exists w', compile thunks (2 + fuel) (DOneOf id []) w = CThrow SyntaxError w'
              /\ same_tables w w')
  /\ (exists w', compile thunks (2 + fuel) (DUnion id []) w = CThrow SyntaxError w'
                 /\ same_tables w w').
Proof.
  intros Hc Hb. unfold compile. cbn [sid]. rewrite Hc.
  change (2 + fuel) with (S (S fuel)). rewrite !build_unfold. cbn [sid].
  rewrite !bool_decide_eq_false_2 by done. cbn.
  split; eexists; (split; [reflexivity|]); split; simpl; try done;
    clear -Hb; set_solver.
Qed.

Lemma empty_alternatives_do_not_compile_witness :
  (exists w', compile Scenario.no_thunks 2 (DOneOf 7 []) init_world = CThrow SyntaxError w'
              /\ same_tables init_world w')
  /\ (exists w', compile Scenario.no_thunks 2 (DUnion 7 []) init_world = CThrow SyntaxError w'
                 /\ same_tables init_world w').
Proof.
  exact (empty_alternatives_do_not_compile Scenario.no_thunks 0 7 init_world
           ltac:(reflexivity) ltac:(vm_compute; set_solver)).
Defined.

(** ** [esc]: text into a string literal and back *)

Lemma app_nil_s (s : string) : "" +:+ s = s.
Proof. reflexivity. Qed.

Lemma app_cons_s (a : ascii) (s t : string) : String a s +:+ t = String a (s +:+ t).
Proof. reflexivity. Qed.

Lemma append_assoc_s (a b c : string) : (a +:+ b) +:+ c = a +:+ (b +:+ c).
Proof.
  induction a as [|x a IH]; [done|]. rewrite !app_cons_s. by f_equal.
Qed.

Lemma app_nil_r_s (s : string) : s +:+ "" = s.
Proof. induction s as [|a s IH]; [done|]. rewrite app_cons_s. by f_equal. Qed.

Lemma replaceAll1_cons_ne c rep a s :
  Ascii.eqb a c = false ->
  Text.replaceAll1 c rep (String a s) = String a (Text.replaceAll1 c rep s).
Proof. intros H. simpl. by rewrite H. Qed.

Lemma replaceAll1_cons_eq c rep s :
  Text.replaceAll1 c rep (String c s) = rep +:+ Text.replaceAll1 c rep s.
Proof. simpl. by rewrite Ascii.eqb_refl. Qed.

Lemma replaceAll1_app c rep s t :
  Text.replaceAll1 c rep (s +:+ t)
  = Text.replaceAll1 c rep s +:+ Text.replaceAll1 c rep t.
Proof.
  induction s as [|a s IH]; [done|]. rewrite app_cons_s. simpl.
  destruct (Ascii.eqb a c); rewrite IH; [by rewrite append_assoc_s|done].
Qed.

Lemma replaceAll3_cons_ne a b c rep x s :
  Ascii.eqb x a = false ->
  Text.replaceAll3 a b c rep (String x s) = String x (Text.replaceAll3 a b c rep s).
Proof.
  intros H. cbn [Text.replaceAll3].
  destruct s as [|y [|z s']]; try done. by rewrite H.
Qed.

Lemma replaceAll3_match a b c rep s :
  Text.replaceAll3 a b c rep (String a (String b (String c s)))
  = rep +:+ Text.replaceAll3 a b c rep s.
Proof. cbn [Text.replaceAll3]. by rewrite !Ascii.eqb_refl. Qed.


Lemma replaceAll3_app_ne a b c rep s t :
  has_char a s = false ->
  Text.replaceAll3 a b c rep (s +:+ t) = s +:+ Text.replaceAll3 a b c rep t.
Proof.
  induction s as [|x s IH]; [done|]. cbn [has_char].
  intros [Hx Hs]%orb_false_iff. rewrite !app_cons_s.
  rewrite replaceAll3_cons_ne by done. by rewrite IH.
Qed.

Lemma replaceAll3_cons_nomatch a b c rep s :
  starts2 b c s = false ->
  Text.replaceAll3 a b c rep (String a s) = String a (Text.replaceAll3 a b c rep s).
Proof.
  intros H. cbn [Text.replaceAll3]. destruct s as [|y [|z s']]; try done.
  cbn [starts2] in H. rewrite Ascii.eqb_refl. cbn [andb]. by rewrite H.
Qed.

Lemma esc_unfold s :
  Text.esc s
  = Text.replaceAll3 (Text.chr 226) (Text.chr 128) (Text.chr 169)
      (String Text.backslash "u2029") (esc5 s).
Proof. reflexivity. Qed.

Lemma esc4_app s t : esc4 (s +:+ t) = esc4 s +:+ esc4 t.
Proof. unfold esc4. by rewrite !replaceAll1_app. Qed.

Lemma esc4_cons a s : esc4 (String a s) = esc4 (Text.str1 a) +:+ esc4 s.
Proof. by rewrite <- esc4_app. Qed.

Lemma special_false a :
  special a = false ->
  Ascii.eqb a Text.backslash = false /\ Ascii.eqb a Text.squote = false
  /\ Ascii.eqb a Text.LF = false /\ Ascii.eqb a Text.CR = false.
Proof.
  unfold special. intros H.
  apply orb_false_iff in H as [H H4]. apply orb_false_iff in H as [H H3].
  apply orb_false_iff in H as [H1 H2]. done.
Qed.

Lemma esc4_plain a : special a = false -> esc4 (Text.str1 a) = Text.str1 a.
Proof.
  intros (H1 & H2 & H3 & H4)%special_false. unfold esc4, Text.str1.
  by rewrite !replaceAll1_cons_ne.
Qed.

(** What the one-character passes make of one special character: a
    backslash and a character, neither of them the first byte of
    U+2028 and U+2029. *)
Lemma esc4_special a :
  special a = true ->
  exists x, esc4 (Text.str1 a) = String Text.backslash (Text.str1 x)
            /\ Ascii.eqb x (Text.chr 226) = false
            /\ forall t, Text.unescape (String Text.backslash (String x t))
                         = String a <$> Text.unescape t.
Proof.
  unfold special. intros H.
  destruct (Ascii.eqb_spec a Text.backslash) as [E|_];
    [subst a; exists Text.backslash; repeat split; intros; reflexivity|].
  destruct (Ascii.eqb_spec a Text.squote) as [E|_];
    [subst a; exists Text.squote; repeat split; intros; reflexivity|].
  destruct (Ascii.eqb_spec a Text.LF) as [E|_];
    [subst a; exists "n"%char; repeat split; intros; reflexivity|].
  destruct (Ascii.eqb_spec a Text.CR) as [E|_];
    [subst a; exists "r"%char; repeat split; intros; reflexivity|].
  done.
Qed.

Lemma eqb_sym_false (a b : ascii) : Ascii.eqb a b = false -> Ascii.eqb b a = false.
Proof. rewrite !Ascii.eqb_neq. auto. Qed.

Lemma esc_special_cons a s :
  special a = true ->
  exists x,
    (forall t, Text.unescape (String Text.backslash (String x t))
               = String a <$> Text.unescape t)
    /\ Text.esc (String a s) = String Text.backslash (String x (Text.esc s)).
Proof.
  intros (x & Hx & Hne & Hun)%esc4_special. exists x. split; [done|].
  rewrite !esc_unfold. unfold esc5. rewrite esc4_cons, Hx.
  assert (Hh : has_char (Text.chr 226) (String Text.backslash (Text.str1 x)) = false)
    by (cbn [has_char Text.str1]; by rewrite Hne).
  rewrite (replaceAll3_app_ne _ _ _ _ _ _ Hh), (replaceAll3_app_ne _ _ _ _ _ _ Hh).
  reflexivity.
Qed.

Lemma esc_plain_cons a s :
  special a = false ->
  Ascii.eqb a (Text.chr 226) = false ->
  Text.esc (String a s) = String a (Text.esc s).
Proof.
  intros Hs Hne. rewrite !esc_unfold. unfold esc5.
  rewrite esc4_cons, (esc4_plain _ Hs). unfold Text.str1. rewrite app_cons_s, app_nil_s.
  by rewrite !replaceAll3_cons_ne.
Qed.

Lemma starts2_true b c s :
  starts2 b c s = true -> s = String b (String c (drop2 s)).
Proof.
  destruct s as [|y [|z s']]; try done. cbn [starts2 drop2].
  intros [->%Ascii.eqb_eq ->%Ascii.eqb_eq]%andb_true_iff. done.
Qed.

(** The first two characters of [esc4 s], when they are not special,
    are the first two of [s]. *)
Lemma esc4_head2 b c s :
  special b = false ->
  special c = false ->
  starts2 b c (esc4 s) = starts2 b c s.
Proof.
  intros Hb Hc.
  assert (Hb' : Ascii.eqb Text.backslash b = false).
  { apply eqb_sym_false. by apply special_false in Hb as (? & _). }
  assert (Hc' : Ascii.eqb Text.backslash c = false).
  { apply eqb_sym_false. by apply special_false in Hc as (? & _). }
  destruct s as [|y s]; [done|]. rewrite esc4_cons.
  destruct (special y) eqn:Hy.
  - destruct (esc4_special y Hy) as (x & -> & _). rewrite !app_cons_s.
    cbn [starts2]. rewrite Hb'. cbn [andb].
    destruct s; cbn [starts2]; [done|].
    destruct (Ascii.eqb_spec y b) as [->|_]; [congruence|done].
  - rewrite (esc4_plain _ Hy). unfold Text.str1. rewrite app_cons_s, app_nil_s.
    destruct s as [|z s]; [done|]. rewrite esc4_cons.
    destruct (special z) eqn:Hz.
    + destruct (esc4_special z Hz) as (x & -> & _). rewrite !app_cons_s.
      cbn [starts2]. rewrite Hc'.
      destruct (Ascii.eqb_spec z c) as [->|_]; [congruence|].
      by rewrite !andb_false_r.
    + rewrite (esc4_plain _ Hz). unfold Text.str1. by rewrite app_cons_s, app_nil_s.
Qed.

Lemma replaceAll3_head a b c rep z s :
  (exists t, Text.replaceAll3 a b c rep (String z s) = rep +:+ t)
  \/ (exists t, Text.replaceAll3 a b c rep (String z s) = String z t).
Proof.
  cbn [Text.replaceAll3]. destruct s as [|y [|x s']]; eauto.
  destruct (_ && _); eauto.
Qed.

(** A three-byte pass keeps the first two characters from being [b], [c]
    when these are neither the first byte of its pattern nor the first
    character of its replacement. *)
Lemma replaceAll3_head2 a b' c' r0 rep b c s :
  Ascii.eqb b a = false ->
  Ascii.eqb r0 b = false ->
  Ascii.eqb r0 c = false ->
  starts2 b c s = false ->
  starts2 b c (Text.replaceAll3 a b' c' (String r0 rep) s) = false.
Proof.
  intros Hba Hrb Hrc H. destruct s as [|y s]; [done|].
  destruct (Ascii.eqb_spec y a) as [->|Hya%Ascii.eqb_neq].
  - destruct (replaceAll3_head a b' c' (String r0 rep) a s) as [[t ->]|[t ->]].
    + rewrite app_cons_s. cbn [starts2]. destruct (rep +:+ t); [done|]. by rewrite Hrb.
    + cbn [starts2]. destruct t; [done|]. by rewrite (eqb_sym_false _ _ Hba).
  - rewrite replaceAll3_cons_ne by done.
    destruct s as [|z s]; [done|]. cbn [starts2] in H.
    destruct (replaceAll3_head a b' c' (String r0 rep) z s) as [[t ->]|[t ->]].
    + rewrite app_cons_s. cbn [starts2]. rewrite Hrc. apply andb_false_r.
    + done.
Qed.

Lemma esc4_starts b c s :
  special b = false ->
  special c = false ->
  starts2 b c s = true ->
  esc4 s = String b (String c (esc4 (drop2 s))).
Proof.
  intros Hb Hc Hs. rewrite (starts2_true _ _ _ Hs) at 1.
  rewrite esc4_cons, (esc4_plain _ Hb), esc4_cons, (esc4_plain _ Hc).
  reflexivity.
Qed.

(** [esc] on a text that starts with the byte E2: the three bytes of
    U+2028 and U+2029 become their escapes, any other E2 stays. *)
Lemma esc_E2_cons s :
  Text.esc (String (Text.chr 226) s)
  = if starts2 (Text.chr 128) (Text.chr 168) s
    then String Text.backslash "u2028" +:+ Text.esc (drop2 s)
    else if starts2 (Text.chr 128) (Text.chr 169) s
         then String Text.backslash "u2029" +:+ Text.esc (drop2 s)
         else String (Text.chr 226) (Text.esc s).
Proof.
  rewrite !esc_unfold. unfold esc5.
  rewrite (esc4_cons (Text.chr 226)), (esc4_plain (Text.chr 226)) by reflexivity.
  unfold Text.str1. rewrite app_cons_s, app_nil_s.
  destruct (starts2 (Text.chr 128) (Text.chr 168) s) eqn:H8.
  - rewrite (esc4_starts (Text.chr 128) (Text.chr 168) s eq_refl eq_refl H8), replaceAll3_match.
    by rewrite replaceAll3_app_ne.
  - rewrite replaceAll3_cons_nomatch by (by rewrite esc4_head2).
    destruct (starts2 (Text.chr 128) (Text.chr 169) s) eqn:H9.
    + rewrite (esc4_starts (Text.chr 128) (Text.chr 169) s eq_refl eq_refl H9).
      rewrite !(replaceAll3_cons_ne (Text.chr 226) (Text.chr 128) (Text.chr 168)) by done.
      by rewrite replaceAll3_match.
    + rewrite replaceAll3_cons_nomatch; [done|].
      apply replaceAll3_head2; try done. by rewrite esc4_head2.
Qed.

Lemma unescape_cons_ne a s :
  special a = false ->
  Text.unescape (String a s) = String a <$> Text.unescape s.
Proof.
  intros (H1 & H2 & H3 & H4)%special_false. cbn [Text.unescape].
  unfold Text.ends_literal. by rewrite H1, H2, H3, H4.
Qed.

Lemma drop2_length b c s :
  starts2 b c s = true -> String.length s = S (S (String.length (drop2 s))).
Proof. intros H. by rewrite (starts2_true _ _ _ H) at 1. Qed.

Lemma unescape_u2028 t :
  Text.unescape (String Text.backslash "u2028" +:+ t)
  = String.append (String (Text.chr 226) (String (Text.chr 128) (Text.str1 (Text.chr 168))))
      <$> Text.unescape t.
Proof. reflexivity. Qed.

Lemma unescape_u2029 t :
  Text.unescape (String Text.backslash "u2029" +:+ t)
  = String.append (String (Text.chr 226) (String (Text.chr 128) (Text.str1 (Text.chr 169))))
      <$> Text.unescape t.
Proof. reflexivity. Qed.

(** What [esc] makes of [s], followed by more text of a literal, reads
    as [s] followed by what that text reads as. *)
Lemma unescape_esc_le n :
  forall s, String.length s <= n ->
  forall t, Text.unescape (Text.esc s +:+ t) = String.append s <$> Text.unescape t.
Proof.
  assert (H0 : forall t, Text.unescape (Text.esc "" +:+ t)
                         = String.append "" <$> Text.unescape t).
  { intros t. change (Text.esc "" +:+ t) with t. by destruct (Text.unescape t). }
  induction n as [|n IH]; intros s Hn t.
  { destruct s; [apply H0|simpl in Hn; lia]. }
  destruct s as [|a s]; [apply H0|]. simpl in Hn.
  destruct (special a) eqn:Ha.
  - destruct (esc_special_cons a s Ha) as (x & Hun & ->).
    rewrite !app_cons_s, Hun, IH by lia. by destruct (Text.unescape t).
  - destruct (Ascii.eqb_spec a (Text.chr 226)) as [->|Hne%Ascii.eqb_neq].
    + rewrite esc_E2_cons.
      destruct (starts2 (Text.chr 128) (Text.chr 168) s) eqn:H8.
      { pose proof (drop2_length _ _ _ H8) as Hl.
        rewrite (starts2_true _ _ _ H8) at 2.
        rewrite append_assoc_s, unescape_u2028, IH by lia.
        by destruct (Text.unescape t). }
      destruct (starts2 (Text.chr 128) (Text.chr 169) s) eqn:H9.
      { pose proof (drop2_length _ _ _ H9) as Hl.
        rewrite (starts2_true _ _ _ H9) at 2.
        rewrite append_assoc_s, unescape_u2029, IH by lia.
        by destruct (Text.unescape t). }
      rewrite app_cons_s, unescape_cons_ne by done. rewrite IH by lia.
      by destruct (Text.unescape t).
    + rewrite esc_plain_cons by done.
      rewrite app_cons_s, unescape_cons_ne by done.
      rewrite IH by lia. by destruct (Text.unescape t).
Qed.

Lemma unescape_esc_app s t :
  Text.unescape (Text.esc s +:+ t) = String.append s <$> Text.unescape t.
Proof. by apply (unescape_esc_le (String.length s)). Qed.

(** [esc] round trip: for every text [s], what [esc] returns is the body
    of one well-formed single-quoted string literal (no quote or line
    break is left unescaped, no backslash is left alone), and the parser
    reads that literal back as [s]; this holds with backslashes, quotes,
    line breaks and the separators U+2028 and U+2029 in any place. *)
Theorem unescape_esc s : Text.unescape (Text.esc s) = Some s.
Proof.
  pose proof (unescape_esc_app s "") as H.
  rewrite !app_nil_r_s in H. rewrite H. cbn. by rewrite app_nil_r_s.
Qed.

(** A literal whose body [esc] made evaluates to the text [esc] was
    given. *)
Lemma eval_esc fr s : eval_sexpr fr (XStr (Text.esc s)) = Some s.
Proof.
  cbn [eval_sexpr]. pose proof (unescape_esc_app s "") as H.
  rewrite !app_nil_r_s in H. rewrite H. cbn. by rewrite app_nil_r_s.
Qed.

(** ** One step of [compile], [apply] and [exec] *)

Lemma compile_fresh_inv thunks fuel d w f w' :
  _cache w !! sid d = None ->
  sid d ∉ _building w ->
  compile thunks fuel d w = COk (f, w') ->
  exists k body ctx c w1,
    fuel = S k
    /\ emit thunks k d [] [] 0 (PS "")
         (World (_cache w) ({[sid d]} ∪ _building w) (next_fid w))
       = COk (body, ctx, c, w1)
    /\ syntax_ok body = true
    /\ f = Closure (next_fid w1) body ctx.
Proof.
  intros Hc Hb. unfold compile. rewrite Hc.
  destruct fuel as [|k]; [done|].
  rewrite build_unfold, bool_decide_eq_false_2 by done.
  destruct (emit thunks k d [] [] 0 (PS "") _) as [[[[body ctx] c1] w1]|t w1|] eqn:He;
    [|done..].
  destruct (syntax_ok body) eqn:Hs; [|done]. intros ?; simplify_eq.
  by eexists _, _, _, _, _.
Qed.

Lemma apply_closure cache n fid body ctx arg st :
  apply cache (S n) (Closure fid body ctx) arg st
  = match exec cache n ctx body (init_frame arg) st with
    | Normal fr' st' => Ret (input fr') st'
    | Throw t _ st' => Thrown t st'
    | Break _ _ _ => Aborted Unmodelled
    | Abort a => Aborted a
    end.
Proof. reflexivity. Qed.

Lemma exec_seq cache n ctx ss fr st :
  exec cache (S n) ctx (SSeq ss) fr st = run_seq (exec cache n ctx) ss fr st.
Proof. reflexivity. Qed.

Lemma exec_ifs cache n ctx c s fr st :
  exec cache (S n) ctx (SIfS c s) fr st = branch (exec cache n ctx) fr st c (Some s) None.
Proof. reflexivity. Qed.

Lemma exec_if cache n ctx c s fr st :
  exec cache (S n) ctx (SIf c s) fr st = branch (exec cache n ctx) fr st c (Some s) None.
Proof. reflexivity. Qed.

Lemma exec_ifelse cache n ctx c s1 s2 fr st :
  exec cache (S n) ctx (SIfElse c s1 s2) fr st
  = branch (exec cache n ctx) fr st c (Some s1) (Some s2).
Proof. reflexivity. Qed.

Lemma exec_for cache n ctx v e body fr st :
  exec cache (S n) ctx (SFor v e body) fr st = loop_for cache n ctx v e body 0 fr st.
Proof. reflexivity. Qed.

Lemma exec_switch cache n ctx d cases dflt fr st :
  exec cache (S n) ctx (SSwitch d cases dflt) fr st
  = match eval_disc fr (hp st) d with
    | Ok x => end_switch (run_seq (exec cache n ctx) (from_match x cases ++ [dflt]) fr st)
    | Raise t => Throw t fr st
    | Stop a => Abort a
    end.
Proof. reflexivity. Qed.

Lemma exec_oneof cache n ctx e values dflt fr st :
  exec cache (S n) ctx (SSwitchOneOf e values dflt) fr st
  = match eval_slot fr (hp st) e with
    | Ok x =>
        if existsb (strict_eq x) values then Normal fr st
        else end_switch (exec cache n ctx dflt fr st)
    | Raise t => Throw t fr st
    | Stop a => Abort a
    end.
Proof. reflexivity. Qed.

Lemma exec_set_undef cache n ctx e fr st :
  exec cache (S n) ctx (SSetUndef e) fr st
  = match resolve fr (hp st) e with
    | Ok tg => lift fr st (put fr st tg VUndef)
    | Raise t => Throw t fr st
    | Stop a => Abort a
    end.
Proof. reflexivity. Qed.

(** A throw at the root: the message reaches the caller as it was
    written in the emitter. *)
Lemma exec_throw_root cache n ctx msg fr st :
  exec cache (S n) ctx (throwCode (PS "") msg) fr st = Throw (TError msg) fr st.
Proof.
  unfold throwCode. cbn [nonempty negb String.eqb]. rewrite app_nil_s.
  cbn [exec]. by rewrite eval_esc.
Qed.

Lemma exec_throw_raw cache n ctx msg fr st :
  exec cache (S n) ctx (SThrow (XStr ("" +:+ Text.esc msg))) fr st
  = Throw (TError msg) fr st.
Proof. apply exec_throw_root. Qed.

Lemma branch_true exec' fr st c s1 s2 :
  eval_cond fr (hp st) c = Ok true ->
  branch exec' fr st c (Some s1) s2 = exec' s1 fr st.
Proof. unfold branch. by intros ->. Qed.

Lemma branch_false_none exec' fr st c s1 :
  eval_cond fr (hp st) c = Ok false ->
  branch exec' fr st c s1 None = Normal fr st.
Proof. unfold branch. by intros ->. Qed.

Lemma branch_false_some exec' fr st c s1 s2 :
  eval_cond fr (hp st) c = Ok false ->
  branch exec' fr st c s1 (Some s2) = exec' s2 fr st.
Proof. unfold branch. by intros ->. Qed.

Lemma emit_tuple_unfold thunks k id items e ctx c p w :
  emit thunks (S k) (DTuple id items) e ctx c p w
  = cbind (emit_items (emit thunks k) e p 0 items ctx c w)
      (fun '(parts, ctx1, c1, w1) =>
         COk (SSeq (SIfS (COr (CNotArray e) (CLenNe e (length items)))
                      (throwCode p ("expected tuple of length "
                                    +:+ Text.dec (length items)))
                    :: parts), ctx1, c1, w1)).
Proof. reflexivity. Qed.

Lemma emit_array_unfold thunks k id item e ctx c p w :
  emit thunks (S k) (DArray id item) e ctx c p w
  = cbind (emit thunks k item (e ++ [AVar ("i" +:+ Text.dec c)]) ctx (S c)
             (appendIndex p ("i" +:+ Text.dec c)) w)
      (fun '(inner, ctx1, c1, w1) =>
         COk (SSeq [SIfS (CNotArray e) (throwCode p "expected array");
                    SFor ("i" +:+ Text.dec c) e inner], ctx1, c1, w1)).
Proof. reflexivity. Qed.

Lemma emit_object_unfold thunks k id shape e ctx c p w :
  emit thunks (S k) (DObject id shape) e ctx c p w
  = cbind (emit_fields (emit thunks k) e p None shape ctx c w)
      (fun '(parts, ctx1, c1, w1) =>
         COk (SSeq (SIfS (not_object e) (throwCode p "expected object") :: parts),
              ctx1, c1, w1)).
Proof. reflexivity. Qed.

Lemma emit_record_unfold thunks k id value e ctx c p w :
  emit thunks (S k) (DRecord id value) e ctx c p w
  = cbind (emit thunks k value (e ++ [AVar ("k" +:+ Text.dec c)]) ctx (S c)
             (appendIndex p ("k" +:+ Text.dec c)) w)
      (fun '(inner, ctx1, c1, w1) =>
         COk (SSeq [SIfS (not_object e) (throwCode p "expected object");
                    SForIn ("k" +:+ Text.dec c) e inner], ctx1, c1, w1)).
Proof. reflexivity. Qed.

Lemma emit_maybe_unfold thunks k id inner e ctx c p w :
  emit thunks (S k) (DMaybe id inner) e ctx c p w
  = cbind (emit thunks k inner e ctx c p w)
      (fun '(s, ctx1, c1, w1) =>
         COk (if nonempty (render s)
              then SIfElse (CNotNullish e) s (SSetUndef e)
              else SIf (CIsNull e) (SSetUndef e), ctx1, c1, w1)).
Proof. reflexivity. Qed.

(** ** The container checks *)

Lemma get_length h l es :
  h !! l = Some (OArr es) ->
  get_prop h (VRef l) (KStr "length") = Ok (VNum (int (Z.of_nat (length es)))).
Proof. intros Hl. unfold get_prop. by rewrite Hl. Qed.

Lemma int_eq_nat (a b : nat) :
  strict_eq (VNum (int (Z.of_nat a))) (LNum (Z.of_nat b)) = Nat.eqb a b.
Proof.
  cbn [strict_eq num_eq int]. rewrite !Z.mul_1_r.
  destruct (Nat.eqb_spec a b) as [->|Hne]; [apply Z.eqb_refl|].
  apply Z.eqb_neq. lia.
Qed.

Lemma tuple_cond fr h n :
  eval_cond fr h (COr (CNotArray []) (CLenNe [] n))
  = Ok (not_a_tuple h n (input fr)).
Proof.
  cbn [eval_cond]. unfold on_slot, eval_slot. cbn [eval_from].
  destruct (input fr) as [| | | | | |l]; try done.
  unfold isArray, not_a_tuple. destruct (h !! l) as [[ps|es]|] eqn:Hl; try done.
  cbn [negb]. by rewrite (get_length _ _ _ Hl), int_eq_nat.
Qed.

Lemma not_object_cond fr h :
  (not_an_object h (input fr) = true -> eval_cond fr h (not_object []) = Ok true)
  /\ (forall l ps, input fr = VRef l -> h !! l = Some (OObj ps) ->
        eval_cond fr h (not_object []) = Ok false).
Proof.
  unfold not_object. cbn [eval_cond]. unfold on_slot, eval_slot. cbn [eval_from].
  split.
  - destruct (input fr) as [| | | | | |l]; try done.
    unfold not_an_object, isArray. cbn [typeof negb String.eqb].
    change (String.eqb "object" "object") with true. cbn [negb].
    by destruct (h !! l) as [[ps|es]|].
  - intros l ps -> Hl. unfold isArray. rewrite Hl. reflexivity.
Qed.

(** A tuple validator rejects everything that is not an array of
    exactly the declared number of elements, before it looks at any
    element, with the declared length in the message; [tuple()] accepts
    the empty array. *)
Theorem tuple_length_checked thunks fuel id items w f w' cache n arg st :
  _cache w !! id = None ->
  id ∉ _building w ->
  compile thunks fuel (DTuple id items) w = COk (f, w') ->
  (not_a_tuple (hp st) (length items) arg = true ->
   apply cache (4 + n) f arg st
   = Thrown (TError ("expected tuple of length " +:+ Text.dec (length items))) st)
  /\ (items = [] -> not_a_tuple (hp st) 0 arg = false ->
      apply cache (4 + n) f arg st = Ret arg st).
Proof.
  intros Hc Hb Hcomp.
  destruct (compile_fresh_inv thunks fuel (DTuple id items) w f w' Hc Hb Hcomp)
    as (k & body & ctx & c & w1 & -> & He & _ & ->).
  destruct k as [|k]; [done|]. rewrite emit_tuple_unfold in He.
  destruct (emit_items _ [] (PS "") 0 items [] 0 _) as [[[[parts ctx1] c1] w2]|t w2|] eqn:Hi;
    [|done..].
  cbn [cbind] in He. simplify_eq.
  change (4 + n) with (S (S (S (S n)))). rewrite apply_closure, exec_seq.
  cbn [run_seq]. rewrite exec_ifs. unfold branch. rewrite tuple_cond.
  cbn [init_frame input]. split.
  - intros ->. by rewrite exec_throw_raw.
  - intros -> Hn. cbn [length]. rewrite Hn. cbn [emit_items] in Hi. by simplify_eq.
Qed.

Lemma tuple_length_checked_witness :
  exists f w',
    compile Scenario.no_thunks 5 (DTuple 7 [string_; integer]) init_world = COk (f, w')
    /\ (not_a_tuple [] 2 (VStr "x") = true ->
        apply ∅ 4 f (VStr "x") (empty_store [])
        = Thrown (TError ("expected tuple of length " +:+ Text.dec 2)) (empty_store []))
    /\ ([string_; integer] = [] -> not_a_tuple [] 0 (VStr "x") = false ->
        apply ∅ 4 f (VStr "x") (empty_store []) = Ret (VStr "x") (empty_store [])).
Proof.
  destruct (compile Scenario.no_thunks 5 (DTuple 7 [string_; integer]) init_world)
    as [[f w']|t w'|] eqn:Hc; [|by vm_compute in Hc..].
  exists f, w'. split; [done|].
  exact (tuple_length_checked Scenario.no_thunks 5 7 [string_; integer] init_world
           f w' ∅ 0 (VStr "x") (empty_store [])
           ltac:(reflexivity) ltac:(vm_compute; set_solver) Hc).
Defined.

Lemma exec_forin cache n ctx v e body fr st :
  exec cache (S n) ctx (SForIn v e body) fr st
  = match eval_slot fr (hp st) e with
    | Ok o =>
        match keys_of (hp st) o with
        | Ok ks => forin_each (exec cache n ctx) v body (lvars fr) ks fr st
        | Raise t => Throw t fr st
        | Stop a => Abort a
        end
    | Raise t => Throw t fr st
    | Stop a => Abort a
    end.
Proof. reflexivity. Qed.

Lemma loop_for_unfold cache n ctx v e body i fr st :
  loop_for cache (S n) ctx v e body i fr st
  = match eval_slot fr (hp st) e with
    | Ok a =>
        match length_of (hp st) a with
        | Ok (Some len) =>
            if Nat.ltb i len then
              match exec cache n ctx body (set_lvars fr ((v, KIdx i) :: lvars fr)) st with
              | Normal fr' st' =>
                  loop_for cache n ctx v e body (S i) (set_lvars fr' (lvars fr)) st'
              | Break None fr' st' => Normal (set_lvars fr' (lvars fr)) st'
              | o => o
              end
            else Normal fr st
        | Ok None => Normal fr st
        | Raise t => Throw t fr st
        | Stop a => Abort a
        end
    | Raise t => Throw t fr st
    | Stop a => Abort a
    end.
Proof. reflexivity. Qed.

Lemma not_array_cond fr h :
  eval_cond fr h (CNotArray []) = Ok (negb (isArray h (input fr))).
Proof. reflexivity. Qed.

(** An array validator rejects what is not an array with ["expected
    array"] before it looks at any element, and accepts the empty array
    whatever the item descriptor is. *)
Theorem array_checks_container thunks fuel id item w f w' cache n arg st :
  _cache w !! id = None ->
  id ∉ _building w ->
  compile thunks fuel (DArray id item) w = COk (f, w') ->
  (isArray (hp st) arg = false ->
   apply cache (4 + n) f arg st = Thrown (TError "expected array") st)
  /\ (forall l, arg = VRef l -> hp st !! l = Some (OArr []) ->
      apply cache (4 + n) f arg st = Ret arg st).
Proof.
  intros Hc Hb Hcomp.
  destruct (compile_fresh_inv thunks fuel (DArray id item) w f w' Hc Hb Hcomp)
    as (k & body & ctx & c & w1 & -> & He & _ & ->).
  destruct k as [|k]; [done|]. rewrite emit_array_unfold in He.
  destruct (emit thunks k item _ [] 1 _ _) as [[[[inner ctx1] c1] w2]|t w2|] eqn:Hi;
    [|done..].
  cbn [cbind] in He. simplify_eq.
  change (4 + n) with (S (S (S (S n)))). rewrite apply_closure, exec_seq.
  cbn [run_seq]. rewrite exec_ifs. unfold branch. rewrite not_array_cond.
  cbn [init_frame input]. split.
  - intros ->. cbn [negb]. by rewrite exec_throw_raw.
  - intros l -> Hl. unfold isArray. rewrite Hl. cbn [negb].
    rewrite exec_for, loop_for_unfold. unfold eval_slot.
    cbn [eval_from init_frame input length_of]. by rewrite Hl.
Qed.

Lemma array_checks_container_witness :
  exists f w',
    compile Scenario.no_thunks 5 Scenario.strings_a init_world = COk (f, w')
    /\ (isArray [OArr []] (VRef 0) = false ->
        apply ∅ 4 f (VRef 0) (empty_store [OArr []])
        = Thrown (TError "expected array") (empty_store [OArr []]))
    /\ (forall l, VRef 0 = VRef l -> [OArr []] !! l = Some (OArr []) ->
        apply ∅ 4 f (VRef 0) (empty_store [OArr []])
        = Ret (VRef 0) (empty_store [OArr []])).
Proof.
  destruct (compile Scenario.no_thunks 5 Scenario.strings_a init_world)
    as [[f w']|t w'|] eqn:Hc; [|by vm_compute in Hc..].
  exists f, w'. split; [done|].
  exact (array_checks_container Scenario.no_thunks 5 90 string_ init_world
           f w' ∅ 0 (VRef 0) (empty_store [OArr []])
           ltac:(reflexivity) ltac:(vm_compute; set_solver) Hc).
Defined.

(** An object validator rejects primitives, [null], [undefined] and
    arrays with ["expected object"] before it looks at any field, and
    [object({})] accepts every plain object, whatever keys it has,
    leaving it as it is. *)
Theorem object_checks_container thunks fuel id shape w f w' cache n arg st :
  _cache w !! id = None ->
  id ∉ _building w ->
  compile thunks fuel (DObject id shape) w = COk (f, w') ->
  (not_an_object (hp st) arg = true ->
   apply cache (4 + n) f arg st = Thrown (TError "expected object") st)
  /\ (forall l ps, shape = [] -> arg = VRef l -> hp st !! l = Some (OObj ps) ->
      apply cache (4 + n) f arg st = Ret arg st).
Proof.
  intros Hc Hb Hcomp.
  destruct (compile_fresh_inv thunks fuel (DObject id shape) w f w' Hc Hb Hcomp)
    as (k & body & ctx & c & w1 & -> & He & _ & ->).
  destruct k as [|k]; [done|]. rewrite emit_object_unfold in He.
  destruct (emit_fields _ [] (PS "") None shape [] 0 _) as [[[[parts ctx1] c1] w2]|t w2|] eqn:Hi;
    [|done..].
  cbn [cbind] in He. simplify_eq.
  change (4 + n) with (S (S (S (S n)))). rewrite apply_closure, exec_seq.
  cbn [run_seq]. rewrite exec_ifs.
  pose proof (not_object_cond (init_frame arg) (hp st)) as [Hno Hobj].
  cbn [init_frame input] in Hno, Hobj. split.
  - intros Hn. rewrite (branch_true _ _ _ _ _ _ (Hno Hn)). by rewrite exec_throw_raw.
  - intros l ps -> -> Hl. rewrite (branch_false_none _ _ _ _ _ (Hobj l ps eq_refl Hl)).
    cbn [emit_fields] in Hi. by simplify_eq.
Qed.

Lemma object_checks_container_witness :
  exists f w',
    compile Scenario.no_thunks 5 (DObject 7 []) init_world = COk (f, w')
    /\ (not_an_object [OObj [("extra", VNull)]] (VRef 0) = true ->
        apply ∅ 4 f (VRef 0) (empty_store [OObj [("extra", VNull)]])
        = Thrown (TError "expected object") (empty_store [OObj [("extra", VNull)]]))
    /\ (forall l ps, @nil (string * Schema) = [] -> VRef 0 = VRef l ->
        [OObj [("extra", VNull)]] !! l = Some (OObj ps) ->
        apply ∅ 4 f (VRef 0) (empty_store [OObj [("extra", VNull)]])
        = Ret (VRef 0) (empty_store [OObj [("extra", VNull)]])).
Proof.
  destruct (compile Scenario.no_thunks 5 (DObject 7 []) init_world)
    as [[f w']|t w'|] eqn:Hc; [|by vm_compute in Hc..].
  exists f, w'. split; [done|].
  exact (object_checks_container Scenario.no_thunks 5 7 [] init_world
           f w' ∅ 0 (VRef 0) (empty_store [OObj [("extra", VNull)]])
           ltac:(reflexivity) ltac:(vm_compute; set_solver) Hc).
Defined.

(** A record validator rejects primitives, [null], [undefined] and
    arrays with ["expected object"], and accepts the object without
    keys whatever the value descriptor is. *)
Theorem record_checks_container thunks fuel id value w f w' cache n arg st :
  _cache w !! id = None ->
  id ∉ _building w ->
  compile thunks fuel (DRecord id value) w = COk (f, w') ->
  (not_an_object (hp st) arg = true ->
   apply cache (4 + n) f arg st = Thrown (TError "expected object") st)
  /\ (forall l, arg = VRef l -> hp st !! l = Some (OObj []) ->
      apply cache (4 + n) f arg st = Ret arg st).
Proof.
  intros Hc Hb Hcomp.
  destruct (compile_fresh_inv thunks fuel (DRecord id value) w f w' Hc Hb Hcomp)
    as (k & body & ctx & c & w1 & -> & He & _ & ->).
  destruct k as [|k]; [done|]. rewrite emit_record_unfold in He.
  destruct (emit thunks k value _ [] 1 _ _) as [[[[inner ctx1] c1] w2]|t w2|] eqn:Hi;
    [|done..].
  cbn [cbind] in He. simplify_eq.
  change (4 + n) with (S (S (S (S n)))). rewrite apply_closure, exec_seq.
  cbn [run_seq]. rewrite exec_ifs.
  pose proof (not_object_cond (init_frame arg) (hp st)) as [Hno Hobj].
  cbn [init_frame input] in Hno, Hobj. split.
  - intros Hn. rewrite (branch_true _ _ _ _ _ _ (Hno Hn)). by rewrite exec_throw_raw.
  - intros l -> Hl. rewrite (branch_false_none _ _ _ _ _ (Hobj l [] eq_refl Hl)).
    rewrite exec_forin. unfold eval_slot. cbn [eval_from init_frame input keys_of].
    by rewrite Hl.
Qed.

Lemma record_checks_container_witness :
  exists f w',
    compile Scenario.no_thunks 5 (DRecord 7 boolean) init_world = COk (f, w')
    /\ (not_an_object [] VNull = true ->
        apply ∅ 4 f VNull (empty_store [])
        = Thrown (TError "expected object") (empty_store []))
    /\ (forall l, VNull = VRef l -> [] !! l = Some (OObj []) ->
        apply ∅ 4 f VNull (empty_store []) = Ret VNull (empty_store [])).
Proof.
  destruct (compile Scenario.no_thunks 5 (DRecord 7 boolean) init_world)
    as [[f w']|t w'|] eqn:Hc; [|by vm_compute in Hc..].
  exists f, w'. split; [done|].
  exact (record_checks_container Scenario.no_thunks 5 7 boolean init_world
           f w' ∅ 0 VNull (empty_store [])
           ltac:(reflexivity) ltac:(vm_compute; set_solver) Hc).
Defined.

(** ** Primitives, literals and enumerations *)

Lemma nonempty_app a b : nonempty (a +:+ b) = nonempty a || nonempty b.
Proof. destruct a; [destruct b|]; reflexivity. Qed.

(** The check of a primitive at any slot: nothing happens when the
    value is accepted, and the throw of the primitive's message runs
    otherwise. *)
Lemma exec_prim_check thunks k id t e ctx c p w s ctx1 c1 w1 cache n ctx' fr st v :
  emit thunks (S k) (DPrim id t) e ctx c p w = COk (s, ctx1, c1, w1) ->
  eval_slot fr (hp st) e = Ok v ->
  exec cache (S (S n)) ctx' s fr st
  = if prim_accepts t v then Normal fr st
    else exec cache (S n) ctx' (throwCode p (prim_message t)) fr st.
Proof.
  intros He Hv.
  destruct t; simpl in He; simplify_eq; rewrite exec_ifs; unfold branch;
    cbn [eval_cond prim_accepts prim_message]; unfold on_slot; rewrite Hv.
  - by destruct (String.eqb (typeof v) "string").
  - by destruct (String.eqb (typeof v) "boolean").
  - by destruct v as [| | |[| |]| | |].
  - destruct v as [| | |x| | |]; try done. cbn [typeof String.eqb negb].
    change (("number" =? "number")%string) with true. cbn [negb].
    by destruct (isInteger (VNum x)).
  - by destruct (String.eqb (typeof v) "bigint").
Qed.

(** A primitive validator accepts exactly the values of its kind and
    returns them as they are; on any other value it throws its own
    message.  [number] rejects [NaN] and the infinities, [integer]
    rejects every number that is not an integer. *)
Theorem primitive_validator thunks fuel id t w f w' cache n arg st :
  _cache w !! id = None ->
  id ∉ _building w ->
  compile thunks fuel (DPrim id t) w = COk (f, w') ->
  apply cache (4 + n) f arg st
  = if prim_accepts t arg then Ret arg st
    else Thrown (TError (prim_message t)) st.
Proof.
  intros Hc Hb Hcomp.
  destruct (compile_fresh_inv thunks fuel (DPrim id t) w f w' Hc Hb Hcomp)
    as (k & body & ctx & c & w1 & -> & He & _ & ->).
  destruct k as [|k]; [done|].
  change (4 + n) with (S (S (S (S n)))). rewrite apply_closure.
  rewrite (exec_prim_check _ _ _ _ _ _ _ _ _ _ _ _ _ _ (S n) _ (init_frame arg) st arg
             He eq_refl).
  destruct (prim_accepts t arg); [done|]. by rewrite exec_throw_root.
Qed.

Lemma primitive_validator_witness :
  exists f w',
    compile Scenario.no_thunks 5 number init_world = COk (f, w')
    /\ apply ∅ 4 f (VNum NaN) (empty_store [])
       = if prim_accepts PNumber (VNum NaN) then Ret (VNum NaN) (empty_store [])
         else Thrown (TError (prim_message PNumber)) (empty_store []).
Proof.
  destruct (compile Scenario.no_thunks 5 number init_world)
    as [[f w']|t w'|] eqn:Hc; [|by vm_compute in Hc..].
  exists f, w'. split; [done|].
  exact (primitive_validator Scenario.no_thunks 5 2 PNumber init_world
           f w' ∅ 0 (VNum NaN) (empty_store [])
           ltac:(reflexivity) ltac:(vm_compute; set_solver) Hc).
Defined.

(** A literal validator compares its input with the literal that
    [JSON.stringify] writes for its value: it returns the input as it
    is when the two are strictly equal, and otherwise throws
    ["expected "] followed by the text of the value.  For a string, a
    safe integer, a boolean and [null] that literal is the value itself.
    For [NaN] and the infinities it is [null]: [literal(NaN)] accepts
    [null] and nothing else, and says ["expected NaN"]. *)
Theorem literal_validator thunks fuel id value w f w' cache n arg st :
  _cache w !! id = None ->
  id ∉ _building w ->
  compile thunks fuel (DLiteral id value) w = COk (f, w') ->
  apply cache (4 + n) f arg st
  = if strict_eq arg (stringify value) then Ret arg st
    else Thrown (TError ("expected " +:+ text_of value)) st.
Proof.
  intros Hc Hb Hcomp.
  destruct (compile_fresh_inv thunks fuel (DLiteral id value) w f w' Hc Hb Hcomp)
    as (k & body & ctx & c & w1 & -> & He & _ & ->).
  destruct k as [|k]; [done|]. simpl in He. simplify_eq.
  change (4 + n) with (S (S (S (S n)))). rewrite apply_closure, exec_ifs.
  unfold branch. cbn [eval_cond]. unfold on_slot, eval_slot.
  cbn [eval_from init_frame input].
  destruct (strict_eq arg (stringify value)); cbn [negb]; [done|].
  rewrite exec_throw_raw. by destruct value.
Qed.

Lemma literal_validator_witness :
  exists f w',
    compile Scenario.no_thunks 5 (DLiteral 7 JNaN) init_world = COk (f, w')
    /\ apply ∅ 4 f VNull (empty_store [])
       = if strict_eq VNull (stringify JNaN) then Ret VNull (empty_store [])
         else Thrown (TError ("expected " +:+ text_of JNaN)) (empty_store []).
Proof.
  destruct (compile Scenario.no_thunks 5 (DLiteral 7 JNaN) init_world)
    as [[f w']|t w'|] eqn:Hc; [|by vm_compute in Hc..].
  exists f, w'. split; [done|].
  exact (literal_validator Scenario.no_thunks 5 7 JNaN init_world
           f w' ∅ 0 VNull (empty_store [])
           ltac:(reflexivity) ltac:(vm_compute; set_solver) Hc).
Defined.

(** A [oneOf] validator that compiles compares its input with the
    literals that [JSON.stringify] writes for its values ([null] for
    [NaN] and the infinities): it returns the input as it is when it is
    strictly equal to one of them, and otherwise throws
    ["expected one of: "] followed by the texts of the values joined by
    [", "]. *)
Theorem oneof_validator thunks fuel id values w f w' cache n arg st :
  _cache w !! id = None ->
  id ∉ _building w ->
  compile thunks fuel (DOneOf id values) w = COk (f, w') ->
  apply cache (4 + n) f arg st
  = if existsb (strict_eq arg) (map stringify values) then Ret arg st
    else Thrown (TError ("expected one of: "
                         +:+ Text.join ", " (map join_text values))) st.
Proof.
  intros Hc Hb Hcomp.
  destruct (compile_fresh_inv thunks fuel (DOneOf id values) w f w' Hc Hb Hcomp)
    as (k & body & ctx & c & w1 & -> & He & _ & ->).
  destruct k as [|k]; [done|]. simpl in He. simplify_eq.
  change (4 + n) with (S (S (S (S n)))). rewrite apply_closure, exec_oneof.
  unfold eval_slot. cbn [eval_from init_frame input].
  destruct (existsb (strict_eq arg) (map stringify values)); [done|].
  by rewrite exec_throw_raw.
Qed.

Lemma oneof_validator_witness :
  exists f w',
    compile Scenario.no_thunks 5 (DOneOf 7 Scenario.a_or_nan) init_world = COk (f, w')
    /\ apply ∅ 4 f (VStr "b") (empty_store [])
       = if existsb (strict_eq (VStr "b")) (map stringify Scenario.a_or_nan)
         then Ret (VStr "b") (empty_store [])
         else Thrown (TError ("expected one of: "
                              +:+ Text.join ", " (map join_text Scenario.a_or_nan)))
                (empty_store []).
Proof.
  destruct (compile Scenario.no_thunks 5 (DOneOf 7 Scenario.a_or_nan) init_world)
    as [[f w']|t w'|] eqn:Hc; [|by vm_compute in Hc..].
  exists f, w'. split; [done|].
  exact (oneof_validator Scenario.no_thunks 5 7 Scenario.a_or_nan init_world
           f w' ∅ 0 (VStr "b") (empty_store [])
           ltac:(reflexivity) ltac:(vm_compute; set_solver) Hc).
Defined.

(** ** [maybe] *)

Lemma join_cons_nonempty sep x xs :
  nonempty x = true -> nonempty (Text.join sep (x :: xs)) = true.
Proof.
  intros Hx. unfold Text.join. destruct xs as [|y ys]; [done|].
  cbn [String.concat]. change (nonempty (x +:+ sep +:+ String.concat sep (y :: ys)) = true).
  by rewrite nonempty_app, Hx.
Qed.

Lemma join_two_nonempty x y : nonempty (Text.join ";" [x; y]) = true.
Proof.
  unfold Text.join. cbn [String.concat]. change (nonempty (x +:+ ";" +:+ y) = true).
  rewrite nonempty_app. change (nonempty (";" +:+ y)) with true. apply orb_true_r.
Qed.

(** No template of [emit] is the empty text. *)
Lemma emit_nonempty thunks fuel d e ctx c p w s ctx1 c1 w1 :
  emit thunks fuel d e ctx c p w = COk (s, ctx1, c1, w1) ->
  nonempty (render s) = true.
Proof.
  destruct fuel as [|fuel]; [done|].
  destruct d as [id [| | | |]|id value|id values|id inner|id item|id shape|id items
                |id value|id variants|id inner fn|id inner fn message|id inner fn
                |id thunk]; simpl; intros He;
    repeat match type of He with
      | context [cbind ?r _] => destruct r as [[[[? ?] ?] ?]|? ?|]; simpl in He
      end; simplify_eq; try reflexivity.
  - match goal with
    | |- context [if ?b then _ else _] => destruct b; reflexivity
    end.
  - cbn [render map]. by apply join_cons_nonempty.
  - cbn [render map]. by apply join_cons_nonempty.
  - destruct (typeof_map variants []); simplify_eq; [reflexivity|].
    destruct (find_disc_of variants) as [[key discMap]|]; simpl in He.
    + destruct (emit_cases _ e p key discMap ctx c w) as [[[[? ?] ?] ?]|? ?|];
        simpl in He; simplify_eq. reflexivity.
    + destruct (build_variants _ variants ctx w) as [[[? ?] ?]|? ?|];
        simpl in He; simplify_eq. reflexivity.
  - cbn [render map]. apply join_two_nonempty.
  - cbn [render map]. apply join_two_nonempty.
  - destruct (build thunks fuel (thunks thunk) w) as [[? ?]|? ?|];
      simpl in He; simplify_eq. reflexivity.
Qed.

(** The statement [maybe] emits, given what it emits for the inner
    descriptor. *)
Lemma emit_maybe_inv thunks fuel id inner e ctx c p w s ctx1 c1 w1 :
  emit thunks fuel (DMaybe id inner) e ctx c p w = COk (s, ctx1, c1, w1) ->
  exists k s1,
    fuel = S k
    /\ emit thunks k inner e ctx c p w = COk (s1, ctx1, c1, w1)
    /\ s = SIfElse (CNotNullish e) s1 (SSetUndef e).
Proof.
  destruct fuel as [|k]; [done|]. rewrite emit_maybe_unfold.
  destruct (emit thunks k inner e ctx c p w) as [[[[s1 ctx2] c2] w2]|t w2|] eqn:Hi;
    [|done..].
  cbn [cbind]. rewrite (emit_nonempty _ _ _ _ _ _ _ _ _ _ _ _ Hi).
  intros ?; simplify_eq. by exists k, s1.
Qed.

(** The text of [maybe] is always the guarded form
    [if(e!=null){inner}else{e=undefined}], at every slot [e]: the other
    template of the source, [if(e===null){e=undefined}], which would
    leave the inner check out, is never emitted, because no inner text
    is empty. *)
Theorem maybe_always_guarded thunks fuel id inner e ctx c p w s ctx1 c1 w1 :
  emit thunks fuel (DMaybe id inner) e ctx c p w = COk (s, ctx1, c1, w1) ->
  exists k s1,
    fuel = S k
    /\ emit thunks k inner e ctx c p w = COk (s1, ctx1, c1, w1)
    /\ render s = "if(" +:+ render_slot e +:+ "!=null){" +:+ render s1
                  +:+ "}else{" +:+ render_slot e +:+ "=undefined}".
Proof.
  intros (k & s1 & -> & Hi & ->)%emit_maybe_inv. exists k, s1.
  split; [done|]. split; [done|]. cbn [render render_cond].
  by rewrite !append_assoc_s.
Qed.

Lemma maybe_always_guarded_witness :
  exists s ctx1 c1 w1 k s1,
    emit Scenario.no_thunks 2 (DMaybe 7 string_) [] [] 0 (PS "") init_world
    = COk (s, ctx1, c1, w1)
    /\ 2 = S k
    /\ emit Scenario.no_thunks k string_ [] [] 0 (PS "") init_world
       = COk (s1, ctx1, c1, w1)
    /\ render s = "if(" +:+ render_slot [] +:+ "!=null){" +:+ render s1
                  +:+ "}else{" +:+ render_slot [] +:+ "=undefined}".
Proof.
  destruct (emit Scenario.no_thunks 2 (DMaybe 7 string_) [] [] 0 (PS "") init_world)
    as [[[[s ctx1] c1] w1]|t w1|] eqn:He; [|by vm_compute in He..].
  exists s, ctx1, c1, w1.
  destruct (maybe_always_guarded _ _ _ _ _ _ _ _ _ _ _ _ _ He) as (k & s1 & H).
  exists k, s1. split; [done|]. exact H.
Defined.

(** A [maybe] validator turns [null] and [undefined] into [undefined]
    without running the inner validator, whatever the inner descriptor
    is. *)
Theorem maybe_absent_is_undefined thunks fuel id inner w f w' cache n arg st :
  _cache w !! id = None ->
  id ∉ _building w ->
  compile thunks fuel (DMaybe id inner) w = COk (f, w') ->
  nullish arg = true ->
  apply cache (4 + n) f arg st = Ret VUndef st.
Proof.
  intros Hc Hb Hcomp Hn.
  destruct (compile_fresh_inv thunks fuel (DMaybe id inner) w f w' Hc Hb Hcomp)
    as (k & body & ctx & c & w1 & -> & He & _ & ->).
  destruct (emit_maybe_inv _ _ _ _ _ _ _ _ _ _ _ _ _ He) as (k' & s1 & -> & _ & ->).
  change (4 + n) with (S (S (S (S n)))). rewrite apply_closure, exec_ifelse.
  unfold branch. cbn [eval_cond]. unfold on_slot, eval_slot.
  cbn [eval_from init_frame input]. rewrite Hn. cbn [negb].
  rewrite exec_set_undef. reflexivity.
Qed.

Lemma maybe_absent_is_undefined_witness :
  exists f w',
    compile Scenario.no_thunks 5 (DMaybe 7 string_) init_world = COk (f, w')
    /\ nullish VNull = true
    /\ apply ∅ 4 f VNull (empty_store []) = Ret VUndef (empty_store []).
Proof.
  destruct (compile Scenario.no_thunks 5 (DMaybe 7 string_) init_world)
    as [[f w']|t w'|] eqn:Hc; [|by vm_compute in Hc..].
  exists f, w'. split; [done|]. split; [reflexivity|].
  exact (maybe_absent_is_undefined Scenario.no_thunks 5 7 string_ init_world
           f w' ∅ 0 VNull (empty_store [])
           ltac:(reflexivity) ltac:(vm_compute; set_solver) Hc ltac:(reflexivity)).
Defined.

(** ** User functions: [transform], [refine], [preprocess] *)

Lemma emit_transform_unfold thunks k id inner fn e ctx c p w :
  emit thunks (S k) (DTransform id inner fn) e ctx c p w
  = cbind (emit thunks k inner e ctx c p w)
      (fun '(s, ctx1, c1, w1) =>
         COk (SSeq [s; SCallSet e (length ctx1)], ctx1 ++ [CUser fn], c1, w1)).
Proof. reflexivity. Qed.

Lemma emit_refine_unfold thunks k id inner fn message e ctx c p w :
  emit thunks (S k) (DRefine id inner fn message) e ctx c p w
  = cbind (emit thunks k inner e ctx c p w)
      (fun '(s, ctx1, c1, w1) =>
         COk (SSeq [s; SIfNotCall (length ctx1) e
                         (throwCode p (default "refinement failed" message))],
              ctx1 ++ [CUser fn], c1, w1)).
Proof. reflexivity. Qed.

Lemma emit_preprocess_unfold thunks k id inner fn e ctx c p w :
  emit thunks (S k) (DPreprocess id inner fn) e ctx c p w
  = cbind (emit thunks k inner e (ctx ++ [CUser fn]) c p w)
      (fun '(s, ctx1, c1, w1) => COk (SSeq [SCallSet e (length ctx); s], ctx1, c1, w1)).
Proof. reflexivity. Qed.

Lemma emit_prim_inv thunks k id t e ctx c p w s ctx1 c1 w1 :
  emit thunks k (DPrim id t) e ctx c p w = COk (s, ctx1, c1, w1) ->
  ctx1 = ctx /\ exists k', k = S k'.
Proof.
  destruct k as [|k']; [done|]. intros He. split; [|by exists k'].
  destruct t; simpl in He; by simplify_eq.
Qed.

Lemma exec_call_set cache n ctx e idx fr st :
  exec cache (S n) ctx (SCallSet e idx) fr st
  = call_set (call cache n) ctx fr st e idx (eval_slot fr (hp st) e).
Proof. reflexivity. Qed.

Lemma exec_if_not_call cache n ctx idx e s1 fr st :
  exec cache (S n) ctx (SIfNotCall idx e s1) fr st
  = match eval_slot fr (hp st) e with
    | Ok a =>
        match call cache n (ctx !! idx) a st with
        | Ret r st' => if truthy r then Normal fr st' else exec cache n ctx s1 fr st'
        | Thrown t st' => Throw t fr st'
        | Aborted a => Abort a
        end
    | Raise t => Throw t fr st
    | Stop a => Abort a
    end.
Proof. reflexivity. Qed.

Lemma call_user cache n g arg st :
  call cache (S n) (Some (CUser g)) arg st = user_call g st arg.
Proof. reflexivity. Qed.

(** [transform] of a primitive: the function is called on the values
    the primitive accepts, and its result (or what it throws) is the
    validator's; on any other value the primitive's message is thrown
    and the function is not called. *)
Theorem transform_after_check thunks fuel id id' t fn w f w' cache n arg st :
  _cache w !! id = None ->
  id ∉ _building w ->
  compile thunks fuel (DTransform id (DPrim id' t) fn) w = COk (f, w') ->
  apply cache (4 + n) f arg st
  = if prim_accepts t arg then user_call fn st arg
    else Thrown (TError (prim_message t)) st.
Proof.
  intros Hc Hb Hcomp.
  destruct (compile_fresh_inv thunks fuel (DTransform id (DPrim id' t) fn) w f w'
              Hc Hb Hcomp) as (k & body & ctx & c & w1 & -> & He & _ & ->).
  destruct k as [|k]; [done|]. rewrite emit_transform_unfold in He.
  destruct (emit thunks k (DPrim id' t) [] [] 0 (PS "") _)
    as [[[[s ctx1] c1] w2]|t' w2|] eqn:Hi; [|done..].
  cbn [cbind] in He. simplify_eq.
  destruct (emit_prim_inv _ _ _ _ _ _ _ _ _ _ _ _ _ Hi) as [-> [k' ->]].
  change (4 + n) with (S (S (S (S n)))). rewrite apply_closure, exec_seq.
  cbn [run_seq].
  rewrite (exec_prim_check _ _ _ _ _ _ _ _ _ _ _ _ _ _ n _ (init_frame arg) st arg
             Hi eq_refl).
  destruct (prim_accepts t arg).
  - rewrite exec_call_set. unfold call_set, resolve, eval_slot.
    cbn [last eval_from init_frame input length app lookup list_lookup].
    rewrite call_user. unfold user_call.
    by destruct (fn (hp st) arg) as [h' [r|t']].
  - by rewrite exec_throw_root.
Qed.

Lemma transform_after_check_witness :
  exists f w',
    compile Scenario.no_thunks 5 Scenario.length_schema init_world = COk (f, w')
    /\ apply ∅ 4 f (VStr "abc") (empty_store [])
       = if prim_accepts PString (VStr "abc")
         then user_call Scenario.str_length (empty_store []) (VStr "abc")
         else Thrown (TError (prim_message PString)) (empty_store []).
Proof.
  destruct (compile Scenario.no_thunks 5 Scenario.length_schema init_world)
    as [[f w']|t w'|] eqn:Hc; [|by vm_compute in Hc..].
  exists f, w'. split; [done|].
  exact (transform_after_check Scenario.no_thunks 5 70 0 PString Scenario.str_length
           init_world f w' ∅ 0 (VStr "abc") (empty_store [])
           ltac:(reflexivity) ltac:(vm_compute; set_solver) Hc).
Defined.

(** [refine] of a primitive: the predicate is called on the values the
    primitive accepts; a truthy result accepts the value as it is, a
    falsy one throws the given message, or ["refinement failed"] when
    none was given.  On any other value the primitive's message is
    thrown and the predicate is not called. *)
Theorem refine_after_check thunks fuel id id' t fn message w f w' cache n arg st :
  _cache w !! id = None ->
  id ∉ _building w ->
  compile thunks fuel (DRefine id (DPrim id' t) fn message) w = COk (f, w') ->
  apply cache (4 + n) f arg st
  = if prim_accepts t arg then
      match user_call fn st arg with
      | Ret r st' =>
          if truthy r then Ret arg st'
          else Thrown (TError (default "refinement failed" message)) st'
      | o => o
      end
    else Thrown (TError (prim_message t)) st.
Proof.
  intros Hc Hb Hcomp.
  destruct (compile_fresh_inv thunks fuel (DRefine id (DPrim id' t) fn message) w f w'
              Hc Hb Hcomp) as (k & body & ctx & c & w1 & -> & He & _ & ->).
  destruct k as [|k]; [done|]. rewrite emit_refine_unfold in He.
  destruct (emit thunks k (DPrim id' t) [] [] 0 (PS "") _)
    as [[[[s ctx1] c1] w2]|t' w2|] eqn:Hi; [|done..].
  cbn [cbind] in He. simplify_eq.
  destruct (emit_prim_inv _ _ _ _ _ _ _ _ _ _ _ _ _ Hi) as [-> [k' ->]].
  change (4 + n) with (S (S (S (S n)))). rewrite apply_closure, exec_seq.
  cbn [run_seq].
  rewrite (exec_prim_check _ _ _ _ _ _ _ _ _ _ _ _ _ _ n _ (init_frame arg) st arg
             Hi eq_refl).
  destruct (prim_accepts t arg).
  - rewrite exec_if_not_call. unfold eval_slot.
    cbn [eval_from init_frame input length app lookup list_lookup].
    rewrite call_user.
    destruct (user_call fn st arg) as [r st'|t' st'|a]; [|done..].
    destruct (truthy r); [done|]. by rewrite exec_throw_raw.
  - by rewrite exec_throw_root.
Qed.

Lemma refine_after_check_witness :
  exists f w',
    compile Scenario.no_thunks 5 (DRefine 7 string_ Scenario.str_length None) init_world
    = COk (f, w')
    /\ apply ∅ 4 f (VStr "") (empty_store [])
       = if prim_accepts PString (VStr "") then
           match user_call Scenario.str_length (empty_store []) (VStr "") with
           | Ret r st' =>
               if truthy r then Ret (VStr "") st'
               else Thrown (TError (default "refinement failed" None)) st'
           | o => o
           end
         else Thrown (TError (prim_message PString)) (empty_store []).
Proof.
  destruct (compile Scenario.no_thunks 5 (DRefine 7 string_ Scenario.str_length None)
              init_world) as [[f w']|t w'|] eqn:Hc; [|by vm_compute in Hc..].
  exists f, w'. split; [done|].
  exact (refine_after_check Scenario.no_thunks 5 7 0 PString Scenario.str_length None
           init_world f w' ∅ 0 (VStr "") (empty_store [])
           ltac:(reflexivity) ltac:(vm_compute; set_solver) Hc).
Defined.

(** [preprocess] of a primitive: the function is called first, on any
    input; when it returns, the primitive checks the value returned,
    which is the validator's result when accepted; when rejected, the
    primitive's message is thrown with what the function wrote left in
    place. *)
Theorem preprocess_before_check thunks fuel id id' t fn w f w' cache n arg st :
  _cache w !! id = None ->
  id ∉ _building w ->
  compile thunks fuel (DPreprocess id (DPrim id' t) fn) w = COk (f, w') ->
  apply cache (4 + n) f arg st
  = match user_call fn st arg with
    | Ret r st' =>
        if prim_accepts t r then Ret r st'
        else Thrown (TError (prim_message t)) st'
    | o => o
    end.
Proof.
  intros Hc Hb Hcomp.
  destruct (compile_fresh_inv thunks fuel (DPreprocess id (DPrim id' t) fn) w f w'
              Hc Hb Hcomp) as (k & body & ctx & c & w1 & -> & He & _ & ->).
  destruct k as [|k]; [done|]. rewrite emit_preprocess_unfold in He.
  destruct (emit thunks k (DPrim id' t) [] _ 0 (PS "") _)
    as [[[[s ctx1] c1] w2]|t' w2|] eqn:Hi; [|done..].
  cbn [cbind] in He. simplify_eq.
  destruct (emit_prim_inv _ _ _ _ _ _ _ _ _ _ _ _ _ Hi) as [-> [k' ->]].
  change (4 + n) with (S (S (S (S n)))). rewrite apply_closure, exec_seq.
  cbn [run_seq]. rewrite exec_call_set. unfold call_set, resolve, eval_slot.
  cbn [last eval_from init_frame input length app lookup list_lookup].
  rewrite call_user.
  destruct (user_call fn st arg) as [r st'|t' st'|a]; [|done..].
  cbn [put lift].
  rewrite (exec_prim_check _ _ _ _ _ _ _ _ _ _ _ _ _ _ n _
             (set_input (init_frame arg) r) st' r Hi eq_refl).
  destruct (prim_accepts t r); [done|]. by rewrite exec_throw_root.
Qed.

Lemma preprocess_before_check_witness :
  exists f w',
    compile Scenario.no_thunks 5 (DPreprocess 7 integer Scenario.str_length) init_world
    = COk (f, w')
    /\ apply ∅ 4 f (VStr "ab") (empty_store [])
       = match user_call Scenario.str_length (empty_store []) (VStr "ab") with
         | Ret r st' =>
             if prim_accepts PInteger r then Ret r st'
             else Thrown (TError (prim_message PInteger)) st'
         | o => o
         end.
Proof.
  destruct (compile Scenario.no_thunks 5 (DPreprocess 7 integer Scenario.str_length)
              init_world) as [[f w']|t w'|] eqn:Hc; [|by vm_compute in Hc..].
  exists f, w'. split; [done|].
  exact (preprocess_before_check Scenario.no_thunks 5 7 3 PInteger Scenario.str_length
           init_world f w' ∅ 0 (VStr "ab") (empty_store [])
           ltac:(reflexivity) ltac:(vm_compute; set_solver) Hc).
Defined.

(** ** Arrays of primitives *)

Lemma exec_throw cache n ctx m fr st :
  exec cache (S n) ctx (SThrow m) fr st
  = match eval_sexpr fr m with
    | Some msg => Throw (TError msg) fr st
    | None => Abort Unmodelled
    end.
Proof. reflexivity. Qed.

Lemma unescape_prim_message t :
  Text.unescape (": " +:+ Text.esc (prim_message t)) = Some (": " +:+ prim_message t).
Proof. by destruct t; vm_compute. Qed.

Lemma eval_from_app fr h e e' : forall v,
  eval_from fr h v (e ++ e')
  = match eval_from fr h v e with
    | Ok v' => eval_from fr h v' e'
    | Raise t => Raise t
    | Stop a => Stop a
    end.
Proof.
  induction e as [|a e IH]; intros v; cbn [app eval_from].
  - by destruct (eval_from fr h v e').
  - destruct (acc_key fr a) as [k|]; [|done].
    destruct (get_prop h v k) as [v'|t|x]; [apply IH|done..].
Qed.

(** The loop of an array of primitives from position [i] on, for the
    array at slot [e]: it stops at the first element the primitive
    rejects, with the path and the position in the message. *)
Lemma loop_prim_checks thunks k id t ctx c w s ctx1 c1 w1 cache ctx' v e pre path
    arg l es st :
  emit thunks (S k) (DPrim id t) (e ++ [AVar v]) ctx c
    (PD (XAdd (XAdd (XStr pre) (XVar v)) (XStr "]"))) w = COk (s, ctx1, c1, w1) ->
  Text.unescape pre = Some path ->
  (forall vs, eval_slot (set_lvars (init_frame arg) vs) (hp st) e = Ok (VRef l)) ->
  hp st !! l = Some (OArr es) ->
  forall m i n, i + m = length es ->
    loop_for cache (m + 3 + n) ctx' v e s i (init_frame arg) st
    = match first_rejected (prim_accepts t) (drop i es) i with
      | None => Normal (init_frame arg) st
      | Some j =>
          Throw (TError (path +:+ Text.dec j +:+ "]: " +:+ prim_message t))
            (set_lvars (init_frame arg) [(v, KIdx j)]) st
      end.
Proof.
  intros He Hpre Hs Hl m.
  assert (H0 : eval_slot (init_frame arg) (hp st) e = Ok (VRef l)) by exact (Hs []).
  induction m as [|m IH]; intros i n Hi.
  - change (0 + 3 + n) with (S (2 + n)). rewrite loop_for_unfold.
    rewrite H0. cbn [length_of]. rewrite Hl.
    assert (i = length es) as -> by lia.
    by rewrite Nat.ltb_irrefl, drop_all.
  - change (S m + 3 + n) with (S (m + 3 + n)). rewrite loop_for_unfold.
    rewrite H0. cbn [length_of]. rewrite Hl.
    destruct (lookup_lt_is_Some_2 es i ltac:(lia)) as [x Hx].
    rewrite (drop_S _ _ _ Hx). cbn [first_rejected].
    replace (i <? length es) with true by (symmetry; apply Nat.ltb_lt; lia).
    replace (m + 3 + n) with (S (S (S (m + n)))) by lia.
    rewrite (exec_prim_check _ _ _ _ _ _ _ _ _ _ _ _ _ _ _ _ _ _ x He).
    2:{ unfold eval_slot. rewrite eval_from_app. fold (eval_slot
          (set_lvars (init_frame arg) ((v, KIdx i) :: lvars (init_frame arg)))
          (hp st) e).
        rewrite (Hs ((v, KIdx i) :: lvars (init_frame arg))).
        cbn [eval_from acc_key set_lvars lvars input init_frame assoc].
        rewrite string_eqb_refl. unfold get_prop. rewrite Hl. cbn [key_idx].
        by rewrite Hx. }
    destruct (prim_accepts t x).
    + replace (S (S (S (m + n)))) with (m + 3 + n) by lia.
      apply (IH (S i) n). lia.
    + unfold throwCode. rewrite exec_throw.
      cbn [eval_sexpr set_lvars lvars assoc]. rewrite string_eqb_refl.
      cbn [fmap option_fmap option_map key_str].
      rewrite unescape_prim_message, Hpre.
      change (Text.unescape "]") with (Some "]"). cbn iota.
      rewrite !append_assoc_s. reflexivity.
Qed.

(** An array of primitives is accepted, as it is, when the primitive
    accepts every element; otherwise the message is the primitive's,
    preceded by the position of the first rejected element in
    brackets. *)
Theorem array_of_primitives thunks fuel id id' t w f w' cache n l es st :
  _cache w !! id = None ->
  id ∉ _building w ->
  compile thunks fuel (DArray id (DPrim id' t)) w = COk (f, w') ->
  hp st !! l = Some (OArr es) ->
  apply cache (length es + 6 + n) f (VRef l) st
  = match first_rejected (prim_accepts t) es 0 with
    | None => Ret (VRef l) st
    | Some j => Thrown (TError ("[" +:+ Text.dec j +:+ "]: " +:+ prim_message t)) st
    end.
Proof.
  intros Hc Hb Hcomp Hl.
  destruct (compile_fresh_inv thunks fuel (DArray id (DPrim id' t)) w f w' Hc Hb Hcomp)
    as (k & body & ctx & c & w1 & -> & He & _ & ->).
  destruct k as [|k]; [done|]. rewrite emit_array_unfold in He.
  destruct (emit thunks k (DPrim id' t) _ [] 1 _ _) as [[[[inner ctx1] c1] w2]|t' w2|] eqn:Hi;
    [|done..].
  cbn [cbind] in He. simplify_eq.
  destruct (emit_prim_inv _ _ _ _ _ _ _ _ _ _ _ _ _ Hi) as [-> [k' ->]].
  replace (length es + 6 + n) with (S (S (S (length es + 3 + n)))) by lia.
  rewrite apply_closure, exec_seq. cbn [run_seq]. rewrite exec_ifs.
  unfold branch. rewrite not_array_cond. cbn [init_frame input]. unfold isArray.
  rewrite Hl. cbn [negb]. rewrite exec_for.
  rewrite (loop_prim_checks _ _ _ _ _ _ _ _ _ _ _ cache [] _ [] "[" "[" (VRef l) l es st
             Hi eq_refl (fun _ => eq_refl) Hl (length es) 0 n eq_refl).
  rewrite drop_0. by destruct (first_rejected (prim_accepts t) es 0).
Qed.

Lemma array_of_primitives_witness :
  exists f w',
    compile Scenario.no_thunks 5 Scenario.strings_a init_world = COk (f, w')
    /\ [OArr [VStr "a"; VNull]] !! 0 = Some (OArr [VStr "a"; VNull])
    /\ apply ∅ (length [VStr "a"; VNull] + 6 + 0) f (VRef 0)
         (empty_store [OArr [VStr "a"; VNull]])
       = match first_rejected (prim_accepts PString) [VStr "a"; VNull] 0 with
         | None => Ret (VRef 0) (empty_store [OArr [VStr "a"; VNull]])
         | Some j =>
             Thrown (TError ("[" +:+ Text.dec j +:+ "]: " +:+ prim_message PString))
               (empty_store [OArr [VStr "a"; VNull]])
         end.
Proof.
  destruct (compile Scenario.no_thunks 5 Scenario.strings_a init_world)
    as [[f w']|t w'|] eqn:Hc; [|by vm_compute in Hc..].
  exists f, w'. split; [done|]. split; [reflexivity|].
  exact (array_of_primitives Scenario.no_thunks 5 90 0 PString init_world
           f w' ∅ 0 0 [VStr "a"; VNull] (empty_store [OArr [VStr "a"; VNull]])
           ltac:(reflexivity) ltac:(vm_compute; set_solver) Hc ltac:(reflexivity)).
Defined.

(** ** The typeof union *)

Lemma kind_of_spec d :
  kind_of d = match d with DPrim _ t => Some (kind t) | _ => None end.
Proof. by destruct d as [? []| | | | | | | | | | | |]. Qed.

(** When the [typeofMap] loop succeeds every variant is a primitive and
    the map lists the variants in order, each under its kind. *)
Lemma typeof_map_spec variants : forall acc m,
  typeof_map variants acc = Some m ->
  m = acc ++ map entry variants /\ Forall is_prim variants.
Proof.
  induction variants as [|d rest IH]; intros acc m H.
  - cbn [typeof_map] in H. simplify_eq. by rewrite app_nil_r.
  - cbn [typeof_map] in H. fold (kind_of d) in H.
    cbn [map]. unfold entry at 1. destruct (kind_of d) as [tag|] eqn:Hk; [|done].
    case_bool_decide; [done|].
    destruct (IH _ _ H) as [-> Hall]. split.
    + by rewrite <- app_assoc.
    + constructor; [|done]. rewrite kind_of_spec in Hk. by destruct d.
Qed.

Lemma exec_break cache n ctx label fr st :
  exec cache (S n) ctx (SBreak label) fr st = Break label fr st.
Proof. reflexivity. Qed.

(** The clause of one variant, entered with a value of its kind. *)
Lemma typeof_case_run cache n ctx id t arg st :
  String.eqb (typeof arg) (kind t) = true ->
  exec cache (S (S (S n))) ctx (typeof_case [] (PS "") (entry (DPrim id t))).2
    (init_frame arg) st
  = if prim_accepts t arg then Break None (init_frame arg) st
    else Throw (TError (prim_message t)) (init_frame arg) st.
Proof.
  intros Hk. unfold typeof_case, entry. cbn [snd]. rewrite exec_seq.
  destruct t; cbn [kind prim_accepts prim_message] in *.
  - change (String.eqb (_tag (DPrim id PString)) "number") with false.
    change (String.eqb (_tag (DPrim id PString)) "integer") with false.
    cbn [run_seq]. by rewrite exec_seq, Hk.
  - change (String.eqb (_tag (DPrim id PBoolean)) "number") with false.
    change (String.eqb (_tag (DPrim id PBoolean)) "integer") with false.
    cbn [run_seq]. by rewrite exec_seq, Hk.
  - change (String.eqb (_tag (DPrim id PNumber)) "number") with true.
    cbn [run_seq]. rewrite exec_ifs. unfold branch. cbn [eval_cond].
    unfold on_slot, eval_slot. cbn [eval_from init_frame input].
    destruct (isFinite arg); cbn [negb]; [done|]. by rewrite exec_throw_root.
  - change (String.eqb (_tag (DPrim id PInteger)) "number") with false.
    change (String.eqb (_tag (DPrim id PInteger)) "integer") with true.
    cbn [run_seq]. rewrite exec_ifs. unfold branch. cbn [eval_cond].
    unfold on_slot, eval_slot. cbn [eval_from init_frame input].
    destruct (isInteger arg); cbn [negb]; [done|]. by rewrite exec_throw_root.
  - change (String.eqb (_tag (DPrim id PBigint)) "number") with false.
    change (String.eqb (_tag (DPrim id PBigint)) "integer") with false.
    cbn [run_seq]. by rewrite exec_seq, Hk.
Qed.

Lemma from_match_cons v c rest :
  from_match v (c :: rest)
  = if label_matches v c.1 then c.2 :: map snd rest else from_match v rest.
Proof. by destruct c. Qed.

Lemma run_typeof_cases cache n ctx arg st variants :
  Forall is_prim variants ->
  end_switch
    (run_seq (exec cache (S (S (S n))) ctx)
       (from_match (VStr (typeof arg)) (map (typeof_case [] (PS "")) (map entry variants))
        ++ [throwCode (PS "") "union failed"]) (init_frame arg) st)
  = match variant_of_kind (typeof arg) variants with
    | None => Throw (TError "union failed") (init_frame arg) st
    | Some t =>
        if prim_accepts t arg then Normal (init_frame arg) st
        else Throw (TError (prim_message t)) (init_frame arg) st
    end.
Proof.
  induction 1 as [|d rest Hd _ IH].
  - cbn [map from_match app run_seq variant_of_kind]. by rewrite exec_throw_root.
  - destruct d as [id t| | | | | | | | | | | |]; try done.
    cbn [map variant_of_kind]. rewrite from_match_cons.
    change (label_matches (VStr (typeof arg)) (typeof_case [] (PS "") (entry (DPrim id t))).1)
      with (String.eqb (typeof arg) (default "" (kind_of (DPrim id t)))).
    rewrite kind_of_spec. change (default "" (Some (kind t))) with (kind t).
    destruct (String.eqb (typeof arg) (kind t)) eqn:Hk; [|done].
    cbn [app run_seq]. rewrite (typeof_case_run _ _ _ _ _ _ _ Hk).
    by destruct (prim_accepts t arg).
Qed.

(** A union of primitives of pairwise distinct kinds dispatches on
    [typeof]: a value whose kind no variant has is rejected with
    ["union failed"]; otherwise the one variant of that kind decides,
    and the message of a rejection is that variant's. *)
Theorem typeof_union_validator thunks fuel id variants m w f w' cache n arg st :
  _cache w !! id = None ->
  id ∉ _building w ->
  typeof_map variants [] = Some m ->
  compile thunks fuel (DUnion id variants) w = COk (f, w') ->
  apply cache (5 + n) f arg st
  = match variant_of_kind (typeof arg) variants with
    | None => Thrown (TError "union failed") st
    | Some t =>
        if prim_accepts t arg then Ret arg st
        else Thrown (TError (prim_message t)) st
    end.
Proof.
  intros Hc Hb Hm Hcomp.
  destruct (compile_fresh_inv thunks fuel (DUnion id variants) w f w' Hc Hb Hcomp)
    as (k & body & ctx & c & w1 & -> & He & _ & ->).
  destruct k as [|k]; [done|]. rewrite emit_union_unfold, Hm in He. simplify_eq.
  destruct (typeof_map_spec _ _ _ Hm) as [-> Hall]. cbn [app].
  change (5 + n) with (S (S (S (S (S n))))). rewrite apply_closure, exec_switch.
  unfold eval_disc, eval_slot. cbn [eval_from init_frame input].
  fold (init_frame arg).
  change (SThrow (XStr ("" +:+ Text.esc "union failed")))
    with (throwCode (PS "") "union failed").
  rewrite (run_typeof_cases cache n [] arg st variants Hall).
  destruct (variant_of_kind (typeof arg) variants) as [t|]; [|done].
  by destruct (prim_accepts t arg).
Qed.

Lemma typeof_union_validator_witness :
  exists m f w',
    typeof_map [integer; string_] [] = Some m
    /\ compile Scenario.no_thunks 5 Scenario.int_or_string init_world = COk (f, w')
    /\ apply ∅ 5 f (VBool true) (empty_store [])
       = match variant_of_kind (typeof (VBool true)) [integer; string_] with
         | None => Thrown (TError "union failed") (empty_store [])
         | Some t =>
             if prim_accepts t (VBool true) then Ret (VBool true) (empty_store [])
             else Thrown (TError (prim_message t)) (empty_store [])
         end.
Proof.
  destruct (typeof_map [integer; string_] []) as [m|] eqn:Hm; [|by vm_compute in Hm].
  destruct (compile Scenario.no_thunks 5 Scenario.int_or_string init_world)
    as [[f w']|t w'|] eqn:Hc; [|by vm_compute in Hc..].
  exists m, f, w'. split; [done|]. split; [done|].
  exact (typeof_union_validator Scenario.no_thunks 5 _ [integer; string_] m init_world
           f w' ∅ 0 (VBool true) (empty_store [])
           ltac:(reflexivity) ltac:(vm_compute; set_solver) Hm Hc).
Defined.

(** ** The discriminated union *)

Lemma emit_cases_labels emit' e p key m : forall ctx c w cases ctx1 c1 w1,
  emit_cases emit' e p key m ctx c w = COk (cases, ctx1, c1, w1) ->
  map fst cases = map (fun lv => LLit (stringify lv.1)) m.
Proof.
  induction m as [|[val variant] rest IH]; intros ctx c w cases ctx1 c1 w1 H;
    cbn [emit_cases] in H.
  - by simplify_eq.
  - destruct (emit_fields emit' e p (Some key) (shape_of variant) ctx c w)
      as [[[[parts ctx2] c2] w2]|t w2|]; [|done..].
    cbn [cbind] in H.
    destruct (emit_cases emit' e p key rest ctx2 c2 w2)
      as [[[[cases' ctx3] c3] w3]|t w3|] eqn:Hr; [|done..].
    cbn [cbind] in H. simplify_eq. cbn [map fst]. f_equal. by eapply IH.
Qed.

Lemma from_match_none v cases :
  existsb (label_matches v) (map fst cases) = false -> from_match v cases = [].
Proof.
  induction cases as [|[l s] rest IH]; [done|]. cbn [map fst existsb from_match].
  intros [Hl Hr]%orb_false_elim. rewrite Hl. by apply IH.
Qed.

(** A union of objects told apart by a literal field checks that the
    input is an object, then dispatches on that field with one [case]
    per variant, labelled with what [JSON.stringify] writes for the
    variant's value ([null] for [NaN] and the infinities).  What is not
    an object is rejected with ["expected object"], and an object whose
    field is strictly equal to none of the labels (or that lacks the
    field) is rejected with ["union failed"], whatever its other fields
    are. *)
Theorem discriminated_union_rejects thunks fuel id variants key discMap w f w'
    cache n arg st :
  _cache w !! id = None ->
  id ∉ _building w ->
  typeof_map variants [] = None ->
  find_disc_of variants = Some (key, discMap) ->
  compile thunks fuel (DUnion id variants) w = COk (f, w') ->
  (not_an_object (hp st) arg = true ->
   apply cache (4 + n) f arg st = Thrown (TError "expected object") st)
  /\ (forall l ps, arg = VRef l -> hp st !! l = Some (OObj ps) ->
      existsb (fun lv => strict_eq (default VUndef (assoc key ps)) (stringify lv.1))
        discMap = false ->
      apply cache (4 + n) f arg st = Thrown (TError "union failed") st).
Proof.
  intros Hc Hb Htm Hfd Hcomp.
  destruct (compile_fresh_inv thunks fuel (DUnion id variants) w f w' Hc Hb Hcomp)
    as (k & body & ctx & c & w1 & -> & He & _ & ->).
  destruct k as [|k]; [done|]. rewrite emit_union_unfold, Htm, Hfd in He.
  destruct (emit_cases _ [] (PS "") key discMap [] 0 _)
    as [[[[cases ctx1] c1] w2]|t w2|] eqn:Hcs; [|done..].
  cbn [cbind] in He. simplify_eq.
  change (4 + n) with (S (S (S (S n)))). rewrite apply_closure, exec_seq.
  cbn [run_seq]. rewrite exec_ifs.
  pose proof (not_object_cond (init_frame arg) (hp st)) as [Hno Hobj].
  cbn [init_frame input] in Hno, Hobj. split.
  - intros Hn. rewrite (branch_true _ _ _ _ _ _ (Hno Hn)). by rewrite exec_throw_raw.
  - intros l ps -> Hl Hnone.
    rewrite (branch_false_none _ _ _ _ _ (Hobj l ps eq_refl Hl)).
    rewrite exec_switch. unfold eval_disc, eval_slot.
    cbn [app eval_from acc_key init_frame input]. unfold get_prop. rewrite Hl.
    cbn [key_str]. rewrite from_match_none.
    + cbn [app run_seq]. by rewrite exec_throw_raw.
    + rewrite (emit_cases_labels _ _ _ _ _ _ _ _ _ _ _ _ Hcs).
      rewrite <- Hnone. clear. induction discMap as [|[v d] rest IH]; [done|].
      cbn [map existsb label_matches fst]. by rewrite IH.
Qed.

Lemma discriminated_union_rejects_witness :
  exists f w',
    compile Scenario.no_thunks 6 Scenario.by_kind init_world = COk (f, w')
    /\ (not_an_object Scenario.kind_c_heap (VRef 0) = true ->
        apply ∅ 4 f (VRef 0) (empty_store Scenario.kind_c_heap)
        = Thrown (TError "expected object") (empty_store Scenario.kind_c_heap))
    /\ (forall l ps, VRef 0 = VRef l ->
        Scenario.kind_c_heap !! l = Some (OObj ps) ->
        existsb (fun lv => strict_eq (default VUndef (assoc "kind" ps)) (stringify lv.1))
          [(JStr "a", Scenario.kind_a); (JStr "b", Scenario.kind_b)] = false ->
        apply ∅ 4 f (VRef 0) (empty_store Scenario.kind_c_heap)
        = Thrown (TError "union failed") (empty_store Scenario.kind_c_heap)).
Proof.
  destruct (compile Scenario.no_thunks 6 Scenario.by_kind init_world)
    as [[f w']|t w'|] eqn:Hc; [|by vm_compute in Hc..].
  exists f, w'. split; [done|].
  exact (discriminated_union_rejects Scenario.no_thunks 6 100
           [Scenario.kind_a; Scenario.kind_b] "kind"
           [(JStr "a", Scenario.kind_a); (JStr "b", Scenario.kind_b)] init_world
           f w' ∅ 0 (VRef 0) (empty_store Scenario.kind_c_heap)
           ltac:(reflexivity) ltac:(vm_compute; set_solver) ltac:(reflexivity)
           ltac:(reflexivity) Hc).
Defined.

(** ** What [compile] caches *)

(** A [compile] that misses the cache adds exactly one entry, the one
    of the descriptor it was given: the descriptors nested in it get no
    entry of their own.  When it throws, the cache is as before.  In
    both cases [_building] is as before. *)
Theorem compile_caches_root_only thunks fuel d w :
  _cache w !! sid d = None ->
  match compile thunks fuel d w with
  | COk (f, w') =>
      _cache w' = <[sid d := f]> (_cache w) /\ _building w' = _building w
  | CThrow _ w' => _cache w' = _cache w /\ _building w' = _building w
  | CFuel => True
  end.
Proof.
  intros Hc. unfold compile. rewrite Hc.
  pose proof (proj2 (emit_build_keep thunks fuel) d w) as H.
  destruct (build thunks fuel d w) as [[f w1]|t w1|]; cbn in *; [| |done].
  - destruct H as [-> ->]. done.
  - by destruct H.
Qed.

Lemma compile_caches_root_only_witness :
  match compile Scenario.no_thunks 30 Scenario.items_schema init_world with
  | COk (f, w') =>
      _cache w' = <[sid Scenario.items_schema := f]> (_cache init_world)
      /\ _building w' = _building init_world
  | CThrow _ w' => _cache w' = _cache init_world /\ _building w' = _building init_world
  | CFuel => True
  end.
Proof.
  exact (compile_caches_root_only Scenario.no_thunks 30 Scenario.items_schema init_world
           ltac:(reflexivity)).
Defined.

(** ** [lazy] *)

Lemma emit_lazy_unfold thunks k id thunk e ctx c p w :
  emit thunks (S k) (DLazy id thunk) e ctx c p w
  = cbind (build thunks k (thunks thunk) w)
      (fun '(f, w1) => COk (SCallSet e (length ctx), ctx ++ [CFn f], c, w1)).
Proof. reflexivity. Qed.

(** The validator of [lazy(thunk)] is a call of the validator built
    from the descriptor the thunk returns: same result, same error, same
    effect on the store.  That validator is built while the [lazy]
    descriptor is marked as being built, and by [build], not by
    [compile]: it is not looked up in the cache. *)
Theorem lazy_delegates thunks fuel id thunk w f w' :
  _cache w !! id = None ->
  id ∉ _building w ->
  compile thunks fuel (DLazy id thunk) w = COk (f, w') ->
  exists k g w1,
    fuel = S (S k)
    /\ build thunks k (thunks thunk)
         (World (_cache w) ({[id]} ∪ _building w) (next_fid w)) = COk (g, w1)
    /\ forall cache n arg st,
         apply cache (S (S n)) f arg st = apply cache n g arg st.
Proof.
  intros Hc Hb Hcomp.
  destruct (compile_fresh_inv thunks fuel (DLazy id thunk) w f w' Hc Hb Hcomp)
    as (k & body & ctx & c & w1 & -> & He & _ & ->).
  destruct k as [|k]; [done|]. rewrite emit_lazy_unfold in He.
  destruct (build thunks k (thunks thunk) _) as [[g w2]|t w2|] eqn:Hg; [|done..].
  cbn [cbind] in He. simplify_eq. exists k, g, w1. split; [done|]. split; [done|].
  intros cache n arg st. rewrite apply_closure, exec_call_set.
  unfold call_set, resolve, eval_slot.
  cbn [last eval_from init_frame input length app lookup list_lookup].
  unfold apply. by destruct (call cache n (Some (CFn g)) arg st).
Qed.

Lemma lazy_delegates_witness :
  exists f w' k g w1,
    compile Scenario.no_thunks 5 (DLazy 7 0) init_world = COk (f, w')
    /\ 5 = S (S k)
    /\ build Scenario.no_thunks k (Scenario.no_thunks 0)
         (World (_cache init_world) ({[7]} ∪ _building init_world)
            (next_fid init_world)) = COk (g, w1)
    /\ forall cache n arg st,
         apply cache (S (S n)) f arg st = apply cache n g arg st.
Proof.
  destruct (compile Scenario.no_thunks 5 (DLazy 7 0) init_world)
    as [[f w']|t w'|] eqn:Hc; [|by vm_compute in Hc..].
  destruct (lazy_delegates Scenario.no_thunks 5 7 0 init_world f w'
              ltac:(reflexivity) ltac:(vm_compute; set_solver) Hc)
    as (k & g & w1 & H).
  exists f, w', k, g, w1. split; [done|]. exact H.
Defined.

(** ** Objects and tuples of primitives *)

Lemma nonempty_esc s : nonempty (Text.esc s) = nonempty s.
Proof.
  destruct s as [|a s]; [reflexivity|].
  destruct (Text.esc (String a s)) eqn:E; [|reflexivity]. exfalso.
  pose proof (unescape_esc_app (String a s) "") as H.
  rewrite E in H. discriminate H.
Qed.

Lemma is_maybe_prim id t : is_maybe (DPrim id t) = false.
Proof. by destruct t. Qed.

(** The throw of a primitive's message under a static path that is one
    key: the message reads [key: message], and the message alone when
    the key is the empty text. *)
Lemma exec_throw_key cache n ctx key t fr st :
  exec cache (S n) ctx (throwCode (appendKey (PS "") key) (prim_message t)) fr st
  = Throw (TError ((if nonempty key then key +:+ ": " else "") +:+ prim_message t)) fr st.
Proof.
  unfold appendKey. change (nonempty "") with false. cbn iota.
  unfold throwCode. rewrite exec_throw, nonempty_esc.
  destruct (nonempty key) eqn:Hk.
  - cbn [eval_sexpr].
    rewrite append_assoc_s, unescape_esc_app, unescape_prim_message.
    cbn. by rewrite append_assoc_s.
  - destruct key; [|done]. by rewrite !app_nil_s, eval_esc.
Qed.

Lemma run_prim_fields thunks k cache n ctx' l ps st shape :
  hp st !! l = Some (OObj ps) ->
  Forall (fun kd => is_prim kd.2) shape ->
  forall ctx c w parts ctx1 c1 w1,
    emit_fields (emit thunks k) [] (PS "") None shape ctx c w
    = COk (parts, ctx1, c1, w1) ->
    run_seq (exec cache (S (S n)) ctx') parts (init_frame (VRef l)) st
    = match first_bad_field ps shape with
      | None => Normal (init_frame (VRef l)) st
      | Some (key, t) =>
          Throw (TError ((if nonempty key then key +:+ ": " else "")
                         +:+ prim_message t)) (init_frame (VRef l)) st
      end.
Proof.
  intros Hl. induction 1 as [|[key d] rest Hd _ IH]; intros ctx c w parts ctx1 c1 w1 H;
    cbn [emit_fields] in H.
  - by simplify_eq.
  - destruct d as [id t| | | | | | | | | | | |]; try done.
    rewrite bool_decide_eq_false_2 in H by done.
    destruct (emit thunks k (DPrim id t) _ ctx c _ w)
      as [[[[s ctx2] c2] w2]|t' w2|] eqn:Hi; [|done..].
    cbn [cbind] in H. rewrite is_maybe_prim in H.
    destruct (emit_fields (emit thunks k) [] (PS "") None rest ctx2 c2 w2)
      as [[[[parts' ctx3] c3] w3]|t' w3|] eqn:Hr; [|done..].
    cbn [cbind] in H. simplify_eq.
    destruct (emit_prim_inv _ _ _ _ _ _ _ _ _ _ _ _ _ Hi) as [-> [k' ->]].
    cbn [run_seq first_bad_field].
    rewrite (exec_prim_check _ _ _ _ _ _ _ _ _ _ _ _ _ _ n _ (init_frame (VRef l)) st
               (default VUndef (assoc key ps)) Hi).
    2:{ unfold eval_slot. cbn [app eval_from acc_key init_frame input].
        unfold get_prop. by rewrite Hl. }
    destruct (prim_accepts t (default VUndef (assoc key ps))).
    + by eapply IH.
    + by rewrite exec_throw_key.
Qed.

(** An object of primitives: the fields are checked in the order of the
    shape, each against what the input has under its key ([undefined]
    when it has nothing); the input is returned as it is, with its keys
    outside the shape, when every field is accepted, and otherwise the
    error is the message of the first rejected field after its key and
    [": "]. *)
Theorem object_of_primitives thunks fuel id shape w f w' cache n l ps st :
  _cache w !! id = None ->
  id ∉ _building w ->
  Forall (fun kd => is_prim kd.2) shape ->
  compile thunks fuel (DObject id shape) w = COk (f, w') ->
  hp st !! l = Some (OObj ps) ->
  apply cache (4 + n) f (VRef l) st
  = match first_bad_field ps shape with
    | None => Ret (VRef l) st
    | Some (key, t) =>
        Thrown (TError ((if nonempty key then key +:+ ": " else "")
                        +:+ prim_message t)) st
    end.
Proof.
  intros Hc Hb Hall Hcomp Hl.
  destruct (compile_fresh_inv thunks fuel (DObject id shape) w f w' Hc Hb Hcomp)
    as (k & body & ctx & c & w1 & -> & He & _ & ->).
  destruct k as [|k]; [done|]. rewrite emit_object_unfold in He.
  destruct (emit_fields _ [] (PS "") None shape [] 0 _)
    as [[[[parts ctx1] c1] w2]|t w2|] eqn:Hi; [|done..].
  cbn [cbind] in He. simplify_eq.
  change (4 + n) with (S (S (S (S n)))). rewrite apply_closure, exec_seq.
  cbn [run_seq]. rewrite exec_ifs.
  pose proof (not_object_cond (init_frame (VRef l)) (hp st)) as [_ Hobj].
  rewrite (branch_false_none _ _ _ _ _ (Hobj l ps eq_refl Hl)).
  rewrite (run_prim_fields _ _ cache n _ l ps st shape Hl Hall _ _ _ _ _ _ _ Hi).
  by destruct (first_bad_field ps shape) as [[key t]|].
Qed.

Lemma object_of_primitives_witness :
  exists f w',
    compile Scenario.no_thunks 5 (DObject 7 [("name", string_); ("age", integer)])
      init_world = COk (f, w')
    /\ apply ∅ 4 f (VRef 0) (empty_store [OObj [("name", VStr "a"); ("x", VNull)]])
       = match first_bad_field [("name", VStr "a"); ("x", VNull)]
                 [("name", string_); ("age", integer)] with
         | None => Ret (VRef 0) (empty_store [OObj [("name", VStr "a"); ("x", VNull)]])
         | Some (key, t) =>
             Thrown (TError ((if nonempty key then key +:+ ": " else "")
                             +:+ prim_message t))
               (empty_store [OObj [("name", VStr "a"); ("x", VNull)]])
         end.
Proof.
  destruct (compile Scenario.no_thunks 5 (DObject 7 [("name", string_); ("age", integer)])
              init_world) as [[f w']|t w'|] eqn:Hc; [|by vm_compute in Hc..].
  exists f, w'. split; [done|].
  exact (object_of_primitives Scenario.no_thunks 5 7 [("name", string_); ("age", integer)]
           init_world f w' ∅ 0 0 [("name", VStr "a"); ("x", VNull)]
           (empty_store [OObj [("name", VStr "a"); ("x", VNull)]])
           ltac:(reflexivity) ltac:(vm_compute; set_solver)
           ltac:(repeat constructor) Hc ltac:(reflexivity)).
Defined.

(** The decimal text of a number has none of the characters [esc]
    replaces: in a string literal it reads as itself. *)
Lemma pretty_N_char_plain x : special (pretty_N_char x) = false.
Proof. unfold pretty_N_char. by repeat case_match. Qed.

Lemma pretty_N_go_plain x : forall s,
  has_special s = false -> has_special (pretty_N_go x s) = false.
Proof.
  induction (N.lt_wf_0 x) as [x _ IH]. intros s Hs.
  destruct (decide (x = 0)%N) as [->|Hx]; [by rewrite pretty_N_go_0|].
  rewrite pretty_N_go_step by lia. apply IH.
  - apply N.div_lt; lia.
  - cbn [has_special]. by rewrite pretty_N_char_plain, Hs.
Qed.

Lemma dec_plain n : has_special (Text.dec n) = false.
Proof.
  unfold Text.dec, pretty, pretty_nat, pretty, pretty_N.
  destruct (decide (N.of_nat n = 0)%N); [reflexivity|].
  by apply pretty_N_go_plain.
Qed.

Lemma has_special_app s t : has_special (s +:+ t) = has_special s || has_special t.
Proof.
  induction s as [|x s IH]; [done|].
  rewrite app_cons_s. cbn [has_special]. by rewrite IH, orb_assoc.
Qed.

Lemma unescape_plain_app s t :
  has_special s = false ->
  Text.unescape (s +:+ t) = String.append s <$> Text.unescape t.
Proof.
  induction s as [|x s IH].
  { intros _. rewrite app_nil_s. by destruct (Text.unescape t). }
  cbn [has_special]. intros [Hx Hs]%orb_false_elim.
  rewrite !app_cons_s, unescape_cons_ne, IH by done. by destruct (Text.unescape t).
Qed.

(** The throw of a primitive's message under the static path of a tuple
    position. *)
Lemma exec_throw_index cache n ctx i t fr st :
  exec cache (S n) ctx (throwCode (appendTupleIndex (PS "") i) (prim_message t)) fr st
  = Throw (TError ("[" +:+ Text.dec i +:+ "]: " +:+ prim_message t)) fr st.
Proof.
  unfold appendTupleIndex, throwCode. rewrite exec_throw. cbn [eval_sexpr].
  change (nonempty ("" +:+ "[" +:+ Text.dec i +:+ "]")) with true. cbn iota.
  rewrite append_assoc_s, unescape_plain_app, unescape_prim_message.
  - cbn. rewrite !append_assoc_s. reflexivity.
  - rewrite !has_special_app, dec_plain. reflexivity.
Qed.

Lemma run_prim_items thunks k cache n ctx' l es st items :
  hp st !! l = Some (OArr es) ->
  Forall is_prim items ->
  forall i ctx c w parts ctx1 c1 w1,
    emit_items (emit thunks k) [] (PS "") i items ctx c w = COk (parts, ctx1, c1, w1) ->
    run_seq (exec cache (S (S n)) ctx') parts (init_frame (VRef l)) st
    = match first_bad_item es items i with
      | None => Normal (init_frame (VRef l)) st
      | Some (j, t) =>
          Throw (TError ("[" +:+ Text.dec j +:+ "]: " +:+ prim_message t))
            (init_frame (VRef l)) st
      end.
Proof.
  intros Hl. induction 1 as [|d rest Hd _ IH]; intros i ctx c w parts ctx1 c1 w1 H;
    cbn [emit_items] in H.
  - by simplify_eq.
  - destruct d as [id t| | | | | | | | | | | |]; try done.
    destruct (emit thunks k (DPrim id t) _ ctx c _ w)
      as [[[[s ctx2] c2] w2]|t' w2|] eqn:Hi; [|done..].
    cbn [cbind] in H.
    destruct (emit_items (emit thunks k) [] (PS "") (S i) rest ctx2 c2 w2)
      as [[[[parts' ctx3] c3] w3]|t' w3|] eqn:Hr; [|done..].
    cbn [cbind] in H. simplify_eq.
    destruct (emit_prim_inv _ _ _ _ _ _ _ _ _ _ _ _ _ Hi) as [-> [k' ->]].
    cbn [run_seq first_bad_item].
    rewrite (exec_prim_check _ _ _ _ _ _ _ _ _ _ _ _ _ _ n _ (init_frame (VRef l)) st
               (default VUndef (es !! i)) Hi).
    2:{ unfold eval_slot. cbn [app eval_from acc_key init_frame input].
        unfold get_prop. by rewrite Hl. }
    destruct (prim_accepts t (default VUndef (es !! i))).
    + by eapply IH.
    + by rewrite exec_throw_index.
Qed.

(** A tuple of primitives, given an array of the declared length: the
    positions are checked in order; the array is returned as it is when
    every element is accepted, and otherwise the error is the message of
    the first rejected position after that position in brackets. *)
Theorem tuple_of_primitives thunks fuel id items w f w' cache n l es st :
  _cache w !! id = None ->
  id ∉ _building w ->
  Forall is_prim items ->
  compile thunks fuel (DTuple id items) w = COk (f, w') ->
  hp st !! l = Some (OArr es) ->
  length es = length items ->
  apply cache (4 + n) f (VRef l) st
  = match first_bad_item es items 0 with
    | None => Ret (VRef l) st
    | Some (j, t) =>
        Thrown (TError ("[" +:+ Text.dec j +:+ "]: " +:+ prim_message t)) st
    end.
Proof.
  intros Hc Hb Hall Hcomp Hl Hlen.
  destruct (compile_fresh_inv thunks fuel (DTuple id items) w f w' Hc Hb Hcomp)
    as (k & body & ctx & c & w1 & -> & He & _ & ->).
  destruct k as [|k]; [done|]. rewrite emit_tuple_unfold in He.
  destruct (emit_items _ [] (PS "") 0 items [] 0 _)
    as [[[[parts ctx1] c1] w2]|t w2|] eqn:Hi; [|done..].
  cbn [cbind] in He. simplify_eq.
  change (4 + n) with (S (S (S (S n)))). rewrite apply_closure, exec_seq.
  cbn [run_seq]. rewrite exec_ifs. unfold branch. rewrite tuple_cond.
  cbn [init_frame input not_a_tuple]. rewrite Hl, Hlen, Nat.eqb_refl. cbn [negb].
  fold (init_frame (VRef l)).
  rewrite (run_prim_items _ _ cache n _ l es st items Hl Hall _ _ _ _ _ _ _ _ Hi).
  by destruct (first_bad_item es items 0) as [[j t]|].
Qed.

Lemma tuple_of_primitives_witness :
  exists f w',
    compile Scenario.no_thunks 5 (DTuple 7 [string_; integer]) init_world = COk (f, w')
    /\ apply ∅ 4 f (VRef 0) (empty_store [OArr [VStr "a"; VStr "b"]])
       = match first_bad_item [VStr "a"; VStr "b"] [string_; integer] 0 with
         | None => Ret (VRef 0) (empty_store [OArr [VStr "a"; VStr "b"]])
         | Some (j, t) =>
             Thrown (TError ("[" +:+ Text.dec j +:+ "]: " +:+ prim_message t))
               (empty_store [OArr [VStr "a"; VStr "b"]])
         end.
Proof.
  destruct (compile Scenario.no_thunks 5 (DTuple 7 [string_; integer]) init_world)
    as [[f w']|t w'|] eqn:Hc; [|by vm_compute in Hc..].
  exists f, w'. split; [done|].
  exact (tuple_of_primitives Scenario.no_thunks 5 7 [string_; integer]
           init_world f w' ∅ 0 0 [VStr "a"; VStr "b"]
           (empty_store [OArr [VStr "a"; VStr "b"]])
           ltac:(reflexivity) ltac:(vm_compute; set_solver)
           ltac:(repeat constructor) Hc ltac:(reflexivity) ltac:(reflexivity)).
Defined.

(** ** The path of an element under a key *)

Lemma is_maybe_array id item : is_maybe (DArray id item) = false.
Proof. reflexivity. Qed.

(** An object with one field that is an array of primitives: when an
    element is rejected, the path in the message is the key, the
    position in brackets, then the primitive's message.  The key is
    printed as [esc] leaves it, not as it is: [appendIndex] escapes a
    static path that [appendKey] has escaped already, so a quote, a
    backslash or a line break in the key comes out with its backslash. *)
Theorem array_field_path_escaped thunks fuel id id2 id3 key t w f w' cache n
    lo ps l es st :
  _cache w !! id = None ->
  id ∉ _building w ->
  compile thunks fuel (DObject id [(key, DArray id2 (DPrim id3 t))]) w = COk (f, w') ->
  nonempty key = true ->
  hp st !! lo = Some (OObj ps) ->
  assoc key ps = Some (VRef l) ->
  hp st !! l = Some (OArr es) ->
  apply cache (length es + 7 + n) f (VRef lo) st
  = match first_rejected (prim_accepts t) es 0 with
    | None => Ret (VRef lo) st
    | Some j =>
        Thrown (TError (Text.esc key +:+ "[" +:+ Text.dec j +:+ "]: "
                        +:+ prim_message t)) st
    end.
Proof.
  intros Hc Hb Hcomp Hkey Hlo Hps Hl.
  destruct (compile_fresh_inv thunks fuel
              (DObject id [(key, DArray id2 (DPrim id3 t))]) w f w' Hc Hb Hcomp)
    as (k & body & ctx & c & w1 & -> & He & _ & ->).
  destruct k as [|k]; [done|]. rewrite emit_object_unfold in He.
  cbn [emit_fields] in He. rewrite bool_decide_eq_false_2 in He by done.
  destruct k as [|k]; [done|]. rewrite emit_array_unfold in He.
  unfold appendKey, appendIndex in He. change (nonempty "") with false in He.
  cbn iota in He. rewrite nonempty_esc, Hkey in He.
  destruct (emit thunks k (DPrim id3 t) _ [] 1 _ _)
    as [[[[inner ctx1] c1] w2]|t' w2|] eqn:Hi; [|done..].
  cbn [cbind] in He. rewrite is_maybe_array in He. simplify_eq.
  destruct (emit_prim_inv _ _ _ _ _ _ _ _ _ _ _ _ _ Hi) as [-> [k' ->]].
  assert (Hs : forall vs,
             eval_slot (set_lvars (init_frame (VRef lo)) vs) (hp st) [AKey key]
             = Ok (VRef l)).
  { intros vs. unfold eval_slot. cbn [eval_from acc_key set_lvars init_frame input].
    unfold get_prop. rewrite Hlo. cbn [key_str]. by rewrite Hps. }
  replace (length es + 7 + n) with (S (S (S (S (length es + 3 + n))))) by lia.
  rewrite apply_closure, exec_seq. cbn [run_seq]. rewrite exec_ifs.
  pose proof (not_object_cond (init_frame (VRef lo)) (hp st)) as [_ Hobj].
  rewrite (branch_false_none _ _ _ _ _ (Hobj lo ps eq_refl Hlo)).
  rewrite exec_seq. cbn [run_seq]. rewrite exec_ifs. unfold branch.
  cbn [eval_cond]. unfold on_slot.
  change (eval_slot (init_frame (VRef lo)) (hp st) [AKey key])
    with (eval_slot (set_lvars (init_frame (VRef lo)) []) (hp st) [AKey key]).
  rewrite (Hs []). unfold isArray. rewrite Hl. cbn [negb]. rewrite exec_for.
  assert (Hpre : Text.unescape (Text.esc (Text.esc key) +:+ "[")
                 = Some (Text.esc key +:+ "[")) by (by rewrite unescape_esc_app).
  rewrite (loop_prim_checks _ _ _ _ _ _ _ _ _ _ _ cache [] _ [AKey key]
             (Text.esc (Text.esc key) +:+ "[") (Text.esc key +:+ "[") (VRef lo) l es st
             Hi Hpre Hs Hl (length es) 0 n eq_refl).
  rewrite drop_0.
  destruct (first_rejected (prim_accepts t) es 0); [|done].
  by rewrite !append_assoc_s.
Qed.

Lemma array_field_path_escaped_witness :
  exists f w',
    compile Scenario.no_thunks 6
      (DObject 7 [(String Text.squote "s", DArray 8 (DPrim 9 PString))]) init_world
    = COk (f, w')
    /\ apply ∅ (length [VNull] + 7 + 0) f (VRef 0)
         (empty_store [OObj [(String Text.squote "s", VRef 1)]; OArr [VNull]])
       = match first_rejected (prim_accepts PString) [VNull] 0 with
         | None =>
             Ret (VRef 0)
               (empty_store [OObj [(String Text.squote "s", VRef 1)]; OArr [VNull]])
         | Some j =>
             Thrown (TError (Text.esc (String Text.squote "s") +:+ "["
                             +:+ Text.dec j +:+ "]: " +:+ prim_message PString))
               (empty_store [OObj [(String Text.squote "s", VRef 1)]; OArr [VNull]])
         end.
Proof.
  destruct (compile Scenario.no_thunks 6
              (DObject 7 [(String Text.squote "s", DArray 8 (DPrim 9 PString))])
              init_world) as [[f w']|t w'|] eqn:Hc; [|by vm_compute in Hc..].
  exists f, w'. split; [done|].
  exact (array_field_path_escaped Scenario.no_thunks 6 7 8 9 (String Text.squote "s")
           PString init_world f w' ∅ 0 0 [(String Text.squote "s", VRef 1)] 1 [VNull]
           (empty_store [OObj [(String Text.squote "s", VRef 1)]; OArr [VNull]])
           ltac:(reflexivity) ltac:(vm_compute; set_solver) Hc
           ltac:(reflexivity) ltac:(reflexivity) ltac:(reflexivity) ltac:(reflexivity)).
Defined.

(** ** When a union dispatches on typeof *)

Lemma assoc_app_None {A} k (a b : list (string * A)) :
  assoc k (a ++ b) = None <-> assoc k a = None /\ assoc k b = None.
Proof.
  induction a as [|[k' v] a IH]; cbn [app assoc]; [naive_solver|].
  destruct (String.eqb k k'); [naive_solver|done].
Qed.

Lemma assoc_single_None {A} k k' (v : A) : assoc k [(k', v)] = None <-> k <> k'.
Proof.
  cbn [assoc]. destruct (String.eqb_spec k k'); naive_solver.
Qed.

Lemma typeof_map_some variants : forall acc,
  is_Some (typeof_map variants acc)
  <-> Forall is_prim variants
      /\ NoDup (map (fun d => (entry d).1) variants)
      /\ forall k, k ∈ map (fun d => (entry d).1) variants -> assoc k acc = None.
Proof.
  induction variants as [|d rest IH]; intros acc; cbn [typeof_map map].
  - split; [|by eauto]. intros _. split; [done|]. split; [constructor|].
    intros k Hk. by apply elem_of_nil in Hk.
  - fold (kind_of d). unfold entry at 1 3. cbn [fst]. rewrite kind_of_spec.
    destruct d as [id t| | | | | | | | | | | |];
      try (split; [by intros [? ?]|by intros [?%Forall_cons_1 _]; naive_solver]).
    change (default "" (Some (kind t))) with (kind t).
    rewrite NoDup_cons, Forall_cons. case_bool_decide as Hin.
    + split; [by intros [? ?]|]. intros (_ & _ & Hk).
      specialize (Hk (kind t) ltac:(left)). destruct Hin as [x Hx]. congruence.
    + rewrite IH. apply eq_None_not_Some in Hin. split.
      * intros (Hall & Hnd & Hk). split; [done|]. split.
        -- split; [|done]. intros Hel. specialize (Hk _ Hel).
           apply assoc_app_None in Hk as [_ Hk]. by apply assoc_single_None in Hk.
        -- intros k [->|Hel]%elem_of_cons; [done|].
           specialize (Hk _ Hel). by apply assoc_app_None in Hk as [Hk _].
      * intros ([_ Hall] & [Hni Hnd] & Hk). split; [done|]. split; [done|].
        intros k Hel. apply assoc_app_None. split.
        -- apply Hk. by right.
        -- apply assoc_single_None. intros ->. done.
Qed.

Lemma NoDup_map_In {A B} (f : A -> B) (l : list A) a b :
  NoDup (map f l) -> In a l -> In b l -> f a = f b -> a = b.
Proof.
  induction l as [|x l IH]; [done|]. cbn [map]. rewrite NoDup_cons.
  intros [Hx Hnd] [->|Ha] [->|Hb] Hf; try done.
  - exfalso. apply Hx. rewrite Hf. apply list_elem_of_In. by apply in_map.
  - exfalso. apply Hx. rewrite <- Hf. apply list_elem_of_In. by apply in_map.
  - by apply IH.
Qed.

Lemma kinds_of_prims variants :
  Forall is_prim variants ->
  map (fun d => (entry d).1) variants = map variant_kind variants.
Proof.
  induction 1 as [|d rest Hd _ IH]; [done|]. cbn [map]. rewrite IH. f_equal.
  destruct d; try done. unfold entry. cbn [fst]. by rewrite kind_of_spec.
Qed.

(** What [emit] returns for a union is a [switch] on [typeof] exactly
    when every variant is a primitive and no two variants have the same
    typeof kind, the kinds being [string], [boolean], [number] for both
    [number] and [integer], and [bigint].  So a union that holds both
    [number] and [integer] is never dispatched on typeof. *)
Theorem typeof_dispatch_condition thunks fuel id variants e ctx c p w s ctx1 c1 w1 :
  emit thunks fuel (DUnion id variants) e ctx c p w = COk (s, ctx1, c1, w1) ->
  (typeof_dispatched e s
   <-> Forall is_prim variants /\ NoDup (map variant_kind variants))
  /\ (forall i j, In (DPrim i PNumber) variants -> In (DPrim j PInteger) variants ->
       ~ typeof_dispatched e s).
Proof.
  intros He.
  assert (Hiff : typeof_dispatched e s
                 <-> Forall is_prim variants /\ NoDup (map variant_kind variants)).
  { destruct fuel as [|k]; [done|]. rewrite emit_union_unfold in He.
    pose proof (typeof_map_some variants []) as Hsome.
    destruct (typeof_map variants []) as [m|] eqn:Htm.
    - simplify_eq. split; [|by eexists _, _].
      intros _. destruct (proj1 Hsome ltac:(by eexists)) as (Hall & Hnd & _).
      split; [done|]. by rewrite <- kinds_of_prims.
    - split.
      + intros (cases & dflt & ->).
        destruct (find_disc_of variants) as [[key discMap]|].
        * destruct (emit_cases _ e p key discMap ctx c w) as [[[[? ?] ?] ?]|? ?|];
            cbn [cbind] in He; by simplify_eq.
        * destruct (build_variants _ variants ctx w) as [[[? ?] ?]|? ?|];
            cbn [cbind] in He; by simplify_eq.
      + intros [Hall Hnd]. exfalso.
        destruct (proj2 Hsome) as [m Hm]; [|done].
        split; [done|]. split; [by rewrite kinds_of_prims|].
        intros k' _. done. }
  split; [done|]. intros i j Hi Hj [_ Hnd]%Hiff.
  by pose proof (NoDup_map_In variant_kind variants _ _ Hnd Hi Hj eq_refl).
Qed.

Lemma typeof_dispatch_condition_witness :
  exists s ctx1 c1 w1,
    emit Scenario.no_thunks 3 Scenario.int_or_string [] [] 0 (PS "") init_world
    = COk (s, ctx1, c1, w1)
    /\ (typeof_dispatched [] s
        <-> Forall is_prim [integer; string_]
            /\ NoDup (map variant_kind [integer; string_]))
    /\ (forall i j, In (DPrim i PNumber) [integer; string_] ->
         In (DPrim j PInteger) [integer; string_] -> ~ typeof_dispatched [] s).
Proof.
  destruct (emit Scenario.no_thunks 3 Scenario.int_or_string [] [] 0 (PS "") init_world)
    as [[[[s ctx1] c1] w1]|t w1|] eqn:He; [|by vm_compute in He..].
  exists s, ctx1, c1, w1. split; [done|].
  exact (typeof_dispatch_condition Scenario.no_thunks 3 20 [integer; string_]
           [] [] 0 (PS "") init_world s ctx1 c1 w1 He).
Defined.

(** ** [compile] succeeds *)

Lemma syntax_ok_throwCode p msg : syntax_ok (throwCode p msg) = true.
Proof. by destruct p. Qed.

Lemma syntax_ok_typeof_cases e p m :
  forallb (fun c => syntax_ok c.2) (map (typeof_case e p) m) = true.
Proof.
  induction m as [|tv m IH]; [done|]. cbn [map forallb]. rewrite IH.
  unfold typeof_case. cbn [snd syntax_ok forallb].
  repeat destruct (String.eqb _ _); cbn [syntax_ok forallb];
    by rewrite ?syntax_ok_throwCode.
Qed.

Lemma syntax_ok_fallback e cloneIdx snap label fns :
  syntax_ok (fallback_code e cloneIdx snap label fns) = true.
Proof.
  unfold fallback_code. cbn [syntax_ok forallb].
  replace (forallb syntax_ok (map (try_variant e cloneIdx snap label) fns)) with true;
    [done|].
  symmetry. induction fns as [|i fns IH]; [done|]. cbn [map forallb]. by rewrite IH.
Qed.

Lemma emit_fields_ok emit' e p skip shape :
  Forall (fun kd => emit_ok emit' kd.2) shape ->
  forall ctx c w,
    exists parts ctx1 c1 w1,
      emit_fields emit' e p skip shape ctx c w = COk (parts, ctx1, c1, w1)
      /\ forallb syntax_ok parts = true.
Proof.
  induction 1 as [|[key fd] rest Hfd _ IH]; intros ctx c w; cbn [emit_fields].
  - by eexists _, _, _, _.
  - case_bool_decide; [apply IH|]. cbn [snd] in Hfd.
    destruct (Hfd (e ++ [AKey key]) ctx c (appendKey p key) w)
      as (s & ctx1 & c1 & w1 & -> & Hs).
    cbn [cbind]. destruct (IH ctx1 c1 w1) as (parts & ctx2 & c2 & w2 & -> & Hp).
    cbn [cbind]. eexists _, _, _, _. split; [reflexivity|].
    cbn [forallb]. rewrite Hp. by destruct (is_maybe fd); cbn [syntax_ok]; rewrite Hs.
Qed.

Lemma emit_items_ok emit' e p items :
  Forall (emit_ok emit') items ->
  forall i ctx c w,
    exists parts ctx1 c1 w1,
      emit_items emit' e p i items ctx c w = COk (parts, ctx1, c1, w1)
      /\ forallb syntax_ok parts = true.
Proof.
  induction 1 as [|d rest Hd _ IH]; intros i ctx c w; cbn [emit_items].
  - by eexists _, _, _, _.
  - destruct (Hd (e ++ [AIdx i]) ctx c (appendTupleIndex p i) w)
      as (s & ctx1 & c1 & w1 & -> & Hs).
    cbn [cbind]. destruct (IH (S i) ctx1 c1 w1) as (parts & ctx2 & c2 & w2 & -> & Hp).
    cbn [cbind]. eexists _, _, _, _. split; [reflexivity|].
    cbn [forallb]. by rewrite Hs, Hp.
Qed.

Lemma emit_cases_ok emit' e p key m :
  Forall (fun lv => Forall (fun kd => emit_ok emit' kd.2) (shape_of lv.2)) m ->
  forall ctx c w,
    exists cases ctx1 c1 w1,
      emit_cases emit' e p key m ctx c w = COk (cases, ctx1, c1, w1)
      /\ forallb (fun c => syntax_ok c.2) cases = true
      /\ length cases = length m.
Proof.
  induction 1 as [|[val variant] rest Hv _ IH]; intros ctx c w; cbn [emit_cases].
  - by eexists _, _, _, _.
  - cbn [snd] in Hv. destruct (emit_fields_ok emit' e p (Some key) _ Hv ctx c w)
      as (parts & ctx1 & c1 & w1 & -> & Hp).
    cbn [cbind]. destruct (IH ctx1 c1 w1) as (cases & ctx2 & c2 & w2 & -> & Hc & Hlen).
    cbn [cbind]. eexists _, _, _, _. split; [reflexivity|].
    cbn [forallb snd syntax_ok length]. by rewrite Hp, Hc, Hlen.
Qed.

Lemma build_variants_ok build' variants :
  Forall (build_ok build') variants ->
  forall ctx w,
    exists fns ctx1 w1, build_variants build' variants ctx w = COk (fns, ctx1, w1).
Proof.
  induction 1 as [|d rest Hd _ IH]; intros ctx w; cbn [build_variants].
  - by eexists _, _, _.
  - destruct (Hd w) as (f & w1 & ->). cbn [cbind].
    destruct (IH (ctx ++ [CFn f]) w1) as (fns & ctx2 & w2 & ->). cbn [cbind].
    by eexists _, _, _.
Qed.

Lemma find_disc_length keys variants key m :
  find_disc keys variants = Some (key, m) -> length m = length variants.
Proof.
  induction keys as [|k rest IH]; cbn [find_disc]; [done|].
  destruct (disc_map k variants []) as [m1|]; [|exact IH].
  destruct (Nat.eqb_spec (length m1) (length variants)); [|exact IH].
  by intros ?; simplify_eq.
Qed.

Lemma find_disc_of_length variants key m :
  find_disc_of variants = Some (key, m) -> length m = length variants.
Proof.
  unfold find_disc_of. destruct (forallb is_object variants); [|done].
  destruct variants as [|first rest]; [done|]. apply find_disc_length.
Qed.

Lemma depth_in_max (items : list Schema) d :
  In d items -> depth d <= list_max (map depth items).
Proof.
  intros Hin.
  pose proof (proj1 (List.list_max_le (map depth items) _) (le_n _)) as H.
  rewrite List.Forall_forall in H. apply H. by apply in_map.
Qed.

Lemma depth_field_max (shape : list (string * Schema)) kd :
  In kd shape -> depth kd.2 <= list_max (map (fun kd => depth kd.2) shape).
Proof.
  intros Hin.
  pose proof (proj1 (List.list_max_le (map (fun kd => depth kd.2) shape) _) (le_n _)) as H.
  rewrite List.Forall_forall in H. apply H.
  by apply (in_map (fun kd : string * Schema => depth kd.2)).
Qed.

(** The fields of a well-formed variant are well formed and less deep. *)
Lemma shape_fields v kd :
  well_formed v = true -> In kd (shape_of v) ->
  well_formed kd.2 = true /\ depth kd.2 < depth v.
Proof.
  destruct v as [| | | | |id shape| | | | | | |]; try done.
  cbn [shape_of well_formed depth]. intros Hwf Hin. split.
  - rewrite forallb_forall in Hwf. by apply Hwf.
  - apply depth_field_max in Hin. lia.
Qed.

Lemma emit_build_ok thunks fuel :
  (forall d, well_formed d = true -> 2 * depth d < fuel -> emit_ok (emit thunks fuel) d)
  /\ (forall d, well_formed d = true -> 2 * depth d + 1 < fuel ->
        build_ok (build thunks fuel) d).
Proof.
  induction fuel as [|fuel [IHe IHb]]; [split; intros; lia|]. split.
  - intros d Hwf Hd e ctx c p w.
    destruct d as [id [| | | |]|id value|id values|id inner|id item|id shape|id items
                  |id value|id variants|id inner fn|id inner fn message|id inner fn
                  |id thunk]; cbn [well_formed depth] in Hwf, Hd; try done.
    1-6: by (eexists _, _, _, _; split; [reflexivity|];
             cbn [syntax_ok]; rewrite ?syntax_ok_throwCode).
    + eexists _, _, _, _. split; [reflexivity|].
      cbn [syntax_ok]. rewrite syntax_ok_throwCode. by destruct values.
    + rewrite emit_maybe_unfold.
      destruct (IHe inner Hwf ltac:(lia) e ctx c p w) as (s & ctx1 & c1 & w1 & -> & Hs).
      cbn [cbind]. eexists _, _, _, _. split; [reflexivity|].
      by destruct (nonempty (render s)); cbn [syntax_ok]; rewrite ?Hs.
    + rewrite emit_array_unfold.
      destruct (IHe item Hwf ltac:(lia) (e ++ [AVar ("i" +:+ Text.dec c)]) ctx (S c)
                  (appendIndex p ("i" +:+ Text.dec c)) w)
        as (s & ctx1 & c1 & w1 & -> & Hs).
      cbn [cbind]. eexists _, _, _, _. split; [reflexivity|].
      cbn [syntax_ok forallb]. by rewrite Hs, syntax_ok_throwCode.
    + rewrite emit_object_unfold.
      destruct (emit_fields_ok (emit thunks fuel) e p None shape) with (ctx := ctx)
        (c := c) (w := w) as (parts & ctx1 & c1 & w1 & -> & Hp).
      { apply List.Forall_forall. intros kd Hin.
        destruct (shape_fields (DObject id shape) kd Hwf Hin) as [Hw Hlt].
        cbn [depth] in Hlt. apply IHe; [done|lia]. }
      cbn [cbind]. eexists _, _, _, _. split; [reflexivity|].
      cbn [syntax_ok forallb not_object]. by rewrite Hp, syntax_ok_throwCode.
    + rewrite emit_tuple_unfold.
      destruct (emit_items_ok (emit thunks fuel) e p items) with (i := 0) (ctx := ctx)
        (c := c) (w := w) as (parts & ctx1 & c1 & w1 & -> & Hp).
      { apply List.Forall_forall. intros d Hin. rewrite forallb_forall in Hwf.
        apply depth_in_max in Hin as Hle. apply IHe; [by apply Hwf|lia]. }
      cbn [cbind]. eexists _, _, _, _. split; [reflexivity|].
      cbn [syntax_ok forallb]. by rewrite Hp, syntax_ok_throwCode.
    + rewrite emit_record_unfold.
      destruct (IHe value Hwf ltac:(lia) (e ++ [AVar ("k" +:+ Text.dec c)]) ctx (S c)
                  (appendIndex p ("k" +:+ Text.dec c)) w)
        as (s & ctx1 & c1 & w1 & -> & Hs).
      cbn [cbind]. eexists _, _, _, _. split; [reflexivity|].
      cbn [syntax_ok forallb not_object]. by rewrite Hs, syntax_ok_throwCode.
    + apply andb_prop in Hwf as [Hne Hall]. rewrite forallb_forall in Hall.
      rewrite emit_union_unfold.
      destruct (typeof_map variants []) as [m|] eqn:Htm.
      * eexists _, _, _, _. split; [reflexivity|].
        destruct (typeof_map_spec _ _ _ Htm) as [-> _]. cbn [app syntax_ok].
        rewrite syntax_ok_typeof_cases, syntax_ok_throwCode.
        destruct variants; [done|reflexivity].
      * destruct (find_disc_of variants) as [[key discMap]|] eqn:Hfd.
        -- destruct (emit_cases_ok (emit thunks fuel) e p key discMap) with (ctx := ctx)
             (c := c) (w := w) as (cases & ctx1 & c1 & w1 & -> & Hcs & Hlen).
           { apply List.Forall_forall. intros lv Hin.
             apply (find_disc_of_incl _ _ _ Hfd) in Hin.
             apply List.Forall_forall. intros kd Hkd.
             destruct (shape_fields lv.2 kd (Hall _ Hin) Hkd) as [Hw Hlt].
             apply depth_in_max in Hin. apply IHe; [done|lia]. }
           cbn [cbind]. eexists _, _, _, _. split; [reflexivity|].
           cbn [syntax_ok forallb not_object].
           rewrite Hcs, !syntax_ok_throwCode.
           rewrite (find_disc_of_length _ _ _ Hfd) in Hlen.
           destruct cases; [|reflexivity]. by destruct variants.
        -- destruct (build_variants_ok (build thunks fuel) variants) with (ctx := ctx)
             (w := w) as (fns & ctx1 & w1 & ->).
           { apply List.Forall_forall. intros d Hin.
             apply depth_in_max in Hin as Hle. apply IHb; [by apply Hall|lia]. }
           cbn [cbind]. eexists _, _, _, _. split; [reflexivity|].
           apply syntax_ok_fallback.
    + rewrite emit_transform_unfold.
      destruct (IHe inner Hwf ltac:(lia) e ctx c p w) as (s & ctx1 & c1 & w1 & -> & Hs).
      cbn [cbind]. eexists _, _, _, _. split; [reflexivity|].
      cbn [syntax_ok forallb]. by rewrite Hs.
    + rewrite emit_refine_unfold.
      destruct (IHe inner Hwf ltac:(lia) e ctx c p w) as (s & ctx1 & c1 & w1 & -> & Hs).
      cbn [cbind]. eexists _, _, _, _. split; [reflexivity|].
      cbn [syntax_ok forallb]. by rewrite Hs, syntax_ok_throwCode.
    + rewrite emit_preprocess_unfold.
      destruct (IHe inner Hwf ltac:(lia) e (ctx ++ [CUser fn]) c p w)
        as (s & ctx1 & c1 & w1 & -> & Hs).
      cbn [cbind]. eexists _, _, _, _. split; [reflexivity|].
      cbn [syntax_ok forallb]. by rewrite Hs.
  - intros d Hwf Hd w. rewrite build_unfold. case_bool_decide; [by eexists _, _|].
    destruct (IHe d Hwf ltac:(lia) [] [] 0 (PS "")
                (World (_cache w) ({[sid d]} ∪ _building w) (next_fid w)))
      as (s & ctx1 & c1 & w1 & -> & ->).
    by eexists _, _.
Qed.

(** [compile] on a descriptor without [lazy] in which no [oneOf] and
    no [union] is empty: [emit] and [build] call each other no deeper
    than twice the nesting of the descriptor plus two, and when the
    stack admits that depth [compile] returns a validator, whatever the
    cache and the marker set hold; it throws no [SyntaxError].  (Past
    the depth the stack admits the engine throws a [RangeError]: a
    descriptor nested some thousands deep does not compile.) *)
Theorem compile_succeeds thunks fuel d w :
  well_formed d = true ->
  2 * depth d + 1 < fuel ->
  exists f w', compile thunks fuel d w = COk (f, w').
Proof.
  intros Hwf Hd. unfold compile.
  destruct (_cache w !! sid d) as [g|]; [by eexists _, _|].
  destruct (proj2 (emit_build_ok thunks fuel) d Hwf Hd w) as (f & w1 & ->).
  by eexists _, _.
Qed.

Lemma compile_succeeds_witness :
  exists f w', compile Scenario.no_thunks 8 Scenario.items_schema init_world = COk (f, w').
Proof.
  exact (compile_succeeds Scenario.no_thunks 8 Scenario.items_schema init_world
           ltac:(reflexivity) ltac:(vm_compute; lia)).
Defined.

(** ** [parse] *)

(** [parse] compiles a descriptor at most once: when [parse(d, x)] has
    got its validator, whether the validator accepted [x] or threw, [d]
    is in the cache, and a later [parse(d, y)] applies the same function
    to [y] and leaves the module state as it is. *)
Theorem parse_reuses_validator thunks fuel d x y w st st' r w1 :
  parse thunks fuel d x w st = COk (r, w1) ->
  exists f,
    _cache w1 !! sid d = Some f
    /\ r = apply (_cache w1) fuel f x st
    /\ parse thunks fuel d y w1 st' = COk (apply (_cache w1) fuel f y st', w1).
Proof.
  unfold parse.
  destruct (compile thunks fuel d w) as [[f w2]|t w2|] eqn:Hc; [|done..].
  intros ?; simplify_eq. destruct (compile_cache _ _ _ _ _ _ Hc) as [Hf _].
  exists f. split; [done|]. split; [done|]. by rewrite (compile_hit _ _ _ _ _ Hf).
Qed.

Lemma parse_reuses_validator_witness :
  exists r w1 f,
    parse Scenario.no_thunks 30 Scenario.items_schema (VRef 0) init_world
      (empty_store Scenario.items_heap) = COk (r, w1)
    /\ _cache w1 !! sid Scenario.items_schema = Some f
    /\ r = apply (_cache w1) 30 f (VRef 0) (empty_store Scenario.items_heap)
    /\ parse Scenario.no_thunks 30 Scenario.items_schema (VRef 0) w1
         (empty_store Scenario.items_heap_ok)
       = COk (apply (_cache w1) 30 f (VRef 0) (empty_store Scenario.items_heap_ok), w1).
Proof.
  destruct (parse Scenario.no_thunks 30 Scenario.items_schema (VRef 0) init_world
              (empty_store Scenario.items_heap)) as [[r w1]|t w1|] eqn:Hp;
    [|by vm_compute in Hp..].
  destruct (parse_reuses_validator Scenario.no_thunks 30 Scenario.items_schema
              (VRef 0) (VRef 0) init_world (empty_store Scenario.items_heap)
              (empty_store Scenario.items_heap_ok) r w1 Hp) as (f & H).
  exists r, w1, f. split; [done|]. exact H.
Defined.

(** ** A cycle head that is never compiled *)

Lemma run_seq_sos (ex ex' : executor) ss :
  Forall (fun s => forall fr st, memo st = ∅ ->
                   same_or_stopped (ex s fr st) (ex' s fr st)) ss ->
  forall fr st, memo st = ∅ ->
    same_or_stopped (run_seq ex ss fr st) (run_seq ex' ss fr st).
Proof.
  induction 1 as [|s ss Hs _ IH]; intros fr st Hm; cbn [run_seq].
  - by left.
  - destruct (Hs fr st Hm) as [[<- Hcl]|(fr1 & st1 & ->)].
    + destruct (ex s fr st) as [fr1 st1| | |]; [by apply IH|by left..].
    + right. by eexists _, _.
Qed.

Lemma forin_each_sos (ex ex' : executor) v body outer ks :
  (forall fr st, memo st = ∅ -> same_or_stopped (ex body fr st) (ex' body fr st)) ->
  forall fr st, memo st = ∅ ->
    same_or_stopped (forin_each ex v body outer ks fr st)
      (forin_each ex' v body outer ks fr st).
Proof.
  intros Hb. induction ks as [|k ks IH]; intros fr st Hm; cbn [forin_each].
  - by left.
  - destruct (Hb (set_lvars fr ((v, KStr k) :: outer)) st Hm)
      as [[<- Hcl]|(fr1 & st1 & ->)].
    + destruct (ex body _ st) as [fr1 st1|[l|] fr1 st1|t fr1 st1|a];
        [by apply IH|by left..].
    + right. by eexists _, _.
Qed.

Lemma branch_sos (ex ex' : executor) fr st c s1 s2 :
  memo st = ∅ ->
  (forall s, s1 = Some s \/ s2 = Some s ->
     same_or_stopped (ex s fr st) (ex' s fr st)) ->
  same_or_stopped (branch ex fr st c s1 s2) (branch ex' fr st c s1 s2).
Proof.
  intros Hm H. unfold branch.
  destruct (eval_cond fr (hp st) c) as [[|]|t|a]; try by left.
  - destruct s1; [apply H; auto|by left].
  - destruct s2; [apply H; auto|by left].
Qed.

Lemma end_switch_sos o o' :
  same_or_stopped o o' -> same_or_stopped (end_switch o) (end_switch o').
Proof.
  intros [[<- Hcl]|(fr & st & ->)]; [left|right; by eexists _, _].
  by destruct o as [|[|]| |].
Qed.

Lemma call_set_sos (cl cl' : caller) ctx fr st e idx arg :
  memo st = ∅ ->
  (forall a, same_or_stopped_call (cl (ctx !! idx) a st) (cl' (ctx !! idx) a st)) ->
  same_or_stopped (call_set cl ctx fr st e idx arg) (call_set cl' ctx fr st e idx arg).
Proof.
  intros Hm H. unfold call_set.
  destruct (resolve fr (hp st) e) as [tg|t|a]; [|by left..].
  destruct arg as [a|t|a]; [|by left..].
  destruct (H a) as [[<- Hcl]|(st1 & ->)]; [|right; by eexists _, _].
  left. split; [done|].
  destruct (cl (ctx !! idx) a st) as [r st1|t st1|x]; try done.
  destruct tg as [|base k]; cbn [put lift]; [done|].
  by destruct (set_prop (hp st1) base k r).
Qed.

Lemma tame_lookup d ctx idx :
  forallb (fun c => match c with CFn g => tame d g | _ => true end) ctx = true ->
  tame_entry d (ctx !! idx) = true.
Proof.
  intros H. destruct (ctx !! idx) as [c|] eqn:Hc; [|done].
  rewrite forallb_forall in H. apply (H c). by eapply list_elem_of_In, list_elem_of_lookup_2.
Qed.

(** The run of a tame function under a cache that has nothing for [d],
    next to its run under any other cache. *)
Lemma runs_same_or_stopped (c c' : gmap nat fnval) d :
  c !! d = None ->
  forall fuel,
    (forall ctx s fr st,
       forallb (fun x => match x with CFn g => tame d g | _ => true end) ctx = true ->
       catches s = false -> memo st = ∅ ->
       same_or_stopped (exec c fuel ctx s fr st) (exec c' fuel ctx s fr st))
    /\ (forall ctx v e body i fr st,
          forallb (fun x => match x with CFn g => tame d g | _ => true end) ctx = true ->
          catches body = false -> memo st = ∅ ->
          same_or_stopped (loop_for c fuel ctx v e body i fr st)
            (loop_for c' fuel ctx v e body i fr st))
    /\ (forall f arg st,
          tame_entry d f = true -> memo st = ∅ ->
          same_or_stopped_call (call c fuel f arg st) (call c' fuel f arg st)).
Proof.
  intros Hd. induction fuel as [|fuel (IHe & IHl & IHc)].
  { repeat split; intros; by left. }
  split; [|split].
  - intros ctx s fr st Hctx Hs Hm.
    destruct s; cbn [catches] in Hs; try discriminate; cbn [exec].
    + apply run_seq_sos; [|done]. apply existsb_false_Forall in Hs.
      eapply Forall_impl; [exact Hs|]. intros s Hs' fr' st' Hm'. by apply IHe.
    + destruct (eval_sexpr fr m); by left.
    + apply branch_sos; [done|]. intros s' [[= <-]|[=]]. by apply IHe.
    + apply branch_sos; [done|]. intros s' [[= <-]|[=]]. by apply IHe.
    + apply orb_false_iff in Hs as [Hs1 Hs2].
      apply branch_sos; [done|]. intros s' [[= <-]|[= <-]]; by apply IHe.
    + destruct (resolve fr (hp st) e) as [[|base k]|t|a]; cbn [put lift]; try by left.
      by destruct (set_prop (hp st) base k VUndef); left.
    + apply call_set_sos; [done|]. intros a. apply IHc; [|done].
      by apply tame_lookup.
    + destruct (eval_slot fr (hp st) e) as [a|t|a]; [|by left..].
      destruct (IHc (ctx !! idx) a st (tame_lookup _ _ _ Hctx) Hm)
        as [[<- Hcl]|(st1 & ->)]; [|right; by eexists _, _].
      destruct (call c fuel (ctx !! idx) a st) as [r st1|t st1|x]; [|by left..].
      destruct (truthy r); [by left|]. by apply IHe.
    + by apply IHl.
    + destruct (eval_slot fr (hp st) e) as [o|t|a]; [|by left..].
      destruct (keys_of (hp st) o) as [ks|t|a]; [|by left..].
      apply forin_each_sos; [|done]. intros fr' st' Hm'. by apply IHe.
    + destruct (eval_slot fr (hp st) e) as [x|t|a]; [|by left..].
      destruct (existsb (strict_eq x) values); [by left|].
      apply end_switch_sos. by apply IHe.
    + apply orb_false_iff in Hs as [Hs1 Hs2].
      destruct (eval_disc fr (hp st) d0) as [x|t|a]; [|by left..].
      apply end_switch_sos, run_seq_sos; [|done].
      apply List.Forall_forall. intros s' Hin%in_app_or fr' st' Hm'.
      apply IHe; [done| |done]. destruct Hin as [Hin|[<-|[]]]; [|done].
      apply from_match_incl, in_map_iff in Hin as ([l s''] & <- & Hin).
      apply existsb_false_Forall in Hs1. rewrite List.Forall_forall in Hs1.
      exact (Hs1 _ Hin).
    + by left.
    + destruct (eval_slot fr (hp st) e) as [a|t|a]; [|by left..].
      destruct (IHc (ctx !! idx) a st (tame_lookup _ _ _ Hctx) Hm)
        as [[<- Hcl]|(st1 & ->)]; [|right; by eexists _, _].
      left. split; [done|].
      by destruct (call c fuel (ctx !! idx) a st) as [r st1|t st1|x].
    + apply call_set_sos; [done|]. intros a. apply IHc; [|done].
      by apply tame_lookup.
    + destruct (IHe ctx s fr st Hctx Hs Hm) as [[<- Hcl]|(fr1 & st1 & ->)];
        [|right; by eexists _, _].
      left. split; [done|].
      destruct (exec c fuel ctx s fr st) as [|[l|]| |]; try done.
      by destruct (String.eqb l label).
    + left. split; [done|].
      destruct (err_nullish (err fr)); [done|]. by destruct (err fr).
  - intros ctx v e body i fr st Hctx Hb Hm. cbn [loop_for].
    destruct (eval_slot fr (hp st) e) as [a|t|a]; [|by left..].
    destruct (length_of (hp st) a) as [[len|]|t|a']; [|by left..].
    destruct (Nat.ltb i len); [|by left].
    destruct (IHe ctx body (set_lvars fr ((v, KIdx i) :: lvars fr)) st Hctx Hb Hm)
      as [[<- Hcl]|(fr1 & st1 & ->)]; [|right; by eexists _, _].
    destruct (exec c fuel ctx body _ st) as [fr1 st1|[l|] fr1 st1|t fr1 st1|a'];
      [by apply IHl|by left..].
  - intros f arg st Hf Hm. cbn [call].
    destruct f as [[[fid body ctx|fid d']|g|]|]; cbn [tame_entry tame] in Hf.
    + apply andb_prop in Hf as [Hb%negb_true_iff Hctx].
      destruct (IHe ctx body (init_frame arg) st Hctx Hb Hm)
        as [[<- Hcl]|(fr1 & st1 & ->)]; [|right; by eexists].
      left. split; [done|].
      by destruct (exec c fuel ctx body (init_frame arg) st).
    + apply Nat.eqb_eq in Hf as ->. rewrite Hm, lookup_empty, Hd.
      right. by eexists.
    + left. split; [done|]. by destruct (g (hp st) arg) as [h' [r|t]].
    + left. split; [done|]. by destruct (structuredClone (hp st) arg) as [[r h']|].
    + by left.
Qed.



